(** * market-data-parser: ITCH decoder, MPMC ring queue and asynchronous logger

    A shallow embedding of [include/itch_protocol.hpp],
    [include/itch_parser.hpp], [include/mpmc_queue.hpp] and
    [include/async_logger.hpp], with the properties of the specification
    stated over it.

    Conventions.
    - [uint8_t] and [char] are [byte]; [uint16_t], [uint32_t], [uint64_t] and
      [size_t] are [Z], with the wrap-around written where the code can reach it.
    - The host is x86-64 (the parser executes [rdtsc]): little-endian, so the
      object representation of an integer member is [le_split] and a load
      through a reinterpreted pointer is [le_combine].
    - [std::array<char, N>] is [vec byte N].
    - Structs declared under [#pragma pack(1)] are laid out member after
      member without padding. *)

From Stdlib Require Import ZArith Lia List Bool.
From Stdlib Require Import Strings.Byte.
From Stdlib Require Import Floats.PrimFloat Numbers.Cyclic.Int63.Uint63.
From coqutil Require Import Byte Word.LittleEndianList.
From coqutil Require Import Z.bitblast.
From stdpp Require Import base option list vector.

Local Open Scope Z_scope.

(* ===================================================================== *)
(** * itch_protocol.hpp *)
(* ===================================================================== *)

(** ** Byte-swap primitives

    [__builtin_bswapN] returns its operand with the order of its N/8 bytes
    reversed. *)

Definition bswap (nbytes : nat) (x : Z) : Z :=
  le_combine (rev (le_split nbytes x)).

Definition ntoh16 (x : Z) : Z := bswap 2 x.
Definition ntoh32 (x : Z) : Z := bswap 4 x.
Definition ntoh64 (x : Z) : Z := bswap 8 x.

(** The test and demo helpers [hton16], [hton32], [hton64] are the same
    builtins. *)
Definition hton16 (x : Z) : Z := bswap 2 x.
Definition hton32 (x : Z) : Z := bswap 4 x.
Definition hton64 (x : Z) : Z := bswap 8 x.

(** ** Fixed-point price

    [static_cast<double>(price) / 10000.0] on IEEE binary64. A [uint32_t]
    converts exactly. *)
Definition price_to_double (price : Z) : float :=
  PrimFloat.div (PrimFloat.of_uint63 (Uint63.of_Z price)) 10000%float.

(** ** Symbol extraction *)

Definition space : byte := " "%byte.

(** [while (len > 0 && stock[len - 1] == ' ') --len;] *)
Fixpoint trim_len (stock : list byte) (len : nat) : nat :=
  match len with
  | O => O
  | S len' =>
      if Byte.eqb (nth len' stock space) space
      then trim_len stock len'
      else len
  end.

(** [std::string_view(stock.data(), len)]: the first [len] characters. *)
Definition get_stock_symbol (stock : vec byte 8) : list byte :=
  take (trim_len (vec_to_list stock) 8) (vec_to_list stock).

(** ** Message types

    [enum class MessageType : uint8_t]. The parser obtains a value of this
    type by [static_cast] from an arbitrary byte, so the type is the whole of
    [byte] and the enumerators are named constants. *)

Definition MessageType := byte.

Module MessageType.
Definition SYSTEM_EVENT : MessageType := "S"%byte.
Definition STOCK_DIRECTORY : MessageType := "R"%byte.
Definition STOCK_TRADING_ACTION : MessageType := "H"%byte.
Definition REG_SHO_RESTRICTION : MessageType := "Y"%byte.
Definition MARKET_PARTICIPANT_POSITION : MessageType := "L"%byte.
Definition MWCB_DECLINE_LEVEL : MessageType := "V"%byte.
Definition MWCB_STATUS : MessageType := "W"%byte.
Definition IPO_QUOTING_PERIOD : MessageType := "K"%byte.
Definition LULD_AUCTION_COLLAR : MessageType := "J"%byte.
Definition OPERATIONAL_HALT : MessageType := "h"%byte.
Definition ADD_ORDER : MessageType := "A"%byte.
Definition ADD_ORDER_MPID : MessageType := "F"%byte.
Definition EXECUTE_ORDER : MessageType := "E"%byte.
Definition EXECUTE_ORDER_WITH_PRICE : MessageType := "C"%byte.
Definition ORDER_CANCEL : MessageType := "X"%byte.
Definition ORDER_DELETE : MessageType := "D"%byte.
Definition ORDER_REPLACE : MessageType := "U"%byte.
Definition TRADE : MessageType := "P"%byte.
Definition CROSS_TRADE : MessageType := "Q"%byte.
Definition BROKEN_TRADE : MessageType := "B"%byte.
Definition NOII : MessageType := "I"%byte.
Definition RPII : MessageType := "N"%byte.
End MessageType.

(** ** Reading a packed struct through a reinterpreted pointer

    A cursor over the bytes at the pointer: each member is read at the
    current position in host order and the cursor moves past it. A read
    beyond the end of the supplied bytes is undefined behaviour in the
    source; here it yields zero bytes. *)

Definition Reader (A : Type) : Type := list byte -> A * list byte.

Definition rret {A} (a : A) : Reader A := fun bs => (a, bs).

Definition rbind {A B} (m : Reader A) (k : A -> Reader B) : Reader B :=
  fun bs => let '(a, bs') := m bs in k a bs'.

Notation "x <~ m ;; k" := (rbind m (fun x => k))
  (at level 100, m at next level, right associativity).

Definition byte_at (bs : list byte) (i : nat) : byte := nth i bs Byte.x00.

Definition fetch (n : nat) (bs : list byte) : list byte :=
  map (byte_at bs) (seq 0 n).

Definition rd_u8 : Reader byte := fun bs => (byte_at bs 0, drop 1 bs).

Definition rd_uint (nbytes : nat) : Reader Z :=
  fun bs => (le_combine (fetch nbytes bs), drop nbytes bs).

Definition rd_u16 : Reader Z := rd_uint 2.
Definition rd_u32 : Reader Z := rd_uint 4.
Definition rd_u64 : Reader Z := rd_uint 8.

Definition rd_array (n : nat) : Reader (vec byte n) :=
  fun bs => (fun_to_vec (fun i : fin n => byte_at bs (fin_to_nat i)), drop n bs).

(** Object representation of the members. *)
Definition u8_bytes (b : byte) : list byte := [b].
Definition u16_bytes (x : Z) : list byte := le_split 2 x.
Definition u32_bytes (x : Z) : list byte := le_split 4 x.
Definition u64_bytes (x : Z) : list byte := le_split 8 x.
Definition array_bytes {n} (a : vec byte n) : list byte := vec_to_list a.

(** ** The packed wire structs

    For each struct: the record, [sizeof] (the sum of the member widths, no
    padding), [view] ([reinterpret_cast<const S*>(data)] followed by member
    loads in host order) and [bytes] (the object representation that
    [std::memcpy] copies). *)

Module ITCHMessageHeader.
Record t := mk {
  message_type : byte;      (* uint8_t *)
  stock_locate : Z;         (* uint16_t *)
  tracking_number : Z;      (* uint16_t *)
  timestamp : Z             (* uint64_t *)
}.
Definition sizeof : Z := 1 + 2 + 2 + 8.
Definition view : Reader t :=
  mt <~ rd_u8 ;; sl <~ rd_u16 ;; tn <~ rd_u16 ;; ts <~ rd_u64 ;;
  rret (mk mt sl tn ts).
Definition bytes (h : t) : list byte :=
  u8_bytes (message_type h) ++ u16_bytes (stock_locate h)
  ++ u16_bytes (tracking_number h) ++ u64_bytes (timestamp h).
End ITCHMessageHeader.

Module AddOrderMessage.
Record t := mk {
  header : ITCHMessageHeader.t;
  order_reference_number : Z;   (* uint64_t *)
  buy_sell_indicator : byte;    (* uint8_t *)
  shares : Z;                   (* uint32_t *)
  stock : vec byte 8;           (* std::array<char, 8> *)
  price : Z                     (* uint32_t *)
}.
Definition sizeof : Z := ITCHMessageHeader.sizeof + 8 + 1 + 4 + 8 + 4.
Definition view : Reader t :=
  h <~ ITCHMessageHeader.view ;; orn <~ rd_u64 ;; bs <~ rd_u8 ;;
  sh <~ rd_u32 ;; st <~ rd_array 8 ;; pr <~ rd_u32 ;;
  rret (mk h orn bs sh st pr).
Definition bytes (m : t) : list byte :=
  ITCHMessageHeader.bytes (header m) ++ u64_bytes (order_reference_number m)
  ++ u8_bytes (buy_sell_indicator m) ++ u32_bytes (shares m)
  ++ array_bytes (stock m) ++ u32_bytes (price m).
End AddOrderMessage.

Module ExecuteOrderMessage.
Record t := mk {
  header : ITCHMessageHeader.t;
  order_reference_number : Z;   (* uint64_t *)
  executed_shares : Z;          (* uint32_t *)
  match_number : Z              (* uint64_t *)
}.
Definition sizeof : Z := ITCHMessageHeader.sizeof + 8 + 4 + 8.
Definition view : Reader t :=
  h <~ ITCHMessageHeader.view ;; orn <~ rd_u64 ;; es <~ rd_u32 ;;
  mn <~ rd_u64 ;;
  rret (mk h orn es mn).
Definition bytes (m : t) : list byte :=
  ITCHMessageHeader.bytes (header m) ++ u64_bytes (order_reference_number m)
  ++ u32_bytes (executed_shares m) ++ u64_bytes (match_number m).
End ExecuteOrderMessage.

Module ExecuteOrderWithPriceMessage.
Record t := mk {
  header : ITCHMessageHeader.t;
  order_reference_number : Z;   (* uint64_t *)
  executed_shares : Z;          (* uint32_t *)
  match_number : Z;             (* uint64_t *)
  printable : byte;             (* uint8_t *)
  execution_price : Z           (* uint32_t *)
}.
Definition sizeof : Z := ITCHMessageHeader.sizeof + 8 + 4 + 8 + 1 + 4.
Definition view : Reader t :=
  h <~ ITCHMessageHeader.view ;; orn <~ rd_u64 ;; es <~ rd_u32 ;;
  mn <~ rd_u64 ;; pt <~ rd_u8 ;; ep <~ rd_u32 ;;
  rret (mk h orn es mn pt ep).
Definition bytes (m : t) : list byte :=
  ITCHMessageHeader.bytes (header m) ++ u64_bytes (order_reference_number m)
  ++ u32_bytes (executed_shares m) ++ u64_bytes (match_number m)
  ++ u8_bytes (printable m) ++ u32_bytes (execution_price m).
End ExecuteOrderWithPriceMessage.

Module OrderCancelMessage.
Record t := mk {
  header : ITCHMessageHeader.t;
  order_reference_number : Z;   (* uint64_t *)
  cancelled_shares : Z          (* uint32_t *)
}.
Definition sizeof : Z := ITCHMessageHeader.sizeof + 8 + 4.
Definition view : Reader t :=
  h <~ ITCHMessageHeader.view ;; orn <~ rd_u64 ;; cs <~ rd_u32 ;;
  rret (mk h orn cs).
Definition bytes (m : t) : list byte :=
  ITCHMessageHeader.bytes (header m) ++ u64_bytes (order_reference_number m)
  ++ u32_bytes (cancelled_shares m).
End OrderCancelMessage.

Module OrderDeleteMessage.
Record t := mk {
  header : ITCHMessageHeader.t;
  order_reference_number : Z    (* uint64_t *)
}.
Definition sizeof : Z := ITCHMessageHeader.sizeof + 8.
Definition view : Reader t :=
  h <~ ITCHMessageHeader.view ;; orn <~ rd_u64 ;;
  rret (mk h orn).
Definition bytes (m : t) : list byte :=
  ITCHMessageHeader.bytes (header m) ++ u64_bytes (order_reference_number m).
End OrderDeleteMessage.

Module OrderReplaceMessage.
Record t := mk {
  header : ITCHMessageHeader.t;
  original_order_reference_number : Z;   (* uint64_t *)
  new_order_reference_number : Z;        (* uint64_t *)
  shares : Z;                            (* uint32_t *)
  price : Z                              (* uint32_t *)
}.
Definition sizeof : Z := ITCHMessageHeader.sizeof + 8 + 8 + 4 + 4.
Definition view : Reader t :=
  h <~ ITCHMessageHeader.view ;; oorn <~ rd_u64 ;; norn <~ rd_u64 ;;
  sh <~ rd_u32 ;; pr <~ rd_u32 ;;
  rret (mk h oorn norn sh pr).
Definition bytes (m : t) : list byte :=
  ITCHMessageHeader.bytes (header m)
  ++ u64_bytes (original_order_reference_number m)
  ++ u64_bytes (new_order_reference_number m)
  ++ u32_bytes (shares m) ++ u32_bytes (price m).
End OrderReplaceMessage.

Module TradeMessage.
Record t := mk {
  header : ITCHMessageHeader.t;
  order_reference_number : Z;   (* uint64_t *)
  buy_sell_indicator : byte;    (* uint8_t *)
  shares : Z;                   (* uint32_t *)
  stock : vec byte 8;           (* std::array<char, 8> *)
  price : Z;                    (* uint32_t *)
  match_number : Z              (* uint64_t *)
}.
Definition sizeof : Z := ITCHMessageHeader.sizeof + 8 + 1 + 4 + 8 + 4 + 8.
Definition view : Reader t :=
  h <~ ITCHMessageHeader.view ;; orn <~ rd_u64 ;; bs <~ rd_u8 ;;
  sh <~ rd_u32 ;; st <~ rd_array 8 ;; pr <~ rd_u32 ;; mn <~ rd_u64 ;;
  rret (mk h orn bs sh st pr mn).
Definition bytes (m : t) : list byte :=
  ITCHMessageHeader.bytes (header m) ++ u64_bytes (order_reference_number m)
  ++ u8_bytes (buy_sell_indicator m) ++ u32_bytes (shares m)
  ++ array_bytes (stock m) ++ u32_bytes (price m)
  ++ u64_bytes (match_number m).
End TradeMessage.

Module SystemEventMessage.
Record t := mk {
  header : ITCHMessageHeader.t;
  event_code : byte             (* uint8_t *)
}.
Definition sizeof : Z := ITCHMessageHeader.sizeof + 1.
Definition view : Reader t :=
  h <~ ITCHMessageHeader.view ;; ec <~ rd_u8 ;;
  rret (mk h ec).
Definition bytes (m : t) : list byte :=
  ITCHMessageHeader.bytes (header m) ++ u8_bytes (event_code m).
End SystemEventMessage.

Module StockDirectoryMessage.
Record t := mk {
  header : ITCHMessageHeader.t;
  stock : vec byte 8;                     (* std::array<char, 8> *)
  market_category : byte;
  financial_status_indicator : byte;
  round_lot_size : Z;                     (* uint32_t *)
  round_lots_only : byte;
  issue_classification : byte;
  issue_sub_type : vec byte 2;            (* std::array<char, 2> *)
  authenticity : byte;
  short_sale_threshold_indicator : byte;
  ipo_flag : byte;
  luld_reference_price_tier : byte;
  etp_flag : byte;
  etp_leverage_factor : Z;                (* uint32_t *)
  inverse_indicator : byte
}.
Definition sizeof : Z :=
  ITCHMessageHeader.sizeof + 8 + 1 + 1 + 4 + 1 + 1 + 2 + 1 + 1 + 1 + 1 + 1 + 4 + 1.
Definition view : Reader t :=
  h <~ ITCHMessageHeader.view ;; st <~ rd_array 8 ;; mc <~ rd_u8 ;;
  fsi <~ rd_u8 ;; rls <~ rd_u32 ;; rlo <~ rd_u8 ;; ic <~ rd_u8 ;;
  ist <~ rd_array 2 ;; au <~ rd_u8 ;; ssti <~ rd_u8 ;; ipo <~ rd_u8 ;;
  luld <~ rd_u8 ;; etp <~ rd_u8 ;; elf <~ rd_u32 ;; inv <~ rd_u8 ;;
  rret (mk h st mc fsi rls rlo ic ist au ssti ipo luld etp elf inv).
Definition bytes (m : t) : list byte :=
  ITCHMessageHeader.bytes (header m) ++ array_bytes (stock m)
  ++ u8_bytes (market_category m) ++ u8_bytes (financial_status_indicator m)
  ++ u32_bytes (round_lot_size m) ++ u8_bytes (round_lots_only m)
  ++ u8_bytes (issue_classification m) ++ array_bytes (issue_sub_type m)
  ++ u8_bytes (authenticity m) ++ u8_bytes (short_sale_threshold_indicator m)
  ++ u8_bytes (ipo_flag m) ++ u8_bytes (luld_reference_price_tier m)
  ++ u8_bytes (etp_flag m) ++ u32_bytes (etp_leverage_factor m)
  ++ u8_bytes (inverse_indicator m).
End StockDirectoryMessage.

(** ** ParsedMessage

    [type], the union of the nine variants, and the parse timestamp. The
    union is a sum: the constructor records which member was written last. *)

Inductive MessageUnion :=
| add_order (m : AddOrderMessage.t)
| execute_order (m : ExecuteOrderMessage.t)
| execute_with_price (m : ExecuteOrderWithPriceMessage.t)
| order_cancel (m : OrderCancelMessage.t)
| order_delete (m : OrderDeleteMessage.t)
| order_replace (m : OrderReplaceMessage.t)
| trade (m : TradeMessage.t)
| system_event (m : SystemEventMessage.t)
| stock_directory (m : StockDirectoryMessage.t).

Record ParsedMessage := mkParsedMessage {
  type : MessageType;
  payload : MessageUnion;
  parse_timestamp_ns : Z     (* uint64_t *)
}.

(** The storage of the union is as wide as its widest member
    ([TradeMessage]) and starts with the object representation of the member
    written last; the bytes after it were never written and are taken as
    zero. *)
Definition sizeof_union : Z := TradeMessage.sizeof.

Definition member_bytes (u : MessageUnion) : list byte :=
  match u with
  | add_order m => AddOrderMessage.bytes m
  | execute_order m => ExecuteOrderMessage.bytes m
  | execute_with_price m => ExecuteOrderWithPriceMessage.bytes m
  | order_cancel m => OrderCancelMessage.bytes m
  | order_delete m => OrderDeleteMessage.bytes m
  | order_replace m => OrderReplaceMessage.bytes m
  | trade m => TradeMessage.bytes m
  | system_event m => SystemEventMessage.bytes m
  | stock_directory m => StockDirectoryMessage.bytes m
  end.

Definition union_bytes (u : MessageUnion) : list byte :=
  take (Z.to_nat sizeof_union)
       (member_bytes u ++ replicate (Z.to_nat sizeof_union) Byte.x00).

(* ===================================================================== *)
(** * itch_parser.hpp *)
(* ===================================================================== *)

(** ** The time-stamp counter

    The only effect of the parser is the [rdtsc] instruction executed by
    [get_timestamp_ns]. The processor is modelled by the results its
    upcoming [rdtsc] instructions will deliver, as pairs [(lo, hi)] of the
    [EAX] and [EDX] halves; executing the instruction consumes one. *)

Definition Tsc : Type := list (Z * Z).

Definition rdtsc (cpu : Tsc) : (Z * Z) * Tsc :=
  match cpu with
  | [] => ((0, 0), [])
  | (lo, hi) :: cpu' => ((lo mod 2 ^ 32, hi mod 2 ^ 32), cpu')
  end.

(** [return (static_cast<uint64_t>(hi) << 32) | lo;] *)
Definition get_timestamp_ns (cpu : Tsc) : Z * Tsc :=
  let '((lo, hi), cpu') := rdtsc cpu in
  (Z.lor (Z.shiftl hi 32) lo, cpu').

(** ** The per-variant helpers

    Every helper starts with the same four assignments to the header of its
    variant. *)
Definition parse_header (wire : ITCHMessageHeader.t) : ITCHMessageHeader.t :=
  ITCHMessageHeader.mk
    (ITCHMessageHeader.message_type wire)
    (ntoh16 (ITCHMessageHeader.stock_locate wire))
    (ntoh16 (ITCHMessageHeader.tracking_number wire))
    (ntoh64 (ITCHMessageHeader.timestamp wire)).

(** A helper receives [msg] with only [msg.type] assigned; it assigns every
    member of its variant and [parse_timestamp_ns], and returns [msg]. *)
Definition finish (msg_type : MessageType) (u : MessageUnion) (cpu : Tsc)
  : option ParsedMessage * Tsc :=
  let '(now, cpu') := get_timestamp_ns cpu in
  (Some (mkParsedMessage msg_type u now), cpu').

Definition parse_add_order (data : list byte) (msg_type : MessageType) (cpu : Tsc)
  : option ParsedMessage * Tsc :=
  let wire_msg := fst (AddOrderMessage.view data) in
  finish msg_type
    (add_order (AddOrderMessage.mk
      (parse_header (AddOrderMessage.header wire_msg))
      (ntoh64 (AddOrderMessage.order_reference_number wire_msg))
      (AddOrderMessage.buy_sell_indicator wire_msg)
      (ntoh32 (AddOrderMessage.shares wire_msg))
      (AddOrderMessage.stock wire_msg)
      (ntoh32 (AddOrderMessage.price wire_msg)))) cpu.

Definition parse_execute_order (data : list byte) (msg_type : MessageType) (cpu : Tsc)
  : option ParsedMessage * Tsc :=
  let wire_msg := fst (ExecuteOrderMessage.view data) in
  finish msg_type
    (execute_order (ExecuteOrderMessage.mk
      (parse_header (ExecuteOrderMessage.header wire_msg))
      (ntoh64 (ExecuteOrderMessage.order_reference_number wire_msg))
      (ntoh32 (ExecuteOrderMessage.executed_shares wire_msg))
      (ntoh64 (ExecuteOrderMessage.match_number wire_msg)))) cpu.

Definition parse_execute_with_price (data : list byte) (msg_type : MessageType)
  (cpu : Tsc) : option ParsedMessage * Tsc :=
  let wire_msg := fst (ExecuteOrderWithPriceMessage.view data) in
  finish msg_type
    (execute_with_price (ExecuteOrderWithPriceMessage.mk
      (parse_header (ExecuteOrderWithPriceMessage.header wire_msg))
      (ntoh64 (ExecuteOrderWithPriceMessage.order_reference_number wire_msg))
      (ntoh32 (ExecuteOrderWithPriceMessage.executed_shares wire_msg))
      (ntoh64 (ExecuteOrderWithPriceMessage.match_number wire_msg))
      (ExecuteOrderWithPriceMessage.printable wire_msg)
      (ntoh32 (ExecuteOrderWithPriceMessage.execution_price wire_msg)))) cpu.

Definition parse_order_cancel (data : list byte) (msg_type : MessageType) (cpu : Tsc)
  : option ParsedMessage * Tsc :=
  let wire_msg := fst (OrderCancelMessage.view data) in
  finish msg_type
    (order_cancel (OrderCancelMessage.mk
      (parse_header (OrderCancelMessage.header wire_msg))
      (ntoh64 (OrderCancelMessage.order_reference_number wire_msg))
      (ntoh32 (OrderCancelMessage.cancelled_shares wire_msg)))) cpu.

Definition parse_order_delete (data : list byte) (msg_type : MessageType) (cpu : Tsc)
  : option ParsedMessage * Tsc :=
  let wire_msg := fst (OrderDeleteMessage.view data) in
  finish msg_type
    (order_delete (OrderDeleteMessage.mk
      (parse_header (OrderDeleteMessage.header wire_msg))
      (ntoh64 (OrderDeleteMessage.order_reference_number wire_msg)))) cpu.

Definition parse_order_replace (data : list byte) (msg_type : MessageType) (cpu : Tsc)
  : option ParsedMessage * Tsc :=
  let wire_msg := fst (OrderReplaceMessage.view data) in
  finish msg_type
    (order_replace (OrderReplaceMessage.mk
      (parse_header (OrderReplaceMessage.header wire_msg))
      (ntoh64 (OrderReplaceMessage.original_order_reference_number wire_msg))
      (ntoh64 (OrderReplaceMessage.new_order_reference_number wire_msg))
      (ntoh32 (OrderReplaceMessage.shares wire_msg))
      (ntoh32 (OrderReplaceMessage.price wire_msg)))) cpu.

Definition parse_trade (data : list byte) (msg_type : MessageType) (cpu : Tsc)
  : option ParsedMessage * Tsc :=
  let wire_msg := fst (TradeMessage.view data) in
  finish msg_type
    (trade (TradeMessage.mk
      (parse_header (TradeMessage.header wire_msg))
      (ntoh64 (TradeMessage.order_reference_number wire_msg))
      (TradeMessage.buy_sell_indicator wire_msg)
      (ntoh32 (TradeMessage.shares wire_msg))
      (TradeMessage.stock wire_msg)
      (ntoh32 (TradeMessage.price wire_msg))
      (ntoh64 (TradeMessage.match_number wire_msg)))) cpu.

Definition parse_system_event (data : list byte) (msg_type : MessageType) (cpu : Tsc)
  : option ParsedMessage * Tsc :=
  let wire_msg := fst (SystemEventMessage.view data) in
  finish msg_type
    (system_event (SystemEventMessage.mk
      (parse_header (SystemEventMessage.header wire_msg))
      (SystemEventMessage.event_code wire_msg))) cpu.

Definition parse_stock_directory (data : list byte) (msg_type : MessageType) (cpu : Tsc)
  : option ParsedMessage * Tsc :=
  let wire_msg := fst (StockDirectoryMessage.view data) in
  finish msg_type
    (stock_directory (StockDirectoryMessage.mk
      (parse_header (StockDirectoryMessage.header wire_msg))
      (StockDirectoryMessage.stock wire_msg)
      (StockDirectoryMessage.market_category wire_msg)
      (StockDirectoryMessage.financial_status_indicator wire_msg)
      (ntoh32 (StockDirectoryMessage.round_lot_size wire_msg))
      (StockDirectoryMessage.round_lots_only wire_msg)
      (StockDirectoryMessage.issue_classification wire_msg)
      (StockDirectoryMessage.issue_sub_type wire_msg)
      (StockDirectoryMessage.authenticity wire_msg)
      (StockDirectoryMessage.short_sale_threshold_indicator wire_msg)
      (StockDirectoryMessage.ipo_flag wire_msg)
      (StockDirectoryMessage.luld_reference_price_tier wire_msg)
      (StockDirectoryMessage.etp_flag wire_msg)
      (ntoh32 (StockDirectoryMessage.etp_leverage_factor wire_msg))
      (StockDirectoryMessage.inverse_indicator wire_msg))) cpu.

(** ** ITCHParser::parse

    [data] is the memory readable at the pointer, [length] the length the
    caller passes. The result is the returned optional and the processor
    after the call. *)
Definition parse (data : list byte) (length : Z) (cpu : Tsc)
  : option ParsedMessage * Tsc :=
  if length <? ITCHMessageHeader.sizeof then (None, cpu)
  else
    let msg_type : MessageType := byte_at data 0 in
    if Byte.eqb msg_type MessageType.ADD_ORDER then
      if negb (length =? AddOrderMessage.sizeof) then (None, cpu)
      else parse_add_order data msg_type cpu
    else if Byte.eqb msg_type MessageType.EXECUTE_ORDER then
      if negb (length =? ExecuteOrderMessage.sizeof) then (None, cpu)
      else parse_execute_order data msg_type cpu
    else if Byte.eqb msg_type MessageType.EXECUTE_ORDER_WITH_PRICE then
      if length =? ExecuteOrderWithPriceMessage.sizeof
      then parse_execute_with_price data msg_type cpu
      else (None, cpu)
    else if Byte.eqb msg_type MessageType.ORDER_CANCEL then
      if length =? OrderCancelMessage.sizeof
      then parse_order_cancel data msg_type cpu
      else (None, cpu)
    else if Byte.eqb msg_type MessageType.ORDER_DELETE then
      if length =? OrderDeleteMessage.sizeof
      then parse_order_delete data msg_type cpu
      else (None, cpu)
    else if Byte.eqb msg_type MessageType.ORDER_REPLACE then
      if length =? OrderReplaceMessage.sizeof
      then parse_order_replace data msg_type cpu
      else (None, cpu)
    else if Byte.eqb msg_type MessageType.TRADE then
      if length =? TradeMessage.sizeof
      then parse_trade data msg_type cpu
      else (None, cpu)
    else if Byte.eqb msg_type MessageType.SYSTEM_EVENT then
      if length =? SystemEventMessage.sizeof
      then parse_system_event data msg_type cpu
      else (None, cpu)
    else if Byte.eqb msg_type MessageType.STOCK_DIRECTORY then
      if length =? StockDirectoryMessage.sizeof
      then parse_stock_directory data msg_type cpu
      else (None, cpu)
    else (None, cpu).

(** [std::optional::has_value] *)
Definition has_value {A} (o : option A) : bool :=
  match o with Some _ => true | None => false end.

(** The nine tags the parser dispatches on. *)
Definition handled_tags : list MessageType :=
  [ MessageType.ADD_ORDER; MessageType.EXECUTE_ORDER;
    MessageType.EXECUTE_ORDER_WITH_PRICE; MessageType.ORDER_CANCEL;
    MessageType.ORDER_DELETE; MessageType.ORDER_REPLACE; MessageType.TRADE;
    MessageType.SYSTEM_EVENT; MessageType.STOCK_DIRECTORY ].

Definition is_handled (ty : MessageType) : bool :=
  existsb (Byte.eqb ty) handled_tags.

(** [sizeof] of the variant a handled tag selects. *)
Definition sizeof_variant (ty : MessageType) : Z :=
  if Byte.eqb ty MessageType.ADD_ORDER then AddOrderMessage.sizeof
  else if Byte.eqb ty MessageType.EXECUTE_ORDER then ExecuteOrderMessage.sizeof
  else if Byte.eqb ty MessageType.EXECUTE_ORDER_WITH_PRICE then
    ExecuteOrderWithPriceMessage.sizeof
  else if Byte.eqb ty MessageType.ORDER_CANCEL then OrderCancelMessage.sizeof
  else if Byte.eqb ty MessageType.ORDER_DELETE then OrderDeleteMessage.sizeof
  else if Byte.eqb ty MessageType.ORDER_REPLACE then OrderReplaceMessage.sizeof
  else if Byte.eqb ty MessageType.TRADE then TradeMessage.sizeof
  else if Byte.eqb ty MessageType.SYSTEM_EVENT then SystemEventMessage.sizeof
  else if Byte.eqb ty MessageType.STOCK_DIRECTORY then StockDirectoryMessage.sizeof
  else 0.

(** The width table of section 3 of the specification, as the specification
    words it. *)
Definition spec_width (ty : MessageType) : Z :=
  if Byte.eqb ty "A" then 36
  else if Byte.eqb ty "E" then 31
  else if Byte.eqb ty "C" then 36
  else if Byte.eqb ty "X" then 23
  else if Byte.eqb ty "D" then 19
  else if Byte.eqb ty "U" then 35
  else if Byte.eqb ty "P" then 44
  else if Byte.eqb ty "S" then 12
  else if Byte.eqb ty "R" then 39
  else 0.

(* ===================================================================== *)
(** * mpmc_queue.hpp *)
(* ===================================================================== *)

(** [size_t] arithmetic wraps at 64 bits; [static_cast<intptr_t>] reads the
    same 64 bits as a two's-complement number. *)
Definition wrap64 (x : Z) : Z := x mod 2 ^ 64.
Definition to_intptr (x : Z) : Z := if x <? 2 ^ 63 then x else x - 2 ^ 64.

Module MPMCQueue.
Section Queue.
Context {T : Type}.
Variable Capacity : Z.

(** [static_assert((Capacity & (Capacity - 1)) == 0, ...)] *)
Definition static_assert_holds : bool :=
  Z.land Capacity (wrap64 (Capacity - 1)) =? 0.

Record t := mk {
  head_ : Z;               (* std::atomic<size_t> *)
  tail_ : Z;               (* std::atomic<size_t> *)
  buffer_ : list T;        (* T buffer_[Capacity] *)
  sequences_ : list Z      (* std::atomic<size_t> sequences_[Capacity] *)
}.

(** [for (size_t i = 0; i < Capacity; ++i) sequences_[i].value.store(i)]:
    the [n] stores from [i] on. *)
Fixpoint init_sequences (n : nat) (i : Z) : list Z :=
  match n with
  | O => []
  | S n' => i :: init_sequences n' (i + 1)
  end.

(** The constructor: [head_(0)], [tail_(0)], then the loop. The elements of
    [buffer_] are default-initialised; [mem i] stands for what slot [i]
    holds before the first write. *)
Definition new (mem : nat -> T) : t :=
  mk 0 0
     (map mem (seq 0 (Z.to_nat Capacity)))
     (init_sequences (Z.to_nat Capacity) 0).

(** [pos & (Capacity - 1)] *)
Definition index_of (pos : Z) : nat :=
  Z.to_nat (Z.land pos (wrap64 (Capacity - 1))).

Definition load_seq (q : t) (index : nat) : Z :=
  default 0 (sequences_ q !! index).

(** One thread runs the loop with no other thread between its steps, and
    [compare_exchange_weak] is the x86 [lock cmpxchg], which fails only when
    the values differ; on failure it stores the current value into [pos].
    [fuel] bounds the iterations of [for (;;)]: [None] stands for a call
    that has not returned after [fuel] iterations. *)
Fixpoint try_enqueue_loop (fuel : nat) (q : t) (pos : Z) (item : T)
  : option (bool * t) :=
  match fuel with
  | O => None
  | S fuel' =>
      let index := index_of pos in
      let seq := load_seq q index in
      let diff := to_intptr seq - to_intptr pos in
      if diff =? 0 then
        if head_ q =? pos then
          Some (true,
                mk (wrap64 (pos + 1)) (tail_ q)
                   (<[index := item]> (buffer_ q))
                   (<[index := wrap64 (pos + 1)]> (sequences_ q)))
        else try_enqueue_loop fuel' q (head_ q) item
      else if diff <? 0 then Some (false, q)
      else try_enqueue_loop fuel' q (head_ q) item
  end.

Definition try_enqueue (fuel : nat) (q : t) (item : T) : option (bool * t) :=
  try_enqueue_loop fuel q (head_ q) item.

(** [try_dequeue(T& item)]: the result carries the returned flag, the value
    of the reference argument after the call, and the queue. *)
Fixpoint try_dequeue_loop (fuel : nat) (q : t) (pos : Z) (item : T)
  : option (bool * T * t) :=
  match fuel with
  | O => None
  | S fuel' =>
      let index := index_of pos in
      let seq := load_seq q index in
      let diff := to_intptr seq - to_intptr (wrap64 (pos + 1)) in
      if diff =? 0 then
        if tail_ q =? pos then
          Some (true,
                default item (buffer_ q !! index),
                mk (head_ q) (wrap64 (pos + 1))
                   (buffer_ q)
                   (<[index := wrap64 (pos + Capacity)]> (sequences_ q)))
        else try_dequeue_loop fuel' q (tail_ q) item
      else if diff <? 0 then Some (false, item, q)
      else try_dequeue_loop fuel' q (tail_ q) item
  end.

Definition try_dequeue (fuel : nat) (q : t) (item : T) : option (bool * T * t) :=
  try_dequeue_loop fuel q (tail_ q) item.

Definition size (q : t) : Z := wrap64 (head_ q - tail_ q).
Definition empty (q : t) : bool := size q =? 0.

(** Sequential use: a run of enqueues, and a run of dequeues into the same
    variable, collecting what each call returned. *)
Fixpoint enqueue_all (fuel : nat) (q : t) (items : list T)
  : option (list bool * t) :=
  match items with
  | [] => Some ([], q)
  | x :: items' =>
      match try_enqueue fuel q x with
      | None => None
      | Some (b, q') =>
          match enqueue_all fuel q' items' with
          | None => None
          | Some (bs, q'') => Some (b :: bs, q'')
          end
      end
  end.

Fixpoint dequeue_n (fuel : nat) (q : t) (item : T) (n : nat)
  : option (list (bool * T) * t) :=
  match n with
  | O => Some ([], q)
  | S n' =>
      match try_dequeue fuel q item with
      | None => None
      | Some (b, item', q') =>
          match dequeue_n fuel q' item' n' with
          | None => None
          | Some (rs, q'') => Some ((b, item') :: rs, q'')
          end
      end
  end.

(** ** The abstract state

    [Represents q l]: the slots from [tail_] on hold the items of [l], oldest
    first, each with its sequence number one ahead of its position; the
    remaining slots carry the sequence number of the position that will
    next enqueue into them. *)
Record Represents (q : t) (l : list T) : Prop := {
  rep_buffer : Z.of_nat (length (buffer_ q)) = Capacity;
  rep_sequences : Z.of_nat (length (sequences_ q)) = Capacity;
  rep_tail : 0 <= tail_ q;
  rep_head : head_ q = tail_ q + Z.of_nat (length l);
  rep_room : Z.of_nat (length l) <= Capacity;
  rep_items : forall (k : nat) (x : T), l !! k = Some x ->
      sequences_ q !! index_of (tail_ q + Z.of_nat k) = Some (tail_ q + Z.of_nat k + 1)
      /\ buffer_ q !! index_of (tail_ q + Z.of_nat k) = Some x;
  rep_free : forall (k : nat), (length l <= k)%nat -> Z.of_nat k < Capacity ->
      sequences_ q !! index_of (tail_ q + Z.of_nat k) = Some (tail_ q + Z.of_nat k)
}.

(** Positions stay clear of the point where the cast to [intptr_t] changes
    sign. *)
Definition in_range (q : t) : Prop := tail_ q + 2 * Capacity < 2 ^ 63.

End Queue.
Arguments t : clear implicits.
End MPMCQueue.

(* ===================================================================== *)
(** * async_logger.hpp *)
(* ===================================================================== *)

(** ** Memory and the file

    A region of memory is a map from offsets to bytes. The file is its
    bytes, its size and the offset at which [write] appends. System calls
    are taken to succeed and [write] to transfer all it is given. *)

Definition Mem : Type := Z -> byte.

Definition memcpy (m : Mem) (dest : Z) (src : list byte) : Mem :=
  fun a =>
    if (dest <=? a) && (a <? dest + Z.of_nat (length src))
    then byte_at src (Z.to_nat (a - dest))
    else m a.

Definition mem_read (m : Mem) (off : Z) (n : nat) : list byte :=
  map (fun i => m (off + Z.of_nat i)) (seq 0 n).

Record File := mkFile {
  file_data : Mem;
  file_size : Z;
  file_pos : Z
}.

Definition file_contents (f : File) : list byte :=
  mem_read (file_data f) 0 (Z.to_nat (file_size f)).

(** [open(..., O_WRONLY | O_CREAT | O_TRUNC, 0644)] *)
Definition sys_open : File := mkFile (fun _ => Byte.x00) 0 0.

(** [ftruncate(fd, n)]: bytes past the new size are dropped, bytes gained
    read as zero. *)
Definition sys_ftruncate (f : File) (n : Z) : File :=
  mkFile (fun a => if a <? Z.min n (file_size f) then file_data f a else Byte.x00)
         n (file_pos f).

(** [write(fd, buf, n)]: the result is the file and the returned count. *)
Definition sys_write (f : File) (buf : Mem) (n : Z) : File * Z :=
  (mkFile (memcpy (file_data f) (file_pos f) (mem_read buf 0 (Z.to_nat n)))
          (Z.max (file_size f) (file_pos f + n))
          (file_pos f + n),
   n).

Module AsyncLogger.

Definition QUEUE_SIZE : Z := 1024 * 1024.
Definition BUFFER_SIZE : Z := 4096 * 1024.
Definition ALIGNMENT : Z := 4096.

Inductive WriteMode := MMAP | DIRECT | BUFFERED.

(** The members; with [MAP_SHARED] the mapped region is the file's own
    bytes, so a store through [mmap_ptr_] is a store into [file_data]. *)
Record t := mk {
  queue_ : MPMCQueue.t ParsedMessage;
  write_mode_ : WriteMode;
  running_ : bool;
  file_ : File;               (* what fd_ refers to *)
  mmap_size_ : Z;
  write_buffer_ : Mem;
  buffer_offset_ : Z;
  total_written_ : Z
}.

Definition set_queue (q : MPMCQueue.t ParsedMessage) (st : t) : t :=
  mk q (write_mode_ st) (running_ st) (file_ st) (mmap_size_ st)
     (write_buffer_ st) (buffer_offset_ st) (total_written_ st).
Definition set_running (b : bool) (st : t) : t :=
  mk (queue_ st) (write_mode_ st) b (file_ st) (mmap_size_ st)
     (write_buffer_ st) (buffer_offset_ st) (total_written_ st).
Definition set_file (f : File) (st : t) : t :=
  mk (queue_ st) (write_mode_ st) (running_ st) f (mmap_size_ st)
     (write_buffer_ st) (buffer_offset_ st) (total_written_ st).
Definition set_mmap_size (n : Z) (st : t) : t :=
  mk (queue_ st) (write_mode_ st) (running_ st) (file_ st) n
     (write_buffer_ st) (buffer_offset_ st) (total_written_ st).
Definition set_write_buffer (m : Mem) (st : t) : t :=
  mk (queue_ st) (write_mode_ st) (running_ st) (file_ st) (mmap_size_ st)
     m (buffer_offset_ st) (total_written_ st).
Definition set_buffer_offset (n : Z) (st : t) : t :=
  mk (queue_ st) (write_mode_ st) (running_ st) (file_ st) (mmap_size_ st)
     (write_buffer_ st) n (total_written_ st).
Definition set_total_written (n : Z) (st : t) : t :=
  mk (queue_ st) (write_mode_ st) (running_ st) (file_ st) (mmap_size_ st)
     (write_buffer_ st) (buffer_offset_ st) n.

(** The constructor. [qmem] and [bufmem] stand for what the queue's slots
    and the [posix_memalign] block hold before they are written. *)
Definition new (mode : WriteMode) (qmem : nat -> ParsedMessage) (bufmem : Mem) : t :=
  mk (MPMCQueue.new QUEUE_SIZE qmem) mode false sys_open 0 bufmem 0 0.

Definition open_file (st : t) : t :=
  let st := set_file sys_open st in
  match write_mode_ st with
  | MMAP =>
      let initial_size := 1024 * 1024 * 1024 in
      let st := set_file (sys_ftruncate (file_ st) initial_size) st in
      set_mmap_size initial_size st
  | _ => st
  end.

Definition close_file (st : t) : t :=
  match write_mode_ st with
  | MMAP => set_file (sys_ftruncate (file_ st) (total_written_ st)) st
  | _ => st
  end.

Definition flush (st : t) : t :=
  if buffer_offset_ st =? 0 then st
  else
    match write_mode_ st with
    | MMAP => set_buffer_offset 0 st
    | mode =>
        let bytes_to_write := buffer_offset_ st in
        let bytes_to_write :=
          match mode with
          | DIRECT =>
              Z.land (wrap64 (bytes_to_write + ALIGNMENT - 1))
                     (wrap64 (Z.lnot (ALIGNMENT - 1)))
          | _ => bytes_to_write
          end in
        let '(f, written) := sys_write (file_ st) (write_buffer_ st) bytes_to_write in
        let st := set_file f st in
        let st :=
          if written >? 0
          then set_total_written (wrap64 (total_written_ st + buffer_offset_ st)) st
          else st in
        set_buffer_offset 0 st
    end.

Definition expand_mmap (st : t) : t :=
  let new_size := wrap64 (mmap_size_ st * 2) in
  let st := set_file (sys_ftruncate (file_ st) new_size) st in
  set_mmap_size new_size st.

Definition get_message_size (msg : ParsedMessage) : Z :=
  let ty := type msg in
  if Byte.eqb ty MessageType.ADD_ORDER then AddOrderMessage.sizeof
  else if Byte.eqb ty MessageType.EXECUTE_ORDER then ExecuteOrderMessage.sizeof
  else if Byte.eqb ty MessageType.EXECUTE_ORDER_WITH_PRICE then
    ExecuteOrderWithPriceMessage.sizeof
  else if Byte.eqb ty MessageType.ORDER_CANCEL then OrderCancelMessage.sizeof
  else if Byte.eqb ty MessageType.ORDER_DELETE then OrderDeleteMessage.sizeof
  else if Byte.eqb ty MessageType.ORDER_REPLACE then OrderReplaceMessage.sizeof
  else if Byte.eqb ty MessageType.TRADE then TradeMessage.sizeof
  else if Byte.eqb ty MessageType.SYSTEM_EVENT then SystemEventMessage.sizeof
  else if Byte.eqb ty MessageType.STOCK_DIRECTORY then StockDirectoryMessage.sizeof
  else 0.

(** [std::memcpy(dest, &msg.<member>, sizeof(<Member>))]: the leading bytes
    of the union's storage. *)
Definition copy_member (m : Mem) (dest : Z) (msg : ParsedMessage) (n : Z) : Mem :=
  memcpy m dest (take (Z.to_nat n) (union_bytes (payload msg))).

(** The switch has no [default]: an unlisted type copies nothing. *)
Definition serialize_message (m : Mem) (dest : Z) (msg : ParsedMessage) : Mem :=
  let ty := type msg in
  if Byte.eqb ty MessageType.ADD_ORDER then
    copy_member m dest msg AddOrderMessage.sizeof
  else if Byte.eqb ty MessageType.EXECUTE_ORDER then
    copy_member m dest msg ExecuteOrderMessage.sizeof
  else if Byte.eqb ty MessageType.EXECUTE_ORDER_WITH_PRICE then
    copy_member m dest msg ExecuteOrderWithPriceMessage.sizeof
  else if Byte.eqb ty MessageType.ORDER_CANCEL then
    copy_member m dest msg OrderCancelMessage.sizeof
  else if Byte.eqb ty MessageType.ORDER_DELETE then
    copy_member m dest msg OrderDeleteMessage.sizeof
  else if Byte.eqb ty MessageType.ORDER_REPLACE then
    copy_member m dest msg OrderReplaceMessage.sizeof
  else if Byte.eqb ty MessageType.TRADE then copy_member m dest msg TradeMessage.sizeof
  else if Byte.eqb ty MessageType.SYSTEM_EVENT then
    copy_member m dest msg SystemEventMessage.sizeof
  else if Byte.eqb ty MessageType.STOCK_DIRECTORY then
    copy_member m dest msg StockDirectoryMessage.sizeof
  else m.

Definition write_message (st : t) (msg : ParsedMessage) : t :=
  let msg_size := get_message_size msg in
  match write_mode_ st with
  | MMAP =>
      let st :=
        if wrap64 (total_written_ st + msg_size) >? mmap_size_ st
        then expand_mmap st else st in
      let f := file_ st in
      let st :=
        set_file (mkFile (serialize_message (file_data f) (total_written_ st) msg)
                         (file_size f) (file_pos f)) st in
      set_total_written (wrap64 (total_written_ st + msg_size)) st
  | _ =>
      let st :=
        if wrap64 (buffer_offset_ st + msg_size) >? BUFFER_SIZE
        then flush st else st in
      let st :=
        set_write_buffer
          (serialize_message (write_buffer_ st) (buffer_offset_ st) msg) st in
      set_buffer_offset (wrap64 (buffer_offset_ st + msg_size)) st
  end.

(** [log]: the returned flag and the logger. *)
Definition log (fuel : nat) (st : t) (msg : ParsedMessage) : option (bool * t) :=
  match MPMCQueue.try_enqueue QUEUE_SIZE fuel (queue_ st) msg with
  | None => None
  | Some (b, q) => Some (b, set_queue q st)
  end.

Definition get_total_written (st : t) : Z := total_written_ st.
Definition get_queue_size (st : t) : Z := MPMCQueue.size (queue_ st).

(** ** The worker thread

    The worker is interleaved with the producers at the granularity of
    whole queue operations, which is what the acquire/release protocol on
    the sequence numbers provides to one producer and one consumer. Its
    state is the logger and its local variable [msg]. *)

(** One pass through the body of [while (running_)]. *)
Definition worker_iteration (fuel : nat) (st : t) (msg : ParsedMessage)
  : option (t * ParsedMessage) :=
  match MPMCQueue.try_dequeue QUEUE_SIZE fuel (queue_ st) msg with
  | None => None
  | Some (true, msg', q) => Some (write_message (set_queue q st) msg', msg')
  | Some (false, msg', q) => Some (flush (set_queue q st), msg')
  end.

(** [while (queue_.try_dequeue(msg)) write_message(msg);] *)
Fixpoint drain (fuel : nat) (st : t) (msg : ParsedMessage)
  : option (t * ParsedMessage) :=
  match fuel with
  | O => None
  | S fuel' =>
      match MPMCQueue.try_dequeue QUEUE_SIZE fuel (queue_ st) msg with
      | None => None
      | Some (true, msg', q) => drain fuel' (write_message (set_queue q st) msg') msg'
      | Some (false, msg', q) => Some (set_queue q st, msg')
      end
  end.

Definition start (st : t) : t :=
  if running_ st then st
  else set_running true (open_file st).

(** [stop]: clear the flag, join the worker (which leaves its loop and
    drains), flush, close. *)
Definition stop (fuel : nat) (st : t) (msg : ParsedMessage) : option t :=
  if negb (running_ st) then Some st
  else
    match drain fuel (set_running false st) msg with
    | None => None
    | Some (st, _) => Some (close_file (flush st))
    end.

(** A run of the program between [start] and [stop]: producer calls to
    [log] interleaved with passes of the worker. *)
Inductive event :=
| Log (msg : ParsedMessage)
| Worker.

Fixpoint run (fuel : nat) (evs : list event) (st : t) (msg : ParsedMessage)
  : option (list bool * t * ParsedMessage) :=
  match evs with
  | [] => Some ([], st, msg)
  | Log m :: evs' =>
      match log fuel st m with
      | None => None
      | Some (b, st') =>
          match run fuel evs' st' msg with
          | None => None
          | Some (bs, st'', msg') => Some (b :: bs, st'', msg')
          end
      end
  | Worker :: evs' =>
      match worker_iteration fuel st msg with
      | None => None
      | Some (st', msg') => run fuel evs' st' msg'
      end
  end.

(** The whole scenario: construct, [start], run the schedule, [stop]. *)
Definition session (fuel : nat) (mode : WriteMode) (qmem : nat -> ParsedMessage)
  (bufmem : Mem) (msg0 : ParsedMessage) (evs : list event) : option (list bool * t) :=
  match run fuel evs (start (new mode qmem bufmem)) msg0 with
  | None => None
  | Some (bs, st, msg) =>
      match stop fuel st msg with
      | None => None
      | Some st' => Some (bs, st')
      end
  end.

(** The bytes [serialize_message] stores for a record. *)
Definition image (msg : ParsedMessage) : list byte :=
  take (Z.to_nat (get_message_size msg)) (union_bytes (payload msg)).

End AsyncLogger.

(** ** Scenarios *)

(** The records a schedule logs, in order. *)
Fixpoint logged (evs : list AsyncLogger.event) : list ParsedMessage :=
  match evs with
  | [] => []
  | AsyncLogger.Log m :: evs' => m :: logged evs'
  | AsyncLogger.Worker :: evs' => logged evs'
  end.

(** A schedule that logs [msgs] in order with [gap i] passes of the worker
    after the [i]-th call and [lead] passes before the first. *)
Fixpoint interleave (gap : nat -> nat) (i : nat) (msgs : list ParsedMessage)
  : list AsyncLogger.event :=
  match msgs with
  | [] => []
  | m :: msgs' =>
      AsyncLogger.Log m :: repeat AsyncLogger.Worker (gap i)
        ++ interleave gap (S i) msgs'
  end.

Definition schedule (lead : nat) (gap : nat -> nat) (msgs : list ParsedMessage)
  : list AsyncLogger.event :=
  repeat AsyncLogger.Worker lead ++ interleave gap 0 msgs.

(** The caller's loop of the demo: decode each frame with its own length and
    keep what the parser returns. *)
Fixpoint decode_frames (frames : list (list byte)) (cpu : Tsc) : list ParsedMessage :=
  match frames with
  | [] => []
  | f :: frames' =>
      match parse f (Z.of_nat (length f)) cpu with
      | (Some m, cpu') => m :: decode_frames frames' cpu'
      | (None, cpu') => decode_frames frames' cpu'
      end
  end.

(** A frame of a given tag and width whose remaining bytes are taken from
    [body] (zero where [body] is short). *)
Definition frame (tag : byte) (width : Z) (body : list byte) : list byte :=
  tag :: fetch (Z.to_nat width - 1) body.

(** Frame [i] of a stream alternating AddOrder and Trade at the widths the
    parser accepts, carrying [body i]. *)
Definition alternating_frame (body : nat -> list byte) (i : nat) : list byte :=
  if Nat.even i
  then frame MessageType.ADD_ORDER AddOrderMessage.sizeof (body i)
  else frame MessageType.TRADE TradeMessage.sizeof (body i).

Definition alternating_frames (body : nat -> list byte) (n : nat) : list (list byte) :=
  map (alternating_frame body) (seq 0 n).

(** The tags of such a stream. *)
Definition alternating_tags (n : nat) : list MessageType :=
  map (fun i => if Nat.even i then MessageType.ADD_ORDER else MessageType.TRADE)
      (seq 0 n).

(** A reader of the file: the first byte of a record is its tag, the tag
    gives the width by which to advance. [n] bounds the number of records. *)
Fixpoint read_tags (n : nat) (bs : list byte) : list byte :=
  match n with
  | O => []
  | S n' =>
      match bs with
      | [] => []
      | tag :: _ => tag :: read_tags n' (drop (Z.to_nat (sizeof_variant tag)) bs)
      end
  end.

(** ** The frame of the test [parser_add_order]

    Built as the test builds it: the members of an [AddOrderMessage] stored
    through a reinterpreted pointer, the integers passed through [hton]. *)
Definition test_add_order_frame : list byte :=
  AddOrderMessage.bytes
    (AddOrderMessage.mk
       (ITCHMessageHeader.mk MessageType.ADD_ORDER (hton16 123) (hton16 456)
                             (hton64 1234567890))
       (hton64 999999) "B"%byte (hton32 100)
       (list_to_vec ["A"; "A"; "P"; "L"; " "; " "; " "; " "]%byte)
       (hton32 1500000)).

(** What the test expects the parser to return. *)
Definition test_add_order_expected : AddOrderMessage.t :=
  AddOrderMessage.mk
    (ITCHMessageHeader.mk "A"%byte 123 456 1234567890)
    999999 "B"%byte 100
    (list_to_vec ["A"; "A"; "P"; "L"; " "; " "; " "; " "]%byte)
    1500000.

(** ** Invariants of the logger's sink *)

(** The bounds the writer maintains on its counters. *)
Definition sink_ok (st : AsyncLogger.t) : Prop :=
  0 <= AsyncLogger.buffer_offset_ st <= AsyncLogger.BUFFER_SIZE
  /\ 0 <= AsyncLogger.total_written_ st < 2 ^ 64
  /\ (AsyncLogger.write_mode_ st = AsyncLogger.MMAP ->
      AsyncLogger.total_written_ st <= AsyncLogger.mmap_size_ st).

(** The bytes the writer has emitted so far, in order: those in the file
    followed by those waiting in the buffer. *)
Definition emitted (st : AsyncLogger.t) : list byte :=
  file_contents (AsyncLogger.file_ st)
  ++ mem_read (AsyncLogger.write_buffer_ st) 0
              (Z.to_nat (AsyncLogger.buffer_offset_ st)).

(** What the writer maintains in [BUFFERED] mode: the buffer is not
    overfull and the file is written at its end. *)
Definition buffered_ok (st : AsyncLogger.t) : Prop :=
  AsyncLogger.write_mode_ st = AsyncLogger.BUFFERED
  /\ 0 <= AsyncLogger.buffer_offset_ st <= AsyncLogger.BUFFER_SIZE
  /\ file_pos (AsyncLogger.file_ st) = file_size (AsyncLogger.file_ st)
  /\ 0 <= file_size (AsyncLogger.file_ st).

(** The state of a [BUFFERED] run between [start] and [stop]: the records
    in [done] have been written, those in [pending] are in the queue. *)
Record SysInv (st : AsyncLogger.t) (done pending : list ParsedMessage) : Prop := {
  inv_queue :
    MPMCQueue.Represents AsyncLogger.QUEUE_SIZE (AsyncLogger.queue_ st) pending;
  inv_tail : MPMCQueue.tail_ (AsyncLogger.queue_ st) = Z.of_nat (length done);
  inv_sink : buffered_ok st;
  inv_emitted : emitted st = concat (map AsyncLogger.image done)
}.

(** A record whose type is none of the handled ones. *)
Definition unhandled_record : ParsedMessage :=
  mkParsedMessage "Z"%byte
    (system_event (SystemEventMessage.mk (ITCHMessageHeader.mk "Z"%byte 0 0 0) "O"%byte))
    0.

(* ===================================================================== *)
(** * Further definitions: clients of the parser, queue and logger *)
(* ===================================================================== *)

(** ** The variant and header a union value carries *)

Definition union_tag (u : MessageUnion) : MessageType :=
  match u with
  | add_order _ => MessageType.ADD_ORDER
  | execute_order _ => MessageType.EXECUTE_ORDER
  | execute_with_price _ => MessageType.EXECUTE_ORDER_WITH_PRICE
  | order_cancel _ => MessageType.ORDER_CANCEL
  | order_delete _ => MessageType.ORDER_DELETE
  | order_replace _ => MessageType.ORDER_REPLACE
  | trade _ => MessageType.TRADE
  | system_event _ => MessageType.SYSTEM_EVENT
  | stock_directory _ => MessageType.STOCK_DIRECTORY
  end.

Definition union_header (u : MessageUnion) : ITCHMessageHeader.t :=
  match u with
  | add_order m => AddOrderMessage.header m
  | execute_order m => ExecuteOrderMessage.header m
  | execute_with_price m => ExecuteOrderWithPriceMessage.header m
  | order_cancel m => OrderCancelMessage.header m
  | order_delete m => OrderDeleteMessage.header m
  | order_replace m => OrderReplaceMessage.header m
  | trade m => TradeMessage.header m
  | system_event m => SystemEventMessage.header m
  | stock_directory m => StockDirectoryMessage.header m
  end.

(** A reader that consumes exactly [n] bytes and whose value depends on
    those bytes only. *)
Definition reads_exactly {A} (n : nat) (r : Reader A) : Prop :=
  forall bs,
    snd (r bs) = drop n bs
    /\ forall bs', fetch n bs = fetch n bs' -> fst (r bs) = fst (r bs').

(** The values of a [bits]-wide unsigned integer type. *)
Definition is_uint (bits : Z) (x : Z) : Prop := 0 <= x < 2 ^ bits.

Definition header_in_range (h : ITCHMessageHeader.t) : Prop :=
  is_uint 16 (ITCHMessageHeader.stock_locate h)
  /\ is_uint 16 (ITCHMessageHeader.tracking_number h)
  /\ is_uint 64 (ITCHMessageHeader.timestamp h).

(** ** src/demo.cpp and src/benchmark.cpp: the message generators *)

(** [padded_symbol.resize(8, ' ')] followed by [memcpy] of 8 characters:
    a longer symbol is cut, a shorter one is filled with spaces. *)
Definition padded_symbol (symbol : list byte) : vec byte 8 :=
  fun_to_vec (fun i : fin 8 => nth (fin_to_nat i) symbol space).

Module SystemUtils.
(** [SystemUtils::rdtsc]: the instruction, and the two halves combined. *)
Definition rdtsc (cpu : Tsc) : Z * Tsc :=
  let '((lo, hi), cpu') := rdtsc cpu in
  (Z.lor (Z.shiftl hi 32) lo, cpu').

(** [SystemUtils::rdtscp]: a reading of the same counter. *)
Definition rdtscp (cpu : Tsc) : Z * Tsc := rdtsc cpu.
End SystemUtils.

(** [DemoMessageGenerator]. [seq_] is a [uint32_t]; [hton16(seq_++)]
    converts the old value to [uint16_t]; [100000 + seq_] is computed in
    [uint32_t] with the incremented value. [now] is what
    [get_itch_timestamp] returns. The vector returned has the size of the
    struct and every byte of it is assigned. *)
Module DemoMessageGenerator.
Record t := mk { seq_ : Z }.

Definition create_add_order (g : t) (now : Z) (symbol : list byte) (side : byte)
  (shares price_cents : Z) : list byte * t :=
  let tracking := seq_ g mod 2 ^ 16 in
  let g' := mk ((seq_ g + 1) mod 2 ^ 32) in
  let order :=
    AddOrderMessage.mk
      (ITCHMessageHeader.mk MessageType.ADD_ORDER (hton16 1) (hton16 tracking)
         (hton64 now))
      (hton64 ((100000 + seq_ g') mod 2 ^ 32))
      side
      (hton32 shares)
      (padded_symbol symbol)
      (hton32 price_cents) in
  (AddOrderMessage.bytes order, g').

Definition create_trade (g : t) (now : Z) (symbol : list byte) (side : byte)
  (shares price_cents : Z) : list byte * t :=
  let tracking := seq_ g mod 2 ^ 16 in
  let g' := mk ((seq_ g + 1) mod 2 ^ 32) in
  let trade :=
    TradeMessage.mk
      (ITCHMessageHeader.mk MessageType.TRADE (hton16 1) (hton16 tracking)
         (hton64 now))
      (hton64 ((100000 + seq_ g') mod 2 ^ 32))
      side
      (hton32 shares)
      (padded_symbol symbol)
      (hton32 price_cents)
      (hton64 ((500000 + seq_ g') mod 2 ^ 32)) in
  (TradeMessage.bytes trade, g').
End DemoMessageGenerator.

(** [MessageGenerator] of the benchmark: the header timestamp is a reading
    of the time-stamp counter. *)
Module MessageGenerator.
Record t := mk { counter_ : Z }.

(** ["AAPL    "] *)
Definition AAPL : vec byte 8 :=
  [# "A"; "A"; "P"; "L"; " "; " "; " "; " "]%byte.

Definition generate_add_order (g : t) (cpu : Tsc) : list byte * t * Tsc :=
  let tracking := counter_ g mod 2 ^ 16 in
  let g' := mk ((counter_ g + 1) mod 2 ^ 32) in
  let '(now, cpu') := SystemUtils.rdtsc cpu in
  let add_order :=
    AddOrderMessage.mk
      (ITCHMessageHeader.mk MessageType.ADD_ORDER (hton16 1) (hton16 tracking)
         (hton64 now))
      (hton64 ((1000000 + counter_ g') mod 2 ^ 32))
      "B"%byte
      (hton32 100)
      AAPL
      (hton32 1500000) in
  (AddOrderMessage.bytes add_order, g', cpu').

Definition generate_execute_order (g : t) (cpu : Tsc) : list byte * t * Tsc :=
  let tracking := counter_ g mod 2 ^ 16 in
  let g' := mk ((counter_ g + 1) mod 2 ^ 32) in
  let '(now, cpu') := SystemUtils.rdtsc cpu in
  let exec :=
    ExecuteOrderMessage.mk
      (ITCHMessageHeader.mk MessageType.EXECUTE_ORDER (hton16 1) (hton16 tracking)
         (hton64 now))
      (hton64 ((1000000 + counter_ g') mod 2 ^ 32))
      (hton32 50)
      (hton64 ((5000000 + counter_ g') mod 2 ^ 32)) in
  (ExecuteOrderMessage.bytes exec, g', cpu').
End MessageGenerator.

(** ** The loops of the benchmark and the demo *)

(** The pre-generation loop of the benchmarks: message [i] is an AddOrder
    when [i] is even, an ExecuteOrder otherwise. *)
Fixpoint pregenerate (n i : nat) (gen : MessageGenerator.t) (cpu : Tsc)
  : list (list byte) * MessageGenerator.t * Tsc :=
  match n with
  | O => ([], gen, cpu)
  | S n' =>
      let '(msg, gen', cpu') :=
        if Nat.even i then MessageGenerator.generate_add_order gen cpu
        else MessageGenerator.generate_execute_order gen cpu in
      let '(msgs, gen'', cpu'') := pregenerate n' (S i) gen' cpu' in
      (msg :: msgs, gen'', cpu'')
  end.

(** The size of frame [i] of that loop. *)
Definition frame_size (i : nat) : Z := if Nat.even i then 38 else 33.

(** The members of [Stats] the timed loop updates. *)
Record Stats := mkStats {
  latencies : list Z;       (* std::vector<uint64_t> *)
  total_messages : Z;       (* uint64_t *)
  total_bytes : Z           (* uint64_t *)
}.

(** The timed loop of [benchmark_parser_only]: two readings of the counter
    around each call of [parse]; a message is counted when [parse] returned
    a value. *)
Fixpoint parse_loop (messages : list (list byte)) (stats : Stats) (cpu : Tsc)
  : Stats * Tsc :=
  match messages with
  | [] => (stats, cpu)
  | msg :: messages' =>
      let '(parse_start, cpu1) := SystemUtils.rdtscp cpu in
      let '(parsed, cpu2) := parse msg (Z.of_nat (length msg)) cpu1 in
      let '(parse_end, cpu3) := SystemUtils.rdtscp cpu2 in
      let stats' :=
        if has_value parsed
        then mkStats (latencies stats ++ [wrap64 (parse_end - parse_start)])
                     (wrap64 (total_messages stats + 1))
                     (wrap64 (total_bytes stats + Z.of_nat (length msg)))
        else stats in
      parse_loop messages' stats' cpu3
  end.

(** The loop of [demo_async_logging]: the records handed to [log], in
    order. [now i] is what [get_itch_timestamp] returns for message [i]. *)
Fixpoint demo_async_records (n i : nat) (gen : DemoMessageGenerator.t)
  (now : nat -> Z) (cpu : Tsc) : list ParsedMessage :=
  match n with
  | O => []
  | S n' =>
      let '(msg, gen') :=
        if Nat.even i
        then DemoMessageGenerator.create_add_order gen (now i)
               ["T"; "S"; "L"; "A"]%byte "B"%byte
               (100 + Z.of_nat i) (2500000 + Z.of_nat i * 100)
        else DemoMessageGenerator.create_trade gen (now i)
               ["N"; "V"; "D"; "A"]%byte "S"%byte
               (50 + Z.of_nat i) (5000000 + Z.of_nat i * 100) in
      match parse msg (Z.of_nat (length msg)) cpu with
      | (Some parsed, cpu') => parsed :: demo_async_records n' (S i) gen' now cpu'
      | (None, cpu') => demo_async_records n' (S i) gen' now cpu'
      end
  end.

(** ** One thread using the queue

    Any sequence of calls, the dequeues into one variable, with what each
    call returned. *)
Inductive op (T : Type) :=
| Enq (x : T)
| Deq.
Arguments Enq {T} x.
Arguments Deq {T}.

Inductive ret (T : Type) :=
| EnqRet (ok : bool)
| DeqRet (ok : bool) (item : T).
Arguments EnqRet {T} ok.
Arguments DeqRet {T} ok item.

Fixpoint run_ops {T} (Capacity : Z) (fuel : nat) (q : MPMCQueue.t T) (item : T)
  (ops : list (op T)) : option (list (ret T) * MPMCQueue.t T) :=
  match ops with
  | [] => Some ([], q)
  | Enq x :: ops' =>
      match MPMCQueue.try_enqueue Capacity fuel q x with
      | None => None
      | Some (b, q') =>
          match run_ops Capacity fuel q' item ops' with
          | None => None
          | Some (rs, q'') => Some (EnqRet b :: rs, q'')
          end
      end
  | Deq :: ops' =>
      match MPMCQueue.try_dequeue Capacity fuel q item with
      | None => None
      | Some (b, item', q') =>
          match run_ops Capacity fuel q' item' ops' with
          | None => None
          | Some (rs, q'') => Some (DeqRet b item' :: rs, q'')
          end
      end
  end.

(** The bounded first-in first-out buffer of [cap] places, run on the same
    calls: the returned flags and values, and the final content. *)
Fixpoint fifo {T} (cap : nat) (l : list T) (item : T) (ops : list (op T))
  : list (ret T) * list T :=
  match ops with
  | [] => ([], l)
  | Enq x :: ops' =>
      if (length l <? cap)%nat
      then let '(rs, l') := fifo cap (l ++ [x]) item ops' in (EnqRet true :: rs, l')
      else let '(rs, l') := fifo cap l item ops' in (EnqRet false :: rs, l')
  | Deq :: ops' =>
      match l with
      | x :: l0 => let '(rs, l') := fifo cap l0 x ops' in (DeqRet true x :: rs, l')
      | [] => let '(rs, l') := fifo cap [] item ops' in (DeqRet false item :: rs, l')
      end
  end.

(** ** Invariants of a run of the logger, in each write mode *)

(** The state of a run between [start] and [stop]: the records in [done]
    have been handed to [write_message], those in [pending] are in the
    queue, and the sink satisfies [I]. *)
Record RunInv (I : AsyncLogger.t -> list ParsedMessage -> Prop)
  (st : AsyncLogger.t) (done pending : list ParsedMessage) : Prop := {
  ri_queue :
    MPMCQueue.Represents AsyncLogger.QUEUE_SIZE (AsyncLogger.queue_ st) pending;
  ri_tail : MPMCQueue.tail_ (AsyncLogger.queue_ st) = Z.of_nat (length done);
  ri_sink : I st done
}.

(** [BUFFERED]: [buffered_ok], what has been emitted, and the byte counter,
    which counts the bytes that reached the file. *)
Definition buffered_inv (st : AsyncLogger.t) (done : list ParsedMessage) : Prop :=
  buffered_ok st
  /\ emitted st = concat (map AsyncLogger.image done)
  /\ AsyncLogger.total_written_ st = file_size (AsyncLogger.file_ st)
  /\ Z.of_nat (length done) <= AsyncLogger.QUEUE_SIZE.


(** A block of a [DIRECT] file: the images of the records of one [flush],
    then the padding up to the multiple of [ALIGNMENT]. *)
Definition block_bytes (b : list ParsedMessage * list byte) : list byte :=
  concat (map AsyncLogger.image (fst b)) ++ snd b.

Definition block_ok (b : list ParsedMessage * list byte) : Prop :=
  Z.of_nat (length (block_bytes b)) mod AsyncLogger.ALIGNMENT = 0
  /\ Z.of_nat (length (snd b)) < AsyncLogger.ALIGNMENT
  /\ 0 < Z.of_nat (length (concat (map AsyncLogger.image (fst b)))).

(** [DIRECT]: the file is a sequence of blocks, the buffer holds the images
    of the records since the last [flush], and [total_written_] counts the
    images in the file. *)
Definition direct_inv (st : AsyncLogger.t) (done : list ParsedMessage) : Prop :=
  AsyncLogger.write_mode_ st = AsyncLogger.DIRECT
  /\ 0 <= AsyncLogger.buffer_offset_ st <= AsyncLogger.BUFFER_SIZE
  /\ file_pos (AsyncLogger.file_ st) = file_size (AsyncLogger.file_ st)
  /\ 0 <= file_size (AsyncLogger.file_ st)
  /\ Z.of_nat (length done) <= AsyncLogger.QUEUE_SIZE
  /\ exists blocks cur,
       done = concat (map fst blocks) ++ cur
       /\ file_contents (AsyncLogger.file_ st) = concat (map block_bytes blocks)
       /\ mem_read (AsyncLogger.write_buffer_ st) 0
                   (Z.to_nat (AsyncLogger.buffer_offset_ st))
          = concat (map AsyncLogger.image cur)
       /\ AsyncLogger.total_written_ st
          = Z.of_nat (length (concat (map AsyncLogger.image
                                          (concat (map fst blocks)))))
       /\ Forall block_ok blocks.

(** ** A producer and a consumer, atomic operation by atomic operation

    Each thread is at one of the atomic operations of its call; a step of
    the system is one such operation of one thread, and the operations of
    the two threads interleave in any order. The atomics are taken as
    sequentially consistent. *)

(** Where the producer is in [try_enqueue(item)]. *)
Inductive producer_pc (T : Type) :=
| PIdle                                   (* between two calls *)
| PLoadSeq (item : T) (pos : Z)           (* next: seq = sequences_[index].load() *)
| PDecide (item : T) (pos : Z) (seq : Z)  (* next: the branch on diff and the CAS *)
| PWrite (item : T) (pos : Z)             (* next: buffer_[index] = item *)
| PPublish (item : T) (pos : Z).          (* next: sequences_[index].store(pos + 1) *)
Arguments PIdle {T}.
Arguments PLoadSeq {T} item pos.
Arguments PDecide {T} item pos seq.
Arguments PWrite {T} item pos.
Arguments PPublish {T} item pos.

(** Where the consumer is in [try_dequeue(item)]. *)
Inductive consumer_pc :=
| CIdle
| CLoadSeq (pos : Z)
| CDecide (pos : Z) (seq : Z)
| CRead (pos : Z)                         (* next: item = buffer_[index] *)
| CRelease (pos : Z).                     (* next: sequences_[index].store(pos + Capacity) *)

Record sys (T : Type) := mkSys {
  sq : MPMCQueue.t T;           (* the queue *)
  ppc : producer_pc T;
  todo : list T;                (* the items the producer still has to offer *)
  presults : list bool;         (* what its calls returned, in order *)
  cpc : consumer_pc;
  cvar : T;                     (* the variable the consumer dequeues into *)
  cresults : list (option T);   (* what its calls returned: the value on true *)
  spins : nat                   (* how often a loop went back to its head *)
}.
Arguments mkSys {T}.
Arguments sq {T}.
Arguments ppc {T}.
Arguments todo {T}.
Arguments presults {T}.
Arguments cpc {T}.
Arguments cvar {T}.
Arguments cresults {T}.
Arguments spins {T}.

(** One atomic operation of the producer, which offers the items of [todo]
    one call after the other. *)
Definition producer_step {T} (Capacity : Z) (st : sys T) : sys T :=
  let q := sq st in
  match ppc st with
  | PIdle =>
      match todo st with
      | [] => st
      | item :: todo' =>
          mkSys q (PLoadSeq item (MPMCQueue.head_ q)) todo' (presults st)
                (cpc st) (cvar st) (cresults st) (spins st)
      end
  | PLoadSeq item pos =>
      let seq := MPMCQueue.load_seq q (MPMCQueue.index_of Capacity pos) in
      mkSys q (PDecide item pos seq) (todo st) (presults st)
            (cpc st) (cvar st) (cresults st) (spins st)
  | PDecide item pos seq =>
      let diff := to_intptr seq - to_intptr pos in
      if diff =? 0 then
        if MPMCQueue.head_ q =? pos then
          mkSys (MPMCQueue.mk (wrap64 (pos + 1)) (MPMCQueue.tail_ q)
                              (MPMCQueue.buffer_ q) (MPMCQueue.sequences_ q))
                (PWrite item pos) (todo st) (presults st)
                (cpc st) (cvar st) (cresults st) (spins st)
        else
          mkSys q (PLoadSeq item (MPMCQueue.head_ q)) (todo st) (presults st)
                (cpc st) (cvar st) (cresults st) (S (spins st))
      else if diff <? 0 then
        mkSys q PIdle (todo st) (presults st ++ [false])
              (cpc st) (cvar st) (cresults st) (spins st)
      else
        mkSys q (PLoadSeq item (MPMCQueue.head_ q)) (todo st) (presults st)
              (cpc st) (cvar st) (cresults st) (S (spins st))
  | PWrite item pos =>
      mkSys (MPMCQueue.mk (MPMCQueue.head_ q) (MPMCQueue.tail_ q)
               (<[MPMCQueue.index_of Capacity pos := item]> (MPMCQueue.buffer_ q))
               (MPMCQueue.sequences_ q))
            (PPublish item pos) (todo st) (presults st)
            (cpc st) (cvar st) (cresults st) (spins st)
  | PPublish item pos =>
      mkSys (MPMCQueue.mk (MPMCQueue.head_ q) (MPMCQueue.tail_ q)
               (MPMCQueue.buffer_ q)
               (<[MPMCQueue.index_of Capacity pos := wrap64 (pos + 1)]>
                  (MPMCQueue.sequences_ q)))
            PIdle (todo st) (presults st ++ [true])
            (cpc st) (cvar st) (cresults st) (spins st)
  end.

(** One atomic operation of the consumer, which calls [try_dequeue] again
    and again, as the logger's worker does. *)
Definition consumer_step {T} (Capacity : Z) (st : sys T) : sys T :=
  let q := sq st in
  match cpc st with
  | CIdle =>
      mkSys q (ppc st) (todo st) (presults st)
            (CLoadSeq (MPMCQueue.tail_ q)) (cvar st) (cresults st) (spins st)
  | CLoadSeq pos =>
      let seq := MPMCQueue.load_seq q (MPMCQueue.index_of Capacity pos) in
      mkSys q (ppc st) (todo st) (presults st)
            (CDecide pos seq) (cvar st) (cresults st) (spins st)
  | CDecide pos seq =>
      let diff := to_intptr seq - to_intptr (wrap64 (pos + 1)) in
      if diff =? 0 then
        if MPMCQueue.tail_ q =? pos then
          mkSys (MPMCQueue.mk (MPMCQueue.head_ q) (wrap64 (pos + 1))
                              (MPMCQueue.buffer_ q) (MPMCQueue.sequences_ q))
                (ppc st) (todo st) (presults st)
                (CRead pos) (cvar st) (cresults st) (spins st)
        else
          mkSys q (ppc st) (todo st) (presults st)
                (CLoadSeq (MPMCQueue.tail_ q)) (cvar st) (cresults st)
                (S (spins st))
      else if diff <? 0 then
        mkSys q (ppc st) (todo st) (presults st)
              CIdle (cvar st) (cresults st ++ [None]) (spins st)
      else
        mkSys q (ppc st) (todo st) (presults st)
              (CLoadSeq (MPMCQueue.tail_ q)) (cvar st) (cresults st)
              (S (spins st))
  | CRead pos =>
      mkSys q (ppc st) (todo st) (presults st)
            (CRelease pos)
            (default (cvar st)
               (MPMCQueue.buffer_ q !! MPMCQueue.index_of Capacity pos))
            (cresults st) (spins st)
  | CRelease pos =>
      mkSys (MPMCQueue.mk (MPMCQueue.head_ q) (MPMCQueue.tail_ q)
               (MPMCQueue.buffer_ q)
               (<[MPMCQueue.index_of Capacity pos := wrap64 (pos + Capacity)]>
                  (MPMCQueue.sequences_ q)))
            (ppc st) (todo st) (presults st)
            CIdle (cvar st) (cresults st ++ [Some (cvar st)]) (spins st)
  end.

(** A schedule says which thread performs each step: [true] the producer,
    [false] the consumer. *)
Fixpoint run_sched {T} (Capacity : Z) (sched : list bool) (st : sys T) : sys T :=
  match sched with
  | [] => st
  | true :: sched' => run_sched Capacity sched' (producer_step Capacity st)
  | false :: sched' => run_sched Capacity sched' (consumer_step Capacity st)
  end.

Definition sys_init {T} (Capacity : Z) (mem : nat -> T) (ins : list T) (item0 : T)
  : sys T :=
  mkSys (MPMCQueue.new Capacity mem) PIdle ins [] CIdle item0 [] 0.

(** The items whose call returned true, and the values dequeued. *)
Fixpoint accepted {T} (ins : list T) (rs : list bool) : list T :=
  match ins, rs with
  | x :: ins', true :: rs' => x :: accepted ins' rs'
  | _ :: ins', false :: rs' => accepted ins' rs'
  | _, _ => []
  end.

Definition dequeued {T} (rs : list (option T)) : list T := omap id rs.

(** The positions published and released: a position claimed counts once
    its sequence number has been stored. *)
Definition claimed_p {T} (pc : producer_pc T) : Z :=
  match pc with PWrite _ _ | PPublish _ _ => 1 | _ => 0 end.

Definition claimed_c (pc : consumer_pc) : Z :=
  match pc with CRead _ | CRelease _ => 1 | _ => 0 end.

Definition published {T} (st : sys T) : Z :=
  MPMCQueue.head_ (sq st) - claimed_p (ppc st).

Definition released {T} (st : sys T) : Z :=
  MPMCQueue.tail_ (sq st) - claimed_c (cpc st).

(** What the invariant says of a thread at each of its operations. *)
Definition ppc_ok {T} (Capacity : Z) (pc : producer_pc T) (head hp tr : Z)
  (buf : list T) : Prop :=
  match pc with
  | PIdle => True
  | PLoadSeq _ pos => pos = head
  | PDecide _ pos seq =>
      pos = head
      /\ (seq = pos /\ hp - tr < Capacity \/ seq = pos - Capacity + 1 /\ 1 <= seq)
  | PWrite _ pos => pos = hp /\ hp - tr < Capacity
  | PPublish item pos =>
      pos = hp /\ hp - tr < Capacity
      /\ buf !! MPMCQueue.index_of Capacity pos = Some item
  end.

Definition cpc_ok {T} (pc : consumer_pc) (tail hp tr : Z) (l : list T) (cv : T)
  : Prop :=
  match pc with
  | CIdle => True
  | CLoadSeq pos => pos = tail
  | CDecide pos seq => pos = tail /\ (seq = pos + 1 /\ tr < hp \/ seq = pos)
  | CRead pos => pos = tr /\ tr < hp
  | CRelease pos => pos = tr /\ tr < hp /\ head l = Some cv
  end.

(** The invariant of the two threads: the queue, taken at the positions
    published and released, represents the items accepted and not yet
    dequeued; the values dequeued are the first of the items accepted. *)
Record SInv {T} (Capacity : Z) (ins : list T) (st : sys T) : Prop := {
  si_rep :
    MPMCQueue.Represents Capacity
      (MPMCQueue.mk (published st) (released st)
                    (MPMCQueue.buffer_ (sq st)) (MPMCQueue.sequences_ (sq st)))
      (drop (length (dequeued (cresults st))) (accepted ins (presults st)));
  si_head : published st = Z.of_nat (length (accepted ins (presults st)));
  si_tail : released st = Z.of_nat (length (dequeued (cresults st)));
  si_outs :
    dequeued (cresults st)
    = take (length (dequeued (cresults st))) (accepted ins (presults st));
  si_bound : (length (presults st) <= length ins)%nat;
  si_todo :
    match ppc st with
    | PIdle => todo st = drop (length (presults st)) ins
    | PLoadSeq item _ | PDecide item _ _ | PWrite item _ | PPublish item _ =>
        item :: todo st = drop (length (presults st)) ins
    end;
  si_ppc :
    ppc_ok Capacity (ppc st) (MPMCQueue.head_ (sq st)) (published st)
           (released st) (MPMCQueue.buffer_ (sq st));
  si_cpc :
    cpc_ok (cpc st) (MPMCQueue.tail_ (sq st)) (published st) (released st)
           (drop (length (dequeued (cresults st))) (accepted ins (presults st)))
           (cvar st);
  si_spins : spins st = 0%nat
}.

(* ===================================================================== *)
(** * Properties *)
(* ===================================================================== *)

(** ** Byte swaps *)

(** Reversing the bytes twice gives the value back, at any width. *)
Lemma bswap_involutive (n : nat) (x : Z) :
  0 <= x < 2 ^ (Z.of_nat n * 8) -> bswap n (bswap n x) = x.
Proof.
  intros Hx. unfold bswap.
  rewrite <- (length_le_split n x) at 1.
  rewrite <- length_rev.
  rewrite split_le_combine, rev_involutive, le_combine_split.
  apply Z.mod_small; exact Hx.
Qed.

(** C10. Each byte-swap primitive is an involution: for every 16-bit value
    [ntoh16 (ntoh16 v) = v], for every 32-bit value [ntoh32 (ntoh32 v) = v],
    and for every 64-bit value [ntoh64 (ntoh64 v) = v]. *)
Theorem ntoh_involutive (v16 v32 v64 : Z) :
  0 <= v16 < 2 ^ 16 -> 0 <= v32 < 2 ^ 32 -> 0 <= v64 < 2 ^ 64 ->
  ntoh16 (ntoh16 v16) = v16
  /\ ntoh32 (ntoh32 v32) = v32
  /\ ntoh64 (ntoh64 v64) = v64.
Proof.
  intros H16 H32 H64. unfold ntoh16, ntoh32, ntoh64.
  repeat split; apply bswap_involutive; assumption.
Qed.

Lemma ntoh_involutive_witness :
  ntoh16 (ntoh16 0x1234) = 0x1234
  /\ ntoh32 (ntoh32 0x12345678) = 0x12345678
  /\ ntoh64 (ntoh64 0x123456789ABCDEF0) = 0x123456789ABCDEF0.
Proof. apply ntoh_involutive; lia. Defined.

(** The values the test [endian_conversion] asserts. *)
Example endian_conversion :
  ntoh16 0x1234 = 0x3412
  /\ ntoh32 0x12345678 = 0x78563412
  /\ ntoh64 0x123456789ABCDEF0 = 0xF0DEBC9A78563412.
Proof. repeat split; reflexivity. Qed.

(** The values the test [price_conversion] asserts. *)
Example price_conversion :
  price_to_double 1500000 = 150%float
  /\ PrimFloat.ltb 99.999%float (price_to_double 999999) = true
  /\ PrimFloat.ltb (price_to_double 999999) 100%float = true.
Proof. repeat split; reflexivity. Qed.

(** ** Symbol extraction *)

Lemma eqb_space_true (c : byte) : Byte.eqb c space = true <-> c = space.
Proof. split; [apply Byte.byte_dec_bl | apply Byte.byte_dec_lb]. Qed.

Lemma eqb_space_false (c : byte) : Byte.eqb c space = false <-> c <> space.
Proof.
  rewrite <- eqb_space_true. destruct (Byte.eqb c space); split; congruence.
Qed.

(** The loop never lengthens. *)
Lemma trim_len_le (l : list byte) (len : nat) : (trim_len l len <= len)%nat.
Proof.
  induction len as [|k IH]; simpl; [lia|].
  destruct (Byte.eqb (nth k l space) space); lia.
Qed.

(** It stops on a character that is not a space, or at zero. *)
Lemma trim_len_last (l : list byte) (len : nat) :
  trim_len l len = 0%nat \/ nth (trim_len l len - 1) l space <> space.
Proof.
  induction len as [|k IH]; simpl; [now left|].
  destruct (Byte.eqb (nth k l space) space) eqn:E; [exact IH|].
  right. simpl. rewrite Nat.sub_0_r. now apply eqb_space_false.
Qed.

(** Everything it stepped over is a space. *)
Lemma trim_len_tail (l : list byte) (len m : nat) :
  (trim_len l len < m <= len)%nat -> nth (m - 1) l space = space.
Proof.
  induction len as [|k IH]; simpl; [lia|].
  destruct (Byte.eqb (nth k l space) space) eqn:E; [|lia].
  intros Hm. destruct (Nat.eq_dec m (S k)) as [->|Hne].
  - simpl. rewrite Nat.sub_0_r. now apply eqb_space_true.
  - apply IH. lia.
Qed.

Lemma trim_len_all_spaces (l : list byte) (len : nat) :
  (forall i, (i < len)%nat -> nth i l space = space) -> trim_len l len = 0%nat.
Proof.
  induction len as [|k IH]; simpl; [reflexivity|]. intros H.
  rewrite (proj2 (eqb_space_true _) (H k (Nat.lt_succ_diag_r k))).
  apply IH. intros i Hi. apply H. lia.
Qed.

(** C8. For every 8-byte character array [s], [get_stock_symbol s] is the
    longest left-aligned prefix of [s] whose final character is not a space:
    it is the prefix of some length [n <= 8]; that prefix is empty or ends in
    a character other than a space; every longer prefix ends in a space. It
    is empty when all eight bytes are spaces and is all of [s] when the
    eighth byte is not a space. *)
Theorem get_stock_symbol_longest_prefix (s : vec byte 8) :
  let chars := vec_to_list s in
  exists n : nat,
    (n <= 8)%nat
    /\ get_stock_symbol s = take n chars
    /\ (n = 0%nat \/ exists c, chars !! (n - 1)%nat = Some c /\ c <> space)
    /\ (forall m, (n < m <= 8)%nat -> chars !! (m - 1)%nat = Some space)
    /\ (chars = replicate 8 space -> get_stock_symbol s = [])
    /\ (forall c, chars !! 7%nat = Some c -> c <> space ->
          get_stock_symbol s = chars).
Proof.
  intros chars.
  assert (Hlen : length chars = 8%nat) by apply length_vec_to_list.
  assert (Hnth : forall i, (i < 8)%nat -> chars !! i = Some (nth i chars space)).
  { intros i Hi.
    destruct (nth_lookup_or_length chars i space) as [E|E]; [exact E|lia]. }
  exists (trim_len chars 8). split; [apply trim_len_le|].
  split; [reflexivity|]. split; [|split; [|split]].
  - destruct (trim_len_last chars 8) as [H0|Hne]; [now left|].
    destruct (Nat.eq_dec (trim_len chars 8) 0%nat) as [H0|Hpos]; [now left|].
    right. exists (nth (trim_len chars 8 - 1) chars space). split; [|exact Hne].
    apply Hnth. pose proof (trim_len_le chars 8). lia.
  - intros m Hm. rewrite Hnth by lia. f_equal. now apply (trim_len_tail chars 8).
  - intros Hall. unfold get_stock_symbol. fold chars.
    rewrite trim_len_all_spaces; [reflexivity|].
    intros i Hi. rewrite Hall. do 8 (destruct i as [|i]; [reflexivity|]). lia.
  - intros c H7 Hc. unfold get_stock_symbol. fold chars.
    assert (E : trim_len chars 8 = 8%nat).
    { simpl. rewrite Hnth in H7 by lia. injection H7 as <-.
      now rewrite (proj2 (eqb_space_false _) Hc). }
    rewrite E, <- Hlen. apply firstn_all.
Qed.

(** The values the test [stock_symbol_extraction] asserts. *)
Example stock_symbol_extraction :
  get_stock_symbol (list_to_vec ["A"; "A"; "P"; "L"; " "; " "; " "; " "]%byte)
    = ["A"; "A"; "P"; "L"]%byte
  /\ get_stock_symbol (list_to_vec ["M"; "S"; "F"; "T"; " "; " "; " "; " "]%byte)
    = ["M"; "S"; "F"; "T"]%byte
  /\ get_stock_symbol (list_to_vec ["L"; "O"; "N"; "G"; "S"; "Y"; "M"; "B"]%byte)
    = ["L"; "O"; "N"; "G"; "S"; "Y"; "M"; "B"]%byte.
Proof. repeat split; reflexivity. Qed.

(** ** The parser *)

(** Decide the comparisons of a known tag against the enumerators. *)
Ltac eval_tags :=
  repeat match goal with
  | |- context [Byte.eqb ?a ?b] =>
      let v := eval vm_compute in (Byte.eqb a b) in
      change (Byte.eqb a b) with v
  end; cbv iota.

Ltac split_ifs :=
  repeat match goal with
  | |- context [if ?c then _ else _] => destruct c
  end.

(** What [sizeof] is for the structs as declared. The test
    [message_size_calculation] asserts 36, 31, 23 and 19 for the first four
    message structs below and 15 for the header. *)
Example message_size_calculation :
  ITCHMessageHeader.sizeof = 13
  /\ AddOrderMessage.sizeof = 38
  /\ ExecuteOrderMessage.sizeof = 33
  /\ OrderCancelMessage.sizeof = 25
  /\ OrderDeleteMessage.sizeof = 21.
Proof. repeat split; reflexivity. Qed.

Lemma finish_has_value ty u cpu : has_value (fst (finish ty u cpu)) = true.
Proof. unfold finish. destruct (get_timestamp_ns cpu). reflexivity. Qed.

(** A length below [sizeof(ITCHMessageHeader)] is rejected before the tag
    is read. *)
Lemma parse_short data length cpu :
  length < ITCHMessageHeader.sizeof -> parse data length cpu = (None, cpu).
Proof.
  intros H. unfold parse. apply Z.ltb_lt in H. rewrite H. reflexivity.
Qed.

(** An absent result leaves the processor as it was: [rdtsc] is executed
    only on the paths that return a record. *)
Lemma parse_absent_keeps_cpu data length cpu :
  fst (parse data length cpu) = None -> parse data length cpu = (None, cpu).
Proof.
  unfold parse, parse_add_order, parse_execute_order, parse_execute_with_price,
    parse_order_cancel, parse_order_delete, parse_order_replace, parse_trade,
    parse_system_event, parse_stock_directory, finish.
  destruct (get_timestamp_ns cpu) as [now cpu'].
  split_ifs; simpl; intros H; try reflexivity; discriminate H.
Qed.

Ltac parse_case :=
  intros rest length cpu; unfold parse, sizeof_variant;
  change (byte_at (?b :: rest) 0) with b; eval_tags;
  destruct (length <? ITCHMessageHeader.sizeof) eqn:Hshort;
  [ apply Z.ltb_lt in Hshort; symmetry; apply Z.eqb_neq;
    revert Hshort; vm_compute; intros Hs He; subst; discriminate
  | match goal with
    | |- context [length =? ?s] =>
        destruct (length =? s) eqn:Hlen; cbv [negb];
        [ apply finish_has_value | reflexivity ]
    end ].

(** For each handled tag the parser returns a record exactly when the
    length is the [sizeof] of the struct the tag selects. *)
Lemma parse_handled_iff_sizeof :
  Forall (fun tag => forall rest length cpu,
            has_value (fst (parse (tag :: rest) length cpu))
            = (length =? sizeof_variant tag))
         handled_tags.
Proof.
  unfold handled_tags.
  repeat (apply List.Forall_cons; [parse_case|]). apply List.Forall_nil.
Qed.

(** At the width the specification's table gives for its tag, every frame
    is rejected. *)
Lemma parse_at_spec_width :
  Forall (fun tag => forall rest cpu,
            parse (tag :: rest) (spec_width tag) cpu = (None, cpu))
         handled_tags.
Proof.
  apply List.Forall_forall. intros tag Hin rest cpu.
  pose proof (proj1 (List.Forall_forall _ _) parse_handled_iff_sizeof
                tag Hin rest (spec_width tag) cpu) as H.
  apply parse_absent_keeps_cpu.
  destruct (fst (parse (tag :: rest) (spec_width tag) cpu)); [|reflexivity].
  simpl in H. symmetry in H. apply Z.eqb_eq in H. exfalso. revert H.
  unfold handled_tags in Hin. simpl in Hin.
  repeat (destruct Hin as [<-|Hin]; [vm_compute; discriminate|]).
  destruct Hin.
Qed.

(** C1, on the code. The claim: for each of the nine tags, [parse] returns a
    record exactly when [length] is the width of the specification's table
    (A=36, E=31, C=36, X=23, D=19, U=35, P=44, S=12, R=39). The code: the
    widths it accepts are the [sizeof] of the packed structs, which are 38,
    33, 38, 25, 21, 37, 46, 14 and 41; a record is returned exactly at
    those, and at the table's width every frame of every tag is rejected. *)
Theorem parse_accepts_sizeof_not_spec_width :
  map sizeof_variant handled_tags = [38; 33; 38; 25; 21; 37; 46; 14; 41]
  /\ map spec_width handled_tags = [36; 31; 36; 23; 19; 35; 44; 12; 39]
  /\ Forall (fun tag => forall rest length cpu,
               has_value (fst (parse (tag :: rest) length cpu))
               = (length =? sizeof_variant tag))
            handled_tags
  /\ Forall (fun tag => forall rest cpu,
               parse (tag :: rest) (spec_width tag) cpu = (None, cpu))
            handled_tags.
Proof.
  split; [reflexivity|]. split; [reflexivity|].
  split; [exact parse_handled_iff_sizeof | exact parse_at_spec_width].
Qed.

(** C3, on the code. The claim: every length below 15 is rejected. The code:
    the bound is [sizeof(ITCHMessageHeader)], which is 13; every length
    below 13 is rejected, and a SystemEvent frame of length 14 is accepted
    whatever its other bytes are. *)
Theorem parse_system_event_of_length_14 :
  ITCHMessageHeader.sizeof = 13
  /\ (forall rest cpu,
        has_value (fst (parse (MessageType.SYSTEM_EVENT :: rest) 14 cpu)) = true)
  /\ (forall data length cpu,
        length < ITCHMessageHeader.sizeof -> parse data length cpu = (None, cpu)).
Proof.
  split; [reflexivity|]. split; [|exact parse_short].
  intros rest cpu.
  pose proof parse_handled_iff_sizeof as H. unfold handled_tags in H.
  rewrite !List.Forall_cons_iff in H.
  destruct H as (_ & _ & _ & _ & _ & _ & _ & H & _).
  rewrite H. reflexivity.
Qed.

(** C6. For every first byte [b] that is not one of the nine handled tags
    and every length, [parse] returns absent and leaves the only state it
    can touch, the time-stamp counter, unread. *)
Theorem parse_unknown_tag (b : byte) (rest : list byte) (length : Z) (cpu : Tsc) :
  is_handled b = false -> parse (b :: rest) length cpu = (None, cpu).
Proof.
  unfold is_handled, handled_tags. cbn [existsb].
  rewrite !orb_false_iff.
  intros (HA & HE & HC & HX & HD & HU & HP & HS & HR & _).
  unfold parse. change (byte_at (b :: rest) 0) with b.
  rewrite HA, HE, HC, HX, HD, HU, HP, HS, HR.
  destruct (length <? ITCHMessageHeader.sizeof); reflexivity.
Qed.

Lemma parse_unknown_tag_witness :
  is_handled "Z"%byte = false
  /\ parse ("Z"%byte :: replicate 37 Byte.x00) 38 [(7, 0)] = (None, [(7, 0)]).
Proof.
  split; [reflexivity|].
  apply (parse_unknown_tag "Z"%byte (replicate 37 Byte.x00) 38 [(7, 0)]).
  reflexivity.
Defined.

(** The three cases of the test [parser_invalid_message]: five bytes, an
    unknown tag, and tag A at length 100. *)
Example parser_invalid_message (cpu : Tsc) :
  parse (replicate 5 Byte.x00) 5 cpu = (None, cpu)
  /\ parse ("Z"%byte :: replicate 37 Byte.x00) 38 cpu = (None, cpu)
  /\ parse ("A"%byte :: replicate 99 Byte.x00) 100 cpu = (None, cpu).
Proof. repeat split; reflexivity. Qed.

(** C7. Decoding the AddOrder frame whose big-endian fields encode
    stock_locate 123, tracking_number 456, timestamp 1234567890,
    order_reference_number 999999, side 'B', shares 100, stock "AAPL    "
    and price 1500000 yields a present record of type A whose host-order
    fields are exactly those values; its symbol is "AAPL" and its price as
    a decimal is 150.0. The frame is spelled out byte by byte. *)
Theorem parse_test_add_order (cpu : Tsc) :
  test_add_order_frame =
    [ x41; x00; x7b; x01; xc8;
      x00; x00; x00; x00; x49; x96; x02; xd2;
      x00; x00; x00; x00; x00; x0f; x42; x3f;
      x42;
      x00; x00; x00; x64;
      x41; x41; x50; x4c; x20; x20; x20; x20;
      x00; x16; xe3; x60 ]%byte
  /\ (exists now cpu',
        parse test_add_order_frame (Z.of_nat (length test_add_order_frame)) cpu
        = (Some (mkParsedMessage MessageType.ADD_ORDER
                                 (add_order test_add_order_expected) now), cpu'))
  /\ get_stock_symbol (AddOrderMessage.stock test_add_order_expected)
     = ["A"; "A"; "P"; "L"]%byte
  /\ price_to_double (AddOrderMessage.price test_add_order_expected) = 150%float.
Proof.
  split; [vm_compute; reflexivity|].
  split; [|split; vm_compute; reflexivity].
  unfold parse.
  change (Z.of_nat (length test_add_order_frame)) with 38.
  change (byte_at test_add_order_frame 0) with "A"%byte.
  eval_tags. change (38 <? ITCHMessageHeader.sizeof) with false.
  change (negb (38 =? AddOrderMessage.sizeof)) with false. cbv iota.
  unfold parse_add_order, finish.
  destruct (get_timestamp_ns cpu) as [now cpu']. exists now, cpu'.
  do 3 f_equal; vm_compute; reflexivity.
Qed.

(** The test [parser_execute_order]. *)
Example parser_execute_order (cpu : Tsc) :
  let frame :=
    ExecuteOrderMessage.bytes
      (ExecuteOrderMessage.mk
         (ITCHMessageHeader.mk MessageType.EXECUTE_ORDER (hton16 1) (hton16 2)
                               (hton64 9876543210))
         (hton64 111111) (hton32 50) (hton64 222222)) in
  exists now cpu',
    parse frame (Z.of_nat (length frame)) cpu
    = (Some (mkParsedMessage MessageType.EXECUTE_ORDER
               (execute_order
                  (ExecuteOrderMessage.mk
                     (ITCHMessageHeader.mk "E"%byte 1 2 9876543210)
                     111111 50 222222)) now), cpu').
Proof.
  intros frame. unfold parse.
  change (Z.of_nat (length frame)) with 33.
  change (byte_at frame 0) with "E"%byte.
  eval_tags. change (33 <? ITCHMessageHeader.sizeof) with false.
  change (negb (33 =? ExecuteOrderMessage.sizeof)) with false. cbv iota.
  unfold parse_execute_order, finish.
  destruct (get_timestamp_ns cpu) as [now cpu']. exists now, cpu'.
  do 3 f_equal; vm_compute; reflexivity.
Qed.

(** ** The ring queue *)

Import MPMCQueue.

(** The constructor's loop stores [i] at index [i]. *)
Lemma length_init_sequences (n : nat) (i : Z) :
  length (init_sequences n i) = n.
Proof. revert i. induction n as [|n IH]; intros i; simpl; auto. Qed.

Lemma lookup_init_sequences (n k : nat) (i : Z) :
  (k < n)%nat -> init_sequences n i !! k = Some (i + Z.of_nat k).
Proof.
  revert k i. induction n as [|n IH]; intros k i Hk; [lia|].
  destruct k as [|k]; simpl.
  - f_equal. lia.
  - rewrite IH by lia. f_equal. lia.
Qed.

(** Throughout, the capacity is a power of two small enough for the queue
    to exist in a 64-bit address space. *)
Section QueueRefinement.
Context {T : Type}.
Variables (e Capacity : Z).
Hypothesis He : 0 <= e.
Hypothesis Hpow : Capacity = 2 ^ e.
Hypothesis Hfit : Capacity < 2 ^ 62.

Lemma capacity_pos : 0 < Capacity.
Proof using He Hpow. rewrite Hpow. apply Z.pow_pos_nonneg; lia. Qed.

(** The mask is the remainder modulo the capacity. *)
Lemma index_of_mod (pos : Z) :
  index_of Capacity pos = Z.to_nat (pos mod Capacity).
Proof using He Hpow Hfit.
  pose proof capacity_pos.
  unfold index_of, wrap64. rewrite (Z.mod_small (Capacity - 1)) by lia.
  replace (Capacity - 1) with (Z.ones e) by (rewrite Z.ones_equiv; lia).
  rewrite Z.land_ones by exact He. rewrite Hpow. reflexivity.
Qed.

Lemma index_of_lt (pos : Z) : (index_of Capacity pos < Z.to_nat Capacity)%nat.
Proof using He Hpow Hfit.
  rewrite index_of_mod.
  pose proof capacity_pos. pose proof (Z.mod_pos_bound pos Capacity). lia.
Qed.

Lemma index_of_wrap (pos : Z) :
  index_of Capacity (pos + Capacity) = index_of Capacity pos.
Proof using He Hpow Hfit.
  rewrite !index_of_mod. pose proof capacity_pos.
  replace (pos + Capacity) with (pos + 1 * Capacity) by lia.
  rewrite Z.mod_add by lia. reflexivity.
Qed.

(** Positions less than a capacity apart use different slots. *)
Lemma index_of_inj (t k k' : Z) :
  0 <= k < Capacity -> 0 <= k' < Capacity ->
  index_of Capacity (t + k) = index_of Capacity (t + k') -> k = k'.
Proof using He Hpow Hfit.
  intros Hk Hk'. rewrite !index_of_mod. intros E.
  pose proof capacity_pos as Hc.
  pose proof (Z.mod_pos_bound (t + k) Capacity Hc).
  pose proof (Z.mod_pos_bound (t + k') Capacity Hc).
  assert (E' : (t + k) mod Capacity = (t + k') mod Capacity) by lia.
  pose proof (Z.div_mod (t + k) Capacity ltac:(lia)) as D1.
  pose proof (Z.div_mod (t + k') Capacity ltac:(lia)) as D2.
  rewrite E' in D1.
  assert (Hq : Capacity * ((t + k) / Capacity - (t + k') / Capacity) = k - k') by lia.
  assert ((t + k) / Capacity - (t + k') / Capacity = 0) by nia.
  nia.
Qed.

Lemma index_of_ne (t k k' : Z) :
  0 <= k < Capacity -> 0 <= k' < Capacity -> k <> k' ->
  index_of Capacity (t + k) <> index_of Capacity (t + k').
Proof using He Hpow Hfit. intros Hk Hk' Hne E. apply Hne. eapply index_of_inj; eauto. Qed.

Lemma to_intptr_small (x : Z) : 0 <= x < 2 ^ 63 -> to_intptr x = x.
Proof. intros H. unfold to_intptr. destruct (Z.ltb_spec x (2 ^ 63)); lia. Qed.

Lemma wrap64_small (x : Z) : 0 <= x < 2 ^ 64 -> wrap64 x = x.
Proof. intros H. unfold wrap64. apply Z.mod_small. exact H. Qed.

(** A queue as constructed is empty. *)
Lemma new_Represents (mem : nat -> T) : Represents Capacity (new Capacity mem) [].
Proof using He Hpow Hfit.
  pose proof capacity_pos.
  constructor; simpl.
  - rewrite length_map, length_seq. lia.
  - rewrite length_init_sequences. lia.
  - lia.
  - reflexivity.
  - lia.
  - intros k x Hk. discriminate.
  - intros k _ Hk. rewrite Z.add_0_l.
    rewrite index_of_mod, Z.mod_small by lia. rewrite Nat2Z.id.
    rewrite lookup_init_sequences by lia. reflexivity.
Qed.

(** An enqueue into a queue that is not full. *)
Lemma try_enqueue_Represents (q : t T) (l : list T) (x : T) (fuel : nat) :
  Represents Capacity q l -> in_range Capacity q ->
  Z.of_nat (length l) < Capacity ->
  exists q',
    try_enqueue Capacity (S fuel) q x = Some (true, q')
    /\ Represents Capacity q' (l ++ [x]) /\ tail_ q' = tail_ q.
Proof using He Hpow Hfit.
  intros R Hr Hl. destruct R as [Hb Hs Ht Hh Hroom Hitems Hfree].
  unfold in_range in Hr.
  pose proof capacity_pos as Hc.
  assert (Hseq : load_seq q (index_of Capacity (head_ q)) = head_ q).
  { unfold load_seq. rewrite Hh, (Hfree (length l)) by lia. reflexivity. }
  unfold try_enqueue, try_enqueue_loop.
  rewrite Hseq, Z.sub_diag, Z.eqb_refl. simpl. rewrite Z.eqb_refl.
  eexists. split; [reflexivity|]. split; [|reflexivity].
  rewrite wrap64_small by lia.
  constructor; simpl.
  - rewrite length_insert. exact Hb.
  - rewrite length_insert. exact Hs.
  - exact Ht.
  - rewrite length_app. simpl. lia.
  - rewrite length_app. simpl. lia.
  - intros k y Hk. rewrite Hh.
    destruct (Nat.eq_dec k (length l)) as [->|Hne].
    + rewrite lookup_app_r, Nat.sub_diag in Hk by lia. simpl in Hk.
      injection Hk as <-.
      rewrite !list_lookup_insert_eq; [split; [f_equal; lia|reflexivity]| |].
      * pose proof (index_of_lt (tail_ q + Z.of_nat (length l))). lia.
      * pose proof (index_of_lt (tail_ q + Z.of_nat (length l))). lia.
    + assert (Hlt : (k < length l)%nat).
      { apply lookup_lt_Some in Hk. rewrite length_app in Hk. simpl in Hk. lia. }
      rewrite lookup_app_l in Hk by exact Hlt.
      rewrite !list_lookup_insert_ne by (apply index_of_ne; lia).
      apply Hitems. exact Hk.
  - intros k Hk Hkc. rewrite length_app in Hk. simpl in Hk. rewrite Hh.
    rewrite list_lookup_insert_ne by (apply index_of_ne; lia).
    apply Hfree; lia.
Qed.

(** An enqueue into a full queue of capacity at least two. *)
Lemma try_enqueue_full (q : t T) (l : list T) (x : T) (fuel : nat) :
  Represents Capacity q l -> in_range Capacity q ->
  2 <= Capacity -> Z.of_nat (length l) = Capacity ->
  try_enqueue Capacity (S fuel) q x = Some (false, q).
Proof using He Hpow Hfit.
  intros R Hr H2 Hl. destruct R as [Hb Hs Ht Hh Hroom Hitems Hfree].
  unfold in_range in Hr.
  destruct l as [|x0 l0]; [simpl in Hl; lia|].
  destruct (Hitems 0%nat x0 eq_refl) as [Hseq0 _].
  rewrite Z.add_0_r in Hseq0.
  assert (Hseq : load_seq q (index_of Capacity (head_ q)) = tail_ q + 1).
  { unfold load_seq. rewrite Hh, Hl, index_of_wrap, Hseq0. reflexivity. }
  unfold try_enqueue, try_enqueue_loop. rewrite Hseq.
  rewrite !to_intptr_small by lia.
  destruct (Z.eqb_spec (tail_ q + 1 - head_ q) 0) as [E|_]; [lia|].
  destruct (Z.ltb_spec (tail_ q + 1 - head_ q) 0) as [_|E]; [reflexivity|lia].
Qed.

(** A dequeue from a queue that is not empty. *)
Lemma try_dequeue_Represents (q : t T) (x : T) (l : list T) (item : T) (fuel : nat) :
  Represents Capacity q (x :: l) -> in_range Capacity q ->
  exists q',
    try_dequeue Capacity (S fuel) q item = Some (true, x, q')
    /\ Represents Capacity q' l /\ tail_ q' = tail_ q + 1.
Proof using He Hpow Hfit.
  intros R Hr. destruct R as [Hb Hs Ht Hh Hroom Hitems Hfree].
  unfold in_range in Hr. pose proof capacity_pos as Hc.
  simpl in Hh, Hroom.
  destruct (Hitems 0%nat x eq_refl) as [Hseq0 Hbuf0].
  rewrite Z.add_0_r in Hseq0, Hbuf0.
  unfold try_dequeue, try_dequeue_loop, load_seq. rewrite Hseq0, Hbuf0. simpl.
  rewrite (wrap64_small (tail_ q + 1)) by lia.
  rewrite Z.sub_diag, Z.eqb_refl. simpl. rewrite Z.eqb_refl.
  eexists. split; [reflexivity|]. split; [|reflexivity].
  rewrite wrap64_small by lia.
  constructor; simpl.
  - exact Hb.
  - rewrite length_insert. exact Hs.
  - lia.
  - lia.
  - lia.
  - intros k y Hk.
    assert (Hlt : (k < length l)%nat) by (apply lookup_lt_Some in Hk; exact Hk).
    destruct (Hitems (S k) y Hk) as [Hq1 Hq2].
    replace (tail_ q + 1 + Z.of_nat k) with (tail_ q + Z.of_nat (S k)) by lia.
    rewrite list_lookup_insert_ne.
    + split; [rewrite Hq1; f_equal; lia | exact Hq2].
    + rewrite <- (Z.add_0_r (tail_ q)) at 1. apply index_of_ne; lia.
  - intros k Hk Hkc.
    replace (tail_ q + 1 + Z.of_nat k) with (tail_ q + Z.of_nat (S k)) by lia.
    destruct (Z.eq_dec (Z.of_nat (S k)) Capacity) as [E|Hne].
    + rewrite E, index_of_wrap.
      rewrite list_lookup_insert_eq; [reflexivity|].
      pose proof (index_of_lt (tail_ q)). lia.
    + rewrite list_lookup_insert_ne.
      * apply Hfree; simpl; lia.
      * rewrite <- (Z.add_0_r (tail_ q)) at 1. apply index_of_ne; lia.
Qed.

(** A dequeue from an empty queue. *)
Lemma try_dequeue_empty (q : t T) (item : T) (fuel : nat) :
  Represents Capacity q [] -> in_range Capacity q ->
  try_dequeue Capacity (S fuel) q item = Some (false, item, q).
Proof using He Hpow Hfit.
  intros R Hr. destruct R as [Hb Hs Ht Hh Hroom Hitems Hfree].
  unfold in_range in Hr. pose proof capacity_pos as Hc.
  pose proof (Hfree 0%nat ltac:(simpl; lia) ltac:(lia)) as Hseq0.
  rewrite Z.add_0_r in Hseq0.
  unfold try_dequeue, try_dequeue_loop, load_seq. rewrite Hseq0. simpl.
  rewrite (wrap64_small (tail_ q + 1)) by lia.
  rewrite !to_intptr_small by lia.
  destruct (Z.eqb_spec (tail_ q - (tail_ q + 1)) 0) as [E|_]; [lia|].
  destruct (Z.ltb_spec (tail_ q - (tail_ q + 1)) 0) as [_|E]; [reflexivity|lia].
Qed.

(** A run of enqueues that fits. *)
Lemma enqueue_all_Represents (items : list T) (fuel : nat) :
  forall (q : t T) (l : list T),
  Represents Capacity q l -> in_range Capacity q ->
  Z.of_nat (length l) + Z.of_nat (length items) <= Capacity ->
  exists q',
    enqueue_all Capacity (S fuel) q items
      = Some (replicate (length items) true, q')
    /\ Represents Capacity q' (l ++ items) /\ tail_ q' = tail_ q.
Proof using He Hpow Hfit.
  induction items as [|x items IH]; intros q l R Hr Hl.
  - exists q. rewrite app_nil_r. auto.
  - simpl in Hl.
    destruct (try_enqueue_Represents q l x fuel R Hr ltac:(lia))
      as (q1 & E1 & R1 & T1).
    destruct (IH q1 (l ++ [x]) R1) as (q2 & E2 & R2 & T2).
    + unfold in_range in *. rewrite T1. exact Hr.
    + rewrite length_app. simpl. lia.
    + exists q2. cbn [enqueue_all]. rewrite E1, E2.
      rewrite <- app_assoc in R2. simpl in R2.
      split; [reflexivity|]. split; [exact R2 | congruence].
Qed.

(** A run of dequeues of what is there, in order. *)
Lemma dequeue_n_Represents (items : list T) (fuel : nat) :
  forall (q : t T) (rest : list T) (item : T),
  Represents Capacity q (items ++ rest) ->
  tail_ q + Z.of_nat (length items) + 2 * Capacity < 2 ^ 63 ->
  exists q',
    dequeue_n Capacity (S fuel) q item (length items)
      = Some (map (pair true) items, q')
    /\ Represents Capacity q' rest
    /\ tail_ q' = tail_ q + Z.of_nat (length items).
Proof using He Hpow Hfit.
  induction items as [|x items IH]; intros q rest item R Hr.
  - exists q. simpl. rewrite Z.add_0_r. auto.
  - simpl in R, Hr.
    destruct (try_dequeue_Represents q x (items ++ rest) item fuel R)
      as (q1 & E1 & R1 & T1).
    { unfold in_range. lia. }
    destruct (IH q1 rest x R1) as (q2 & E2 & R2 & T2); [lia|].
    exists q2. cbn [dequeue_n length]. rewrite E1, E2.
    split; [reflexivity|]. split; [exact R2 | lia].
Qed.

End QueueRefinement.

(** C4. For a queue of capacity C, a power of two that is at least 2, used
    by one thread: from an empty queue, C consecutive [try_enqueue] calls
    all return true, the next [try_enqueue] returns false and changes
    nothing, C [try_dequeue] calls then return true with the items in the
    order they were enqueued, and a further [try_dequeue] returns false.
    "Empty" is [Represents q []], which the constructor establishes
    ([new_Represents]) and every enqueue and dequeue preserves; the bound on
    [tail_] keeps the positions below the sign bit of [intptr_t]. *)
Theorem queue_fill_and_drain {T : Type} (e Capacity : Z) (q : MPMCQueue.t T)
    (items : list T) (extra : T) (out : T) (fuel : nat) :
  Capacity = 2 ^ e -> 1 <= e ->
  Represents Capacity q [] -> tail_ q + 3 * Capacity < 2 ^ 63 ->
  Z.of_nat (length items) = Capacity ->
  exists q1 q2,
    enqueue_all Capacity (S fuel) q items
      = Some (replicate (length items) true, q1)
    /\ try_enqueue Capacity (S fuel) q1 extra = Some (false, q1)
    /\ dequeue_n Capacity (S fuel) q1 out (length items)
      = Some (map (pair true) items, q2)
    /\ (forall value,
          try_dequeue Capacity (S fuel) q2 value = Some (false, value, q2)).
Proof.
  intros Hpow He R Hr Hlen.
  assert (He0 : 0 <= e) by lia.
  assert (H2 : 2 <= Capacity).
  { rewrite Hpow. change 2 with (2 ^ 1). apply Z.pow_le_mono_r; lia. }
  assert (Hfit : Capacity < 2 ^ 62) by (pose proof (rep_tail _ _ _ R); lia).
  destruct (enqueue_all_Represents e Capacity He0 Hpow Hfit items fuel q [] R)
    as (q1 & E1 & R1 & T1).
  { unfold in_range. lia. }
  { simpl. lia. }
  simpl in R1.
  destruct (dequeue_n_Represents e Capacity He0 Hpow Hfit items fuel q1 [] out)
    as (q2 & E2 & R2 & T2).
  { rewrite app_nil_r. exact R1. }
  { lia. }
  exists q1, q2. split; [exact E1|]. split; [|split; [exact E2|]].
  - apply (try_enqueue_full e Capacity He0 Hpow Hfit q1 items); auto.
    unfold in_range. lia.
  - intros value.
    apply (try_dequeue_empty e Capacity He0 Hpow Hfit); auto.
    unfold in_range. lia.
Qed.

Lemma queue_fill_and_drain_witness :
  let q := MPMCQueue.new 4 (fun _ => 0) in
  exists q1 q2,
    enqueue_all 4 1 q [1; 2; 3; 4] = Some ([true; true; true; true], q1)
    /\ try_enqueue 4 1 q1 5 = Some (false, q1)
    /\ dequeue_n 4 1 q1 0 4
       = Some ([(true, 1); (true, 2); (true, 3); (true, 4)], q2)
    /\ (forall value, try_dequeue 4 1 q2 value = Some (false, value, q2)).
Proof.
  apply (queue_fill_and_drain 2 4 (MPMCQueue.new 4 (fun _ => 0))
                              [1; 2; 3; 4] 5 0 0%nat).
  - reflexivity.
  - lia.
  - apply (new_Represents 2); [lia | reflexivity | lia].
  - simpl. lia.
  - reflexivity.
Defined.

(** The test [mpmc_queue_full], evaluated: four enqueues succeed, the fifth
    fails, four dequeues yield 1, 2, 3, 4, the fifth fails and leaves
    [value] at 4. *)
Example mpmc_queue_full :
  let q := MPMCQueue.new 4 (fun _ => 0) in
  exists q1,
    enqueue_all 4 1 q [1; 2; 3; 4] = Some ([true; true; true; true], q1)
    /\ try_enqueue 4 1 q1 5 = Some (false, q1)
    /\ exists q2, dequeue_n 4 1 q1 0 5
         = Some ([(true, 1); (true, 2); (true, 3); (true, 4); (false, 4)], q2).
Proof.
  cbv zeta. eexists. split; [vm_compute; reflexivity|].
  split; [vm_compute; reflexivity|]. eexists. vm_compute. reflexivity.
Qed.

(** The test [mpmc_queue_basic] on a queue of capacity 16. *)
Example mpmc_queue_basic :
  let q := MPMCQueue.new 16 (fun _ => 0) in
  MPMCQueue.empty q = true
  /\ exists q1 q2,
       try_enqueue 16 1 q 42 = Some (true, q1)
       /\ MPMCQueue.empty q1 = false /\ MPMCQueue.size q1 = 1
       /\ try_dequeue 16 1 q1 0 = Some (true, 42, q2)
       /\ MPMCQueue.empty q2 = true
       /\ try_dequeue 16 1 q2 42 = Some (false, 42, q2).
Proof.
  cbv zeta. split; [reflexivity|]. eexists. eexists.
  split; [vm_compute; reflexivity|]. split; [reflexivity|].
  split; [reflexivity|]. split; [vm_compute; reflexivity|].
  split; [reflexivity|]. vm_compute. reflexivity.
Qed.

(** C5. The compile-time check accepts capacity 1 (and rejects, say, 3);
    on a queue of capacity 1 two consecutive [try_enqueue] calls with no
    dequeue between them both return true, and the second overwrites the
    slot the first wrote. *)
Theorem capacity_one_enqueue_overwrites {T : Type} (mem : nat -> T) (x y : T)
    (fuel : nat) :
  MPMCQueue.static_assert_holds 1 = true
  /\ MPMCQueue.static_assert_holds 3 = false
  /\ exists q1 q2,
       try_enqueue 1 (S fuel) (MPMCQueue.new 1 mem) x = Some (true, q1)
       /\ buffer_ q1 = [x]
       /\ try_enqueue 1 (S fuel) q1 y = Some (true, q2)
       /\ buffer_ q2 = [y].
Proof.
  split; [reflexivity|]. split; [reflexivity|].
  eexists. eexists. split; [reflexivity|]. split; [reflexivity|].
  split; reflexivity.
Qed.

(** ** The logger *)

Import AsyncLogger.

Lemma length_mem_read m off n : length (mem_read m off n) = n.
Proof. unfold mem_read. rewrite length_map, length_seq. reflexivity. Qed.

Lemma mem_read_ext m m' off n :
  (forall a, m a = m' a) -> mem_read m off n = mem_read m' off n.
Proof. intros H. unfold mem_read. apply map_ext. intros i. apply H. Qed.

Lemma map_seq_shift {A} (h : nat -> A) (s k : nat) :
  map h (seq s k) = map (fun i => h (s + i)%nat) (seq 0 k).
Proof.
  revert h s. induction k as [|k IH]; intros h s; simpl; [reflexivity|].
  f_equal; [f_equal; lia|].
  rewrite (IH h (S s)), (IH (fun i => h (s + i)%nat) 1%nat).
  apply map_ext. intros i. f_equal. lia.
Qed.

Lemma mem_read_app m off n k :
  mem_read m off (n + k) = mem_read m off n ++ mem_read m (off + Z.of_nat n) k.
Proof.
  unfold mem_read. rewrite seq_app, map_app. f_equal.
  rewrite map_seq_shift. apply map_ext. intros i. f_equal. lia.
Qed.

Lemma mem_read_memcpy_before m dest src off n :
  off + Z.of_nat n <= dest ->
  mem_read (memcpy m dest src) off n = mem_read m off n.
Proof.
  intros H. unfold mem_read. apply map_ext_in. intros i Hi.
  apply in_seq in Hi. unfold memcpy.
  destruct (Z.leb_spec dest (off + Z.of_nat i)); [lia|reflexivity].
Qed.

Lemma mem_read_memcpy_at m dest src :
  mem_read (memcpy m dest src) dest (length src) = src.
Proof.
  unfold mem_read. apply list_eq. intros i.
  rewrite list_lookup_fmap.
  destruct (Nat.lt_ge_cases i (length src)) as [Hlt|Hge].
  - rewrite lookup_seq_lt by exact Hlt. simpl. unfold memcpy.
    destruct (Z.leb_spec dest (dest + Z.of_nat i)); [|lia].
    destruct (Z.ltb_spec (dest + Z.of_nat i) (dest + Z.of_nat (length src))); [|lia].
    simpl. replace (Z.to_nat (dest + Z.of_nat i - dest)) with i by lia.
    unfold byte_at.
    destruct (nth_lookup_or_length src i Byte.x00) as [E|E]; [symmetry; exact E|lia].
  - rewrite lookup_seq_ge by exact Hge. simpl. symmetry.
    apply lookup_ge_None. exact Hge.
Qed.

(** Reading back what was copied to the end of a prefix. *)
Lemma mem_read_memcpy_append m (off : Z) src :
  0 <= off ->
  mem_read (memcpy m off src) 0 (Z.to_nat off + length src)
  = mem_read m 0 (Z.to_nat off) ++ src.
Proof.
  intros H. rewrite mem_read_app. f_equal.
  - apply mem_read_memcpy_before. lia.
  - rewrite Z.add_0_l, Z2Nat.id by exact H. apply mem_read_memcpy_at.
Qed.

(** Expose the member widths to [lia]. *)
Ltac unfold_sizeof :=
  unfold AddOrderMessage.sizeof, ExecuteOrderMessage.sizeof,
    ExecuteOrderWithPriceMessage.sizeof, OrderCancelMessage.sizeof,
    OrderDeleteMessage.sizeof, OrderReplaceMessage.sizeof, TradeMessage.sizeof,
    SystemEventMessage.sizeof, StockDirectoryMessage.sizeof,
    ITCHMessageHeader.sizeof in *.

Lemma get_message_size_range msg : 0 <= get_message_size msg <= sizeof_union.
Proof.
  unfold get_message_size, sizeof_union. split_ifs; unfold_sizeof; lia.
Qed.

Lemma length_union_bytes u : Z.of_nat (length (union_bytes u)) = sizeof_union.
Proof.
  unfold union_bytes. rewrite length_take, length_app, length_replicate.
  assert (0 <= sizeof_union) by (unfold sizeof_union; unfold_sizeof; lia). lia.
Qed.

(** The bytes stored for a record are as many as [get_message_size] says. *)
Lemma length_image msg : Z.of_nat (length (image msg)) = get_message_size msg.
Proof.
  unfold image. rewrite length_take.
  pose proof (length_union_bytes (payload msg)).
  pose proof (get_message_size_range msg). lia.
Qed.

Lemma memcpy_nil m dest a : memcpy m dest [] a = m a.
Proof.
  unfold memcpy. cbn [length].
  replace (dest + Z.of_nat 0) with dest by lia.
  destruct (Z.leb_spec dest a); destruct (Z.ltb_spec a dest); simpl;
    try reflexivity; lia.
Qed.

(** [serialize_message] stores [image msg] at [dest], and nothing when the
    type is not handled. *)
Lemma serialize_message_image m dest msg a :
  serialize_message m dest msg a = memcpy m dest (image msg) a.
Proof.
  unfold serialize_message, image, get_message_size, copy_member.
  split_ifs; try reflexivity.
  change (Z.to_nat 0) with 0%nat. rewrite take_0. symmetry. apply memcpy_nil.
Qed.

Lemma unhandled_eqbs ty :
  is_handled ty = false ->
  Byte.eqb ty MessageType.ADD_ORDER = false
  /\ Byte.eqb ty MessageType.EXECUTE_ORDER = false
  /\ Byte.eqb ty MessageType.EXECUTE_ORDER_WITH_PRICE = false
  /\ Byte.eqb ty MessageType.ORDER_CANCEL = false
  /\ Byte.eqb ty MessageType.ORDER_DELETE = false
  /\ Byte.eqb ty MessageType.ORDER_REPLACE = false
  /\ Byte.eqb ty MessageType.TRADE = false
  /\ Byte.eqb ty MessageType.SYSTEM_EVENT = false
  /\ Byte.eqb ty MessageType.STOCK_DIRECTORY = false.
Proof.
  unfold is_handled, handled_tags. cbn [existsb]. rewrite !orb_false_iff. tauto.
Qed.

(** [sink_ok] is an invariant of the writer: [start] establishes it. *)
Lemma sink_ok_start mode qmem bufmem :
  sink_ok (start (AsyncLogger.new mode qmem bufmem)).
Proof.
  unfold sink_ok. destruct mode; cbn; unfold BUFFER_SIZE; repeat split; lia.
Qed.

Lemma wrap64_range x : 0 <= wrap64 x < 2 ^ 64.
Proof. unfold wrap64. apply Z.mod_pos_bound. lia. Qed.

Lemma flush_fields st :
  sink_ok st ->
  buffer_offset_ (flush st) = 0
  /\ write_mode_ (flush st) = write_mode_ st
  /\ 0 <= total_written_ (flush st) < 2 ^ 64.
Proof.
  intros (Hoff & Htot & Hmap). unfold flush.
  destruct (Z.eqb_spec (buffer_offset_ st) 0) as [E|Hne]; [auto|].
  pose proof (wrap64_range (total_written_ st + buffer_offset_ st)).
  destruct (write_mode_ st) eqn:Hmode; cbn; rewrite ?Hmode;
    try match goal with |- context [if ?c then _ else _] => destruct c end;
    cbn; rewrite ?Hmode; auto.
Qed.

(** [flush] keeps it. *)
Lemma sink_ok_flush st : sink_ok st -> sink_ok (flush st).
Proof.
  intros (Hoff & Htot & Hmap). unfold flush.
  destruct (Z.eqb_spec (buffer_offset_ st) 0) as [E|Hne];
    [exact (conj Hoff (conj Htot Hmap))|].
  pose proof (wrap64_range (total_written_ st + buffer_offset_ st)).
  unfold sink_ok.
  destruct (write_mode_ st) eqn:Hmode; cbn; rewrite ?Hmode;
    try match goal with |- context [if ?c then _ else _] => destruct c end;
    cbn; rewrite ?Hmode; unfold BUFFER_SIZE in *;
    repeat split; try lia; try discriminate; auto.
Qed.

(** [write_message] keeps it; in [MMAP] mode as long as the mapping can
    still double. *)
Lemma sink_ok_write_message st msg :
  sink_ok st ->
  (write_mode_ st = MMAP ->
     sizeof_union <= mmap_size_ st /\ mmap_size_ st * 2 < 2 ^ 64) ->
  sink_ok (write_message st msg).
Proof.
  intros Hok Hgrow.
  pose proof (get_message_size_range msg) as Hsz.
  assert (Hu : sizeof_union = 46) by reflexivity. rewrite Hu in Hsz, Hgrow.
  assert (HB : BUFFER_SIZE = 4194304) by reflexivity.
  pose proof (wrap64_range (total_written_ st + get_message_size msg)) as Hwt.
  unfold write_message, sink_ok.
  destruct (write_mode_ st) eqn:Hmode.
  - destruct Hok as (Hoff & Htot & Hmap).
    specialize (Hmap Hmode). destruct (Hgrow eq_refl) as [Hmin Hmax].
    destruct (Z.gtb_spec (wrap64 (total_written_ st + get_message_size msg))
                         (mmap_size_ st)) as [Hgt|Hle].
    + cbn. rewrite Hmode. unfold wrap64 in *.
      rewrite (Z.mod_small (mmap_size_ st * 2)) by lia.
      rewrite (Z.mod_small (total_written_ st + _)) in * by lia.
      repeat split; try lia.
    + cbn. rewrite Hmode. repeat split; try lia.
  - set (st1 := if wrap64 (buffer_offset_ st + get_message_size msg) >? BUFFER_SIZE
                then flush st else st).
    assert (H1 : 0 <= buffer_offset_ st1
                 /\ buffer_offset_ st1 + get_message_size msg <= BUFFER_SIZE
                 /\ write_mode_ st1 = DIRECT
                 /\ 0 <= total_written_ st1 < 2 ^ 64).
    { subst st1. destruct Hok as (Hoff & Htot & Hmap).
      rewrite wrap64_small by lia.
      destruct (Z.gtb_spec (buffer_offset_ st + get_message_size msg) BUFFER_SIZE).
      - destruct (flush_fields st (conj Hoff (conj Htot Hmap))) as (-> & -> & Ht).
        repeat split; try lia. assumption.
      - repeat split; try lia. assumption. }
    destruct H1 as (H0 & Hfit & Hm1 & Ht1).
    cbn. rewrite Hm1, wrap64_small by lia.
    repeat split; try lia. discriminate.
  - set (st1 := if wrap64 (buffer_offset_ st + get_message_size msg) >? BUFFER_SIZE
                then flush st else st).
    assert (H1 : 0 <= buffer_offset_ st1
                 /\ buffer_offset_ st1 + get_message_size msg <= BUFFER_SIZE
                 /\ write_mode_ st1 = BUFFERED
                 /\ 0 <= total_written_ st1 < 2 ^ 64).
    { subst st1. destruct Hok as (Hoff & Htot & Hmap).
      rewrite wrap64_small by lia.
      destruct (Z.gtb_spec (buffer_offset_ st + get_message_size msg) BUFFER_SIZE).
      - destruct (flush_fields st (conj Hoff (conj Htot Hmap))) as (-> & -> & Ht).
        repeat split; try lia. assumption.
      - repeat split; try lia. assumption. }
    destruct H1 as (H0 & Hfit & Hm1 & Ht1).
    cbn. rewrite Hm1, wrap64_small by lia.
    repeat split; try lia. discriminate.
Qed.

(** C9. For every record whose [type] is not one of the nine handled
    variants, [write_message] appends nothing: [get_message_size] is 0,
    [serialize_message] stores no byte, and the logger (with it
    [total_written_], [buffer_offset_], the buffer and the file) is
    unchanged, in every write mode. The hypothesis [sink_ok] is the
    invariant above: it holds after [start] and is kept by [flush] and
    [write_message]. *)
Theorem write_message_unhandled (st : AsyncLogger.t) (msg : ParsedMessage) :
  sink_ok st -> is_handled (type msg) = false ->
  get_message_size msg = 0
  /\ (forall m dest, serialize_message m dest msg = m)
  /\ write_message st msg = st.
Proof.
  intros (Hoff & Htot & Hmap) Hty.
  destruct (unhandled_eqbs _ Hty) as (HA & HE & HC & HX & HD & HU & HP & HS & HR).
  assert (Hsize : get_message_size msg = 0).
  { unfold get_message_size. rewrite HA, HE, HC, HX, HD, HU, HP, HS, HR. reflexivity. }
  assert (Hser : forall m dest, serialize_message m dest msg = m).
  { intros m dest. unfold serialize_message.
    rewrite HA, HE, HC, HX, HD, HU, HP, HS, HR. reflexivity. }
  split; [exact Hsize|]. split; [exact Hser|].
  assert (Hwt : wrap64 (total_written_ st) = total_written_ st)
    by (apply Z.mod_small; lia).
  assert (Hwo : wrap64 (buffer_offset_ st) = buffer_offset_ st)
    by (apply Z.mod_small; unfold BUFFER_SIZE in Hoff; lia).
  destruct st as [q mode run [fd fs fp] msz buf off tot].
  cbn [total_written_ buffer_offset_ write_mode_ mmap_size_] in *.
  unfold write_message.
  cbn [total_written_ buffer_offset_ write_mode_ mmap_size_ write_buffer_ file_].
  rewrite Hsize, !Z.add_0_r, Hwt, Hwo.
  destruct mode.
  - specialize (Hmap eq_refl).
    destruct (Z.gtb_spec tot msz) as [Hgt|_]; [lia|].
    cbn. rewrite Hser, Hwt. reflexivity.
  - destruct (Z.gtb_spec off BUFFER_SIZE) as [Hgt|_]; [lia|].
    cbn. rewrite Hser, Hwo. reflexivity.
  - destruct (Z.gtb_spec off BUFFER_SIZE) as [Hgt|_]; [lia|].
    cbn. rewrite Hser, Hwo. reflexivity.
Qed.

Lemma write_message_unhandled_witness :
  let st := start (AsyncLogger.new DIRECT (fun _ => unhandled_record)
                                   (fun _ => Byte.x00)) in
  get_message_size unhandled_record = 0
  /\ (forall m dest, serialize_message m dest unhandled_record = m)
  /\ write_message st unhandled_record = st.
Proof.
  apply write_message_unhandled.
  - unfold sink_ok. cbn. unfold BUFFER_SIZE. lia.
  - reflexivity.
Defined.

(** ** Buffered mode *)

(** [write] at the end of the file appends. *)
Lemma sys_write_append (f : File) (buf : Mem) (n : Z) :
  file_pos f = file_size f -> 0 <= file_size f -> 0 <= n ->
  let f' := fst (sys_write f buf n) in
  file_contents f' = file_contents f ++ mem_read buf 0 (Z.to_nat n)
  /\ file_pos f' = file_size f' /\ 0 <= file_size f'.
Proof.
  intros Hpos Hsize Hn. unfold sys_write, file_contents.
  cbn [fst file_data file_size file_pos].
  rewrite Hpos. split; [|lia].
  replace (Z.max (file_size f) (file_size f + n)) with (file_size f + n) by lia.
  rewrite Z2Nat.inj_add by lia.
  rewrite <- (length_mem_read buf 0 (Z.to_nat n)) at 2.
  apply mem_read_memcpy_append. exact Hsize.
Qed.

(** [flush] moves the buffer to the file: nothing emitted changes. *)
Lemma flush_buffered (st : AsyncLogger.t) :
  buffered_ok st ->
  buffered_ok (flush st)
  /\ file_contents (file_ (flush st)) = emitted st
  /\ buffer_offset_ (flush st) = 0
  /\ queue_ (flush st) = queue_ st
  /\ running_ (flush st) = running_ st.
Proof.
  intros (Hmode & Hoff & Hpos & Hsize). unfold flush, emitted.
  destruct (Z.eqb_spec (buffer_offset_ st) 0) as [E|Hne].
  - rewrite E. simpl. rewrite app_nil_r.
    repeat split; auto; lia.
  - rewrite Hmode.
    destruct (sys_write_append (file_ st) (write_buffer_ st) (buffer_offset_ st))
      as (Hc & Hp & Hs); try assumption; try lia.
    unfold sys_write in *. cbn [fst] in Hc, Hp, Hs.
    destruct (Z.gtb_spec (buffer_offset_ st) 0) as [_|Hle]; [|lia].
    cbn. unfold buffered_ok. cbn. rewrite Hmode.
    repeat split; try assumption; try lia; unfold BUFFER_SIZE; lia.
Qed.

(** [write_message] emits the image of the record after what was emitted. *)
Lemma write_message_buffered (st : AsyncLogger.t) (msg : ParsedMessage) :
  buffered_ok st ->
  buffered_ok (write_message st msg)
  /\ emitted (write_message st msg) = emitted st ++ image msg
  /\ queue_ (write_message st msg) = queue_ st
  /\ running_ (write_message st msg) = running_ st.
Proof.
  intros Hok.
  pose proof (get_message_size_range msg) as Hsz.
  pose proof (length_image msg) as Himg.
  assert (Hu : sizeof_union = 46) by reflexivity. rewrite Hu in Hsz.
  assert (HB : BUFFER_SIZE = 4194304) by reflexivity.
  (* the state after the conditional flush *)
  set (st1 := if wrap64 (buffer_offset_ st + get_message_size msg) >? BUFFER_SIZE
              then flush st else st).
  assert (H1 : buffered_ok st1 /\ emitted st1 = emitted st
               /\ buffer_offset_ st1 + get_message_size msg <= BUFFER_SIZE
               /\ queue_ st1 = queue_ st /\ running_ st1 = running_ st).
  { destruct Hok as (Hmode & Hoff & Hpos & Hsize).
    assert (Hw : wrap64 (buffer_offset_ st + get_message_size msg)
                 = buffer_offset_ st + get_message_size msg)
      by (apply Z.mod_small; lia).
    subst st1. rewrite Hw.
    destruct (Z.gtb_spec (buffer_offset_ st + get_message_size msg) BUFFER_SIZE).
    - destruct (flush_buffered st) as (Hok' & Hc & Ho & Hq & Hr).
      { repeat split; assumption || lia. }
      repeat split; try apply Hok'; auto.
      + unfold emitted at 1. rewrite Hc, Ho. simpl. apply app_nil_r.
      + rewrite Ho. lia.
    - repeat split; auto; lia. }
  destruct H1 as (Hok1 & Hem1 & Hfit & Hq1 & Hr1).
  destruct Hok1 as (Hmode & Hoff & Hpos & Hsize).
  assert (Hmode0 : write_mode_ st = BUFFERED) by apply Hok.
  unfold write_message. rewrite Hmode0. fold st1.
  assert (Hw : wrap64 (buffer_offset_ st1 + get_message_size msg)
               = buffer_offset_ st1 + get_message_size msg)
    by (apply Z.mod_small; lia).
  cbn. rewrite Hw.
  split; [|split; [|split; assumption]].
  - unfold buffered_ok. cbn. repeat split; assumption || lia.
  - rewrite <- Hem1. unfold emitted. cbn. rewrite <- app_assoc. f_equal.
    rewrite (mem_read_ext _ (memcpy (write_buffer_ st1) (buffer_offset_ st1) (image msg)))
      by (intros a; apply serialize_message_image).
    rewrite Z2Nat.inj_add, <- Himg, Nat2Z.id by lia.
    apply mem_read_memcpy_append. lia.
Qed.

(** ** A buffered session *)

(** The invariant [SysInv] of a run, step by step. *)
Lemma queue_size_pow : QUEUE_SIZE = 2 ^ 20.
Proof. reflexivity. Qed.

Lemma SysInv_start (qmem : nat -> ParsedMessage) (bufmem : Mem) :
  SysInv (start (AsyncLogger.new BUFFERED qmem bufmem)) [] []
  /\ running_ (start (AsyncLogger.new BUFFERED qmem bufmem)) = true.
Proof.
  split; [|reflexivity]. constructor.
  - apply (new_Represents 20); [lia | reflexivity | unfold QUEUE_SIZE; lia].
  - reflexivity.
  - unfold buffered_ok. cbn. unfold BUFFER_SIZE. repeat split; lia.
  - reflexivity.
Qed.

Lemma SysInv_in_range st done pending :
  SysInv st done pending -> Z.of_nat (length done) <= QUEUE_SIZE ->
  in_range QUEUE_SIZE (queue_ st).
Proof.
  intros I H. unfold in_range. rewrite (inv_tail _ _ _ I).
  unfold QUEUE_SIZE in *. lia.
Qed.

Lemma log_SysInv st done pending m fuel :
  SysInv st done pending ->
  Z.of_nat (length done) + Z.of_nat (length pending) < QUEUE_SIZE ->
  exists st',
    log (S fuel) st m = Some (true, st')
    /\ SysInv st' done (pending ++ [m])
    /\ running_ st' = running_ st.
Proof.
  intros I Hroom.
  destruct (try_enqueue_Represents 20 QUEUE_SIZE ltac:(lia) queue_size_pow
              ltac:(unfold QUEUE_SIZE; lia) (queue_ st) pending m fuel)
    as (q' & E & R & Ht).
  - apply I.
  - eapply SysInv_in_range; [exact I|lia].
  - lia.
  - exists (set_queue q' st). unfold log. rewrite E.
    split; [reflexivity|]. split; [|reflexivity].
    destruct I as [Iq It Is Ie]. constructor; cbn; auto. congruence.
Qed.

Lemma dequeue_write_SysInv st done x pending msg fuel :
  SysInv st done (x :: pending) ->
  Z.of_nat (length done) < QUEUE_SIZE ->
  exists q',
    try_dequeue QUEUE_SIZE (S fuel) (queue_ st) msg = Some (true, x, q')
    /\ SysInv (write_message (set_queue q' st) x) (done ++ [x]) pending
    /\ running_ (write_message (set_queue q' st) x) = running_ st.
Proof.
  intros I Hroom.
  destruct (try_dequeue_Represents 20 QUEUE_SIZE ltac:(lia) queue_size_pow
              ltac:(unfold QUEUE_SIZE; lia) (queue_ st) x pending msg fuel)
    as (q' & E & R & Ht).
  - apply I.
  - eapply SysInv_in_range; [exact I|lia].
  - exists q'. split; [exact E|].
    destruct I as [Iq It Is Ie].
    destruct (write_message_buffered (set_queue q' st) x) as (Hok & Hem & Hq & Hr).
    { exact Is. }
    split; [|exact Hr]. constructor.
    + rewrite Hq. exact R.
    + rewrite Hq. cbn. rewrite Ht, It, length_app. simpl. lia.
    + exact Hok.
    + rewrite Hem. change (emitted (set_queue q' st)) with (emitted st).
      rewrite Ie, map_app, concat_app. simpl. rewrite app_nil_r. reflexivity.
Qed.

Lemma worker_SysInv_item st done x pending msg fuel :
  SysInv st done (x :: pending) ->
  Z.of_nat (length done) < QUEUE_SIZE ->
  exists st',
    worker_iteration (S fuel) st msg = Some (st', x)
    /\ SysInv st' (done ++ [x]) pending
    /\ running_ st' = running_ st.
Proof.
  intros I Hroom.
  destruct (dequeue_write_SysInv st done x pending msg fuel I Hroom)
    as (q' & E & I' & R').
  unfold worker_iteration. rewrite E. eauto.
Qed.

Lemma worker_SysInv_idle st done msg fuel :
  SysInv st done [] ->
  Z.of_nat (length done) <= QUEUE_SIZE ->
  exists st',
    worker_iteration (S fuel) st msg = Some (st', msg)
    /\ SysInv st' done []
    /\ running_ st' = running_ st.
Proof.
  intros I Hroom.
  pose proof (try_dequeue_empty 20 QUEUE_SIZE ltac:(lia) queue_size_pow
                ltac:(unfold QUEUE_SIZE; lia) (queue_ st) msg fuel
                (inv_queue _ _ _ I) (SysInv_in_range _ _ _ I Hroom)) as E.
  unfold worker_iteration. rewrite E. eexists. split; [reflexivity|].
  destruct I as [Iq It Is Ie].
  destruct (flush_buffered (set_queue (queue_ st) st)) as (Hok & Hc & Ho & Hq & Hr).
  { exact Is. }
  split; [|exact Hr]. constructor.
  - rewrite Hq. exact Iq.
  - rewrite Hq. exact It.
  - exact Hok.
  - unfold emitted at 1. rewrite Hc, Ho. simpl. rewrite app_nil_r. exact Ie.
Qed.

Lemma run_SysInv (fuel : nat) (evs : list event) :
  forall st msg done pending,
  SysInv st done pending ->
  Z.of_nat (length done) + Z.of_nat (length pending)
    + Z.of_nat (length (logged evs)) < QUEUE_SIZE ->
  exists st' msg' done' pending',
    run (S fuel) evs st msg
      = Some (replicate (length (logged evs)) true, st', msg')
    /\ SysInv st' done' pending'
    /\ done' ++ pending' = done ++ pending ++ logged evs
    /\ running_ st' = running_ st.
Proof.
  induction evs as [|ev evs IH]; intros st msg done pending I Hroom.
  - exists st, msg, done, pending. cbn. rewrite app_nil_r. auto.
  - destruct ev as [m|]; cbn [logged length] in Hroom.
    + destruct (log_SysInv st done pending m fuel I ltac:(lia))
        as (st1 & E1 & I1 & R1).
      destruct (IH st1 msg done (pending ++ [m]) I1)
        as (st2 & msg2 & done2 & pending2 & E2 & I2 & L2 & R2).
      { rewrite length_app. simpl. lia. }
      exists st2, msg2, done2, pending2.
      cbn [run logged length replicate]. rewrite E1, E2.
      split; [reflexivity|]. split; [exact I2|]. split; [|congruence].
      rewrite L2, <- app_assoc. reflexivity.
    + destruct pending as [|x pending].
      * destruct (worker_SysInv_idle st done msg fuel I ltac:(simpl in Hroom; lia))
          as (st1 & E1 & I1 & R1).
        destruct (IH st1 msg done [] I1 Hroom)
          as (st2 & msg2 & done2 & pending2 & E2 & I2 & L2 & R2).
        exists st2, msg2, done2, pending2.
        cbn [run logged]. rewrite E1, E2.
        split; [reflexivity|]. split; [exact I2|]. split; [exact L2|congruence].
      * cbn [length] in Hroom.
        destruct (worker_SysInv_item st done x pending msg fuel I ltac:(lia))
          as (st1 & E1 & I1 & R1).
        destruct (IH st1 x (done ++ [x]) pending I1)
          as (st2 & msg2 & done2 & pending2 & E2 & I2 & L2 & R2).
        { rewrite length_app. simpl. lia. }
        exists st2, msg2, done2, pending2.
        cbn [run logged]. rewrite E1, E2.
        split; [reflexivity|]. split; [exact I2|]. split; [|congruence].
        rewrite L2, <- app_assoc. reflexivity.
Qed.

Lemma SysInv_set_running b st done pending :
  SysInv st done pending -> SysInv (set_running b st) done pending.
Proof. intros [Iq It Is Ie]. constructor; assumption. Qed.

Lemma drain_SysInv (pending : list ParsedMessage) :
  forall fuel st msg done,
  SysInv st done pending ->
  Z.of_nat (length done) + Z.of_nat (length pending) < QUEUE_SIZE ->
  (length pending < fuel)%nat ->
  exists st' msg',
    drain fuel st msg = Some (st', msg')
    /\ SysInv st' (done ++ pending) [].
Proof.
  induction pending as [|x pending IH]; intros fuel st msg done I Hroom Hfuel;
    (destruct fuel as [|fuel]; [lia|]).
  - pose proof (try_dequeue_empty 20 QUEUE_SIZE ltac:(lia) queue_size_pow
                  ltac:(unfold QUEUE_SIZE; lia) (queue_ st) msg fuel
                  (inv_queue _ _ _ I)
                  (SysInv_in_range _ _ _ I ltac:(lia))) as E.
    cbn [drain]. rewrite E. eexists _, _. split; [reflexivity|].
    rewrite app_nil_r. destruct I as [Iq It Is Ie]. constructor; assumption.
  - cbn [length] in Hroom, Hfuel.
    destruct (dequeue_write_SysInv st done x pending msg fuel I ltac:(lia))
      as (q1 & E & I1 & R1).
    cbn [drain]. rewrite E.
    destruct (IH fuel _ x (done ++ [x]) I1) as (st2 & msg2 & E2 & I2).
    { rewrite length_app. simpl. lia. }
    { lia. }
    exists st2, msg2. split; [exact E2|].
    rewrite <- app_assoc in I2. exact I2.
Qed.

(** A whole session in [BUFFERED] mode: every [log] succeeds and the file
    ends up holding the images of the logged records, in order, whatever
    the interleaving with the worker. *)
Lemma session_buffered (fuel : nat) (qmem : nat -> ParsedMessage) (bufmem : Mem)
    (msg0 : ParsedMessage) (evs : list event) :
  Z.of_nat (length (logged evs)) < QUEUE_SIZE ->
  (length (logged evs) < fuel)%nat ->
  exists st,
    session fuel BUFFERED qmem bufmem msg0 evs
      = Some (replicate (length (logged evs)) true, st)
    /\ file_contents (file_ st) = concat (map image (logged evs)).
Proof.
  intros Hroom Hfuel. destruct fuel as [|fuel]; [lia|].
  destruct (SysInv_start qmem bufmem) as (I0 & Hrun0).
  destruct (run_SysInv fuel evs _ msg0 [] [] I0 ltac:(simpl; lia))
    as (st1 & msg1 & done1 & pending1 & E1 & I1 & L1 & R1).
  simpl in L1.
  assert (Hlen : (length done1 + length pending1 = length (logged evs))%nat).
  { rewrite <- L1, length_app. reflexivity. }
  destruct (drain_SysInv pending1 (S fuel) (set_running false st1) msg1 done1)
    as (st2 & msg2 & E2 & I2).
  { apply SysInv_set_running. exact I1. }
  { lia. }
  { lia. }
  destruct (flush_buffered st2 (inv_sink _ _ _ I2)) as (Hok & Hc & Ho & Hq & Hr).
  exists (close_file (flush st2)).
  unfold session. rewrite E1. unfold stop. rewrite R1, Hrun0. cbn [negb].
  rewrite E2. split; [reflexivity|].
  unfold close_file. destruct Hok as (Hmode & _). rewrite Hmode.
  rewrite Hc, (inv_emitted _ _ _ I2), L1. reflexivity.
Qed.

Lemma logged_repeat_Worker n evs :
  logged (repeat Worker n ++ evs) = logged evs.
Proof. induction n as [|n IH]; simpl; auto. Qed.

Lemma logged_schedule lead gap msgs : logged (schedule lead gap msgs) = msgs.
Proof.
  unfold schedule. rewrite logged_repeat_Worker.
  generalize 0%nat as i. induction msgs as [|m msgs IH]; intros i; simpl; [reflexivity|].
  rewrite logged_repeat_Worker, IH. reflexivity.
Qed.

Lemma get_message_size_sizeof msg : get_message_size msg = sizeof_variant (type msg).
Proof. reflexivity. Qed.

Lemma length_concat_images (msgs : list ParsedMessage) :
  Z.of_nat (length (concat (map image msgs)))
  = fold_right Z.add 0 (map sizeof_variant (map type msgs)).
Proof.
  induction msgs as [|m msgs IH]; simpl; [reflexivity|].
  rewrite length_app, Nat2Z.inj_add, IH, length_image, get_message_size_sizeof.
  reflexivity.
Qed.

(** Walking a file of images by tag recovers the types of the records. *)
Lemma read_tags_images (msgs : list ParsedMessage) :
  forall fuel,
  Forall (fun m => head (image m) = Some (type m)) msgs ->
  (length msgs <= fuel)%nat ->
  read_tags fuel (concat (map image msgs)) = map type msgs.
Proof.
  induction msgs as [|m msgs IH]; intros fuel Hall Hfuel.
  - destruct fuel; reflexivity.
  - destruct fuel as [|fuel]; [simpl in Hfuel; lia|].
    apply List.Forall_cons_iff in Hall. destruct Hall as [Hm Hall].
    cbn [map concat]. pose proof (length_image m) as Hlen.
    destruct (image m) as [|tag rest] eqn:Eimg; [discriminate|].
    simpl in Hm. injection Hm as ->.
    cbn [app read_tags]. f_equal.
    rewrite get_message_size_sizeof in Hlen. rewrite <- Hlen, Nat2Z.id.
    change (type m :: rest ++ concat (map image msgs))
      with ((type m :: rest) ++ concat (map image msgs)).
    rewrite drop_app_length. apply IH; [exact Hall|simpl in Hfuel; lia].
Qed.

(** The parser on the frames of the alternating stream. *)
Lemma parse_frame_add_order (body : list byte) (cpu : Tsc) :
  exists m cpu',
    parse (frame MessageType.ADD_ORDER AddOrderMessage.sizeof body)
          (Z.of_nat (length (frame MessageType.ADD_ORDER AddOrderMessage.sizeof body)))
          cpu = (Some m, cpu')
    /\ type m = MessageType.ADD_ORDER
    /\ head (image m) = Some (type m).
Proof.
  unfold frame at 2. cbn [length]. unfold fetch at 1.
  rewrite length_map, length_seq.
  change (Z.of_nat (S (Z.to_nat AddOrderMessage.sizeof - 1))) with 38.
  unfold parse.
  change (byte_at (frame MessageType.ADD_ORDER AddOrderMessage.sizeof body) 0)
    with MessageType.ADD_ORDER.
  eval_tags. change (38 <? ITCHMessageHeader.sizeof) with false.
  change (negb (38 =? AddOrderMessage.sizeof)) with false. cbv iota.
  unfold parse_add_order, finish.
  destruct (get_timestamp_ns cpu) as [now cpu'].
  eexists _, cpu'. split; [reflexivity|]. split; reflexivity.
Qed.

Lemma parse_frame_trade (body : list byte) (cpu : Tsc) :
  exists m cpu',
    parse (frame MessageType.TRADE TradeMessage.sizeof body)
          (Z.of_nat (length (frame MessageType.TRADE TradeMessage.sizeof body)))
          cpu = (Some m, cpu')
    /\ type m = MessageType.TRADE
    /\ head (image m) = Some (type m).
Proof.
  unfold frame at 2. cbn [length]. unfold fetch at 1.
  rewrite length_map, length_seq.
  change (Z.of_nat (S (Z.to_nat TradeMessage.sizeof - 1))) with 46.
  unfold parse.
  change (byte_at (frame MessageType.TRADE TradeMessage.sizeof body) 0)
    with MessageType.TRADE.
  eval_tags. change (46 <? ITCHMessageHeader.sizeof) with false.
  change (46 =? TradeMessage.sizeof) with true. cbv iota.
  unfold parse_trade, finish.
  destruct (get_timestamp_ns cpu) as [now cpu'].
  eexists _, cpu'. split; [reflexivity|]. split; reflexivity.
Qed.

Lemma parse_alternating_frame (body : nat -> list byte) (i : nat) (cpu : Tsc) :
  exists m cpu',
    parse (alternating_frame body i)
          (Z.of_nat (length (alternating_frame body i))) cpu = (Some m, cpu')
    /\ type m = (if Nat.even i then MessageType.ADD_ORDER else MessageType.TRADE)
    /\ head (image m) = Some (type m).
Proof.
  unfold alternating_frame. destruct (Nat.even i).
  - apply parse_frame_add_order.
  - apply parse_frame_trade.
Qed.

Lemma decode_alternating (body : nat -> list byte) (n : nat) :
  forall (s : nat) (cpu : Tsc),
  let msgs := decode_frames (map (alternating_frame body) (seq s n)) cpu in
  map type msgs
    = map (fun i => if Nat.even i then MessageType.ADD_ORDER else MessageType.TRADE)
          (seq s n)
  /\ Forall (fun m => head (image m) = Some (type m)) msgs.
Proof.
  induction n as [|n IH]; intros s cpu; [split; [reflexivity|constructor]|].
  cbn [seq map decode_frames].
  destruct (parse_alternating_frame body s cpu) as (m & cpu' & E & Ht & Hh).
  rewrite E. destruct (IH (S s) cpu') as [IH1 IH2].
  cbn [map]. rewrite Ht, IH1. split; [reflexivity|].
  constructor; assumption.
Qed.

(** C2, on the code. The claim: after [start] of a [BUFFERED] logger, logging
    1000 records that alternate AddOrder and Trade and calling [stop] leaves
    a file of 500*36 + 500*44 = 40,000 bytes whose records' first bytes
    cycle A, P, A, P, ... The code: for every content of the frames, every
    interleaving of the worker with the 1000 calls of [log], and whatever
    the memory held before, all calls of [log] succeed, the file is the
    concatenation of the records' images in order, walking it by tag gives
    A, P, A, P, ... for 1000 records, and its length is 500*38 + 500*46 =
    42,000 bytes. *)
Theorem buffered_session_alternating (body : nat -> list byte) (cpu : Tsc)
    (lead : nat) (gap : nat -> nat) (qmem : nat -> ParsedMessage) (bufmem : Mem)
    (msg0 : ParsedMessage) (fuel : nat) :
  let msgs := decode_frames (alternating_frames body 1000) cpu in
  exists st,
    session (1001 + fuel) BUFFERED qmem bufmem msg0 (schedule lead gap msgs)
      = Some (replicate 1000 true, st)
    /\ map type msgs = alternating_tags 1000
    /\ file_contents (file_ st) = concat (map image msgs)
    /\ Z.of_nat (length (file_contents (file_ st))) = 42000
    /\ read_tags (length (file_contents (file_ st))) (file_contents (file_ st))
       = alternating_tags 1000.
Proof.
  intros msgs.
  destruct (decode_alternating body 1000 0 cpu) as [Htags Hheads].
  change (decode_frames (map (alternating_frame body) (seq 0 1000)) cpu)
    with msgs in Htags, Hheads.
  fold (alternating_tags 1000) in Htags.
  assert (Hn : length msgs = 1000%nat).
  { rewrite <- (length_map type), Htags. unfold alternating_tags.
    rewrite length_map, length_seq. reflexivity. }
  destruct (session_buffered (1001 + fuel) qmem bufmem msg0 (schedule lead gap msgs))
    as (st & E & Hfile).
  { rewrite logged_schedule, Hn. unfold QUEUE_SIZE. lia. }
  { rewrite logged_schedule, Hn. lia. }
  rewrite logged_schedule in E, Hfile. rewrite Hn in E.
  exists st. split; [exact E|]. split; [exact Htags|]. split; [exact Hfile|].
  assert (Hlen : Z.of_nat (length (file_contents (file_ st))) = 42000).
  { rewrite Hfile, length_concat_images, Htags. vm_compute. reflexivity. }
  split; [exact Hlen|].
  rewrite Hfile at 2. rewrite read_tags_images; [exact Htags|exact Hheads|].
  rewrite Hn. lia.
Qed.

(** ** Small sessions, evaluated

    Three records (AddOrder, Trade, AddOrder) with the worker running once
    before the first [log] and [i] times after the [i]-th. In [BUFFERED] and
    [MMAP] mode the file is 38 + 46 + 38 = 122 bytes long; in [DIRECT] mode
    the single write is rounded up to the alignment while [total_written_]
    counts the 122 bytes of the records. *)
Example session_of_three_buffered :
  let msgs := decode_frames (alternating_frames (fun _ => []) 3) [] in
  match session 4 BUFFERED (fun _ => unhandled_record) (fun _ => Byte.x00)
                unhandled_record (schedule 1 (fun i => i) msgs) with
  | Some (bs, st) =>
      bs = [true; true; true]
      /\ length (file_contents (file_ st)) = 122%nat
      /\ read_tags 122 (file_contents (file_ st)) = ["A"; "P"; "A"]%byte
      /\ get_total_written st = 122
  | None => False
  end.
Proof. vm_compute. repeat split; reflexivity. Qed.

Example session_of_three_mmap :
  let msgs := decode_frames (alternating_frames (fun _ => []) 3) [] in
  match session 4 MMAP (fun _ => unhandled_record) (fun _ => Byte.x00)
                unhandled_record (schedule 1 (fun i => i) msgs) with
  | Some (bs, st) =>
      bs = [true; true; true]
      /\ length (file_contents (file_ st)) = 122%nat
      /\ read_tags 122 (file_contents (file_ st)) = ["A"; "P"; "A"]%byte
      /\ get_total_written st = 122
  | None => False
  end.
Proof. vm_compute. repeat split; reflexivity. Qed.

Example session_of_three_direct :
  let msgs := decode_frames (alternating_frames (fun _ => []) 3) [] in
  match session 4 DIRECT (fun _ => unhandled_record) (fun _ => Byte.x00)
                unhandled_record (schedule 1 (fun i => i) msgs) with
  | Some (bs, st) =>
      bs = [true; true; true]
      /\ length (file_contents (file_ st)) = 4096%nat
      /\ take 122 (file_contents (file_ st)) = concat (map image msgs)
      /\ get_total_written st = 122
  | None => False
  end.
Proof. vm_compute. repeat split; reflexivity. Qed.

(* ===================================================================== *)
(** * Further properties *)
(* ===================================================================== *)

(** ** Further properties of the parser *)

(** X1. [parse] returns a value exactly when the first byte is one of the
    nine handled tags and [length] is [sizeof] of the struct that tag
    selects; in particular a length below the header size is never accepted. *)
Theorem parse_has_value_iff (data : list byte) (length : Z) (cpu : Tsc) :
  has_value (fst (parse data length cpu))
  = is_handled (byte_at data 0) && (length =? sizeof_variant (byte_at data 0)).
Proof.
  unfold parse, is_handled, handled_tags, sizeof_variant. cbn [existsb].
  generalize (byte_at data 0) as b. intros b.
  destruct (Z.ltb_spec length ITCHMessageHeader.sizeof) as [Hs|Hs];
    repeat match goal with
    | |- context [Byte.eqb b ?t] => destruct (Byte.eqb b t); cbn [orb andb]
    end;
    try match goal with
    | |- context [length =? ?s] =>
        destruct (Z.eqb_spec length s); cbn [negb]
    end;
    first [ apply finish_has_value | reflexivity
          | exfalso; revert Hs; unfold_sizeof; lia ].
Qed.


Lemma get_timestamp_ns_value (cpu : Tsc) :
  fst (get_timestamp_ns cpu)
  = match cpu with
    | [] => 0
    | (lo, hi) :: _ => (hi mod 2 ^ 32) * 2 ^ 32 + lo mod 2 ^ 32
    end.
Proof.
  unfold get_timestamp_ns, rdtsc. destruct cpu as [|[lo hi] cpu']; [reflexivity|].
  cbn [fst]. rewrite Z.or_to_plus.
  - rewrite Z.shiftl_mul_pow2 by lia. reflexivity.
  - Z.bitblast. subst. rewrite (Z.testbit_neg_r hi) by lia. reflexivity.
Qed.

Lemma get_timestamp_ns_range (cpu : Tsc) : 0 <= fst (get_timestamp_ns cpu) < 2 ^ 64.
Proof.
  rewrite get_timestamp_ns_value. destruct cpu as [|[lo hi] cpu']; [lia|].
  pose proof (Z.mod_pos_bound lo (2 ^ 32) ltac:(lia)).
  pose proof (Z.mod_pos_bound hi (2 ^ 32) ltac:(lia)). nia.
Qed.

Lemma get_timestamp_ns_cpu (cpu : Tsc) : snd (get_timestamp_ns cpu) = tail cpu.
Proof. unfold get_timestamp_ns, rdtsc. destruct cpu as [|[lo hi] cpu']; reflexivity. Qed.

Lemma finish_inv ty u cpu m cpu' :
  finish ty u cpu = (Some m, cpu') ->
  m = mkParsedMessage ty u (fst (get_timestamp_ns cpu))
  /\ cpu' = snd (get_timestamp_ns cpu).
Proof.
  unfold finish. destruct (get_timestamp_ns cpu) as [now c]. cbn.
  intros H. injection H as <- <-. auto.
Qed.

(** X2. What a returned record satisfies: [type] is the first byte of the
    input, the union holds the variant of that tag and its header carries
    the tag, the size the logger computes for the record is the accepted
    [length] and so is the length of its image, which starts with the tag;
    the parser executed [rdtsc] once and the stamp is a 64-bit value. *)
Theorem parse_some_sound (data : list byte) (length : Z) (cpu : Tsc)
    (m : ParsedMessage) (cpu' : Tsc) :
  parse data length cpu = (Some m, cpu') ->
  type m = byte_at data 0
  /\ union_tag (payload m) = type m
  /\ ITCHMessageHeader.message_type (union_header (payload m)) = type m
  /\ get_message_size m = length
  /\ Z.of_nat (List.length (image m)) = length
  /\ head (image m) = Some (type m)
  /\ parse_timestamp_ns m = fst (get_timestamp_ns cpu)
  /\ 0 <= parse_timestamp_ns m < 2 ^ 64
  /\ cpu' = tail cpu.
Proof.
  intros H.
  assert (Hcore :
    type m = byte_at data 0
    /\ union_tag (payload m) = type m
    /\ ITCHMessageHeader.message_type (union_header (payload m)) = type m
    /\ get_message_size m = length
    /\ head (image m) = Some (type m)
    /\ parse_timestamp_ns m = fst (get_timestamp_ns cpu)
    /\ cpu' = snd (get_timestamp_ns cpu)).
  { revert H. unfold parse.
    destruct (length <? ITCHMessageHeader.sizeof); [discriminate|].
    repeat match goal with
    | |- context [Byte.eqb (byte_at data 0) ?t] =>
        let E := fresh "E" in
        destruct (Byte.eqb (byte_at data 0) t) eqn:E;
        [ apply Byte.byte_dec_bl in E;
          match goal with
          | |- context [length =? ?s] =>
              destruct (Z.eqb_spec length s); cbn [negb]; [|discriminate]
          end;
          unfold parse_add_order, parse_execute_order, parse_execute_with_price,
            parse_order_cancel, parse_order_delete, parse_order_replace,
            parse_trade, parse_system_event, parse_stock_directory;
          intros H; apply finish_inv in H; destruct H as [-> ->];
          subst length; rewrite E;
          repeat split;
          first [ reflexivity
                | cbn; exact E
                | unfold image, get_message_size; cbn; rewrite E; reflexivity ]
        | ]
    end.
    discriminate. }
  destruct Hcore as (H1 & H2 & H3 & H4 & H5 & H6 & H7).
  repeat split; try assumption.
  - rewrite length_image. exact H4.
  - rewrite H6. apply get_timestamp_ns_range.
  - rewrite H6. apply get_timestamp_ns_range.
  - rewrite H7. apply get_timestamp_ns_cpu.
Qed.

Lemma parse_some_sound_witness :
  let m := mkParsedMessage MessageType.ADD_ORDER
             (add_order test_add_order_expected) 8589934593 in
  type m = byte_at test_add_order_frame 0
  /\ union_tag (payload m) = type m
  /\ ITCHMessageHeader.message_type (union_header (payload m)) = type m
  /\ get_message_size m = 38
  /\ Z.of_nat (List.length (image m)) = 38
  /\ head (image m) = Some (type m)
  /\ parse_timestamp_ns m = fst (get_timestamp_ns [(1, 2)])
  /\ 0 <= parse_timestamp_ns m < 2 ^ 64
  /\ [] = tail [(1, 2)].
Proof.
  apply (parse_some_sound test_add_order_frame 38 [(1, 2)]).
  vm_compute. reflexivity.
Defined.

Lemma byte_at_drop (bs : list byte) (n i : nat) :
  byte_at (drop n bs) i = byte_at bs (n + i).
Proof.
  unfold byte_at. rewrite !nth_lookup, lookup_drop. reflexivity.
Qed.

Lemma fetch_app (n k : nat) (bs : list byte) :
  fetch (n + k) bs = fetch n bs ++ fetch k (drop n bs).
Proof.
  unfold fetch. rewrite seq_app, map_app. f_equal.
  rewrite map_seq_shift. apply map_ext. intros i. symmetry. apply byte_at_drop.
Qed.

Lemma length_fetch (n : nat) (bs : list byte) : length (fetch n bs) = n.
Proof. unfold fetch. rewrite length_map, length_seq. reflexivity. Qed.

Lemma fetch_split (n k : nat) (bs bs' : list byte) :
  fetch (n + k) bs = fetch (n + k) bs' ->
  fetch n bs = fetch n bs' /\ fetch k (drop n bs) = fetch k (drop n bs').
Proof.
  rewrite !fetch_app. intros H. apply app_inj_1 in H; [exact H|].
  rewrite !length_fetch. reflexivity.
Qed.

Lemma reads_rret {A} (a : A) : reads_exactly 0 (rret a).
Proof. intros bs. split; reflexivity. Qed.

Lemma reads_rd_u8 : reads_exactly 1 rd_u8.
Proof.
  intros bs. split; [reflexivity|]. intros bs' H. unfold rd_u8. cbn [fst].
  unfold fetch in H. cbn in H. congruence.
Qed.

Lemma reads_rd_uint (k : nat) : reads_exactly k (rd_uint k).
Proof.
  intros bs. split; [reflexivity|]. intros bs' H. unfold rd_uint. cbn [fst].
  rewrite H. reflexivity.
Qed.

Lemma reads_rd_array (k : nat) : reads_exactly k (rd_array k).
Proof.
  intros bs. split; [reflexivity|]. intros bs' H. unfold rd_array. cbn [fst].
  apply vec_eq. intros i. rewrite !lookup_fun_to_vec.
  unfold fetch in H.
  assert (Hi : (fin_to_nat i < k)%nat) by apply fin_to_nat_lt.
  apply (f_equal (fun l => l !! fin_to_nat i)) in H.
  rewrite !list_lookup_fmap, lookup_seq_lt in H by exact Hi.
  cbn in H. congruence.
Qed.

Lemma reads_rbind {A B} (n k : nat) (m : Reader A) (f : A -> Reader B) :
  reads_exactly n m -> (forall a, reads_exactly k (f a)) ->
  reads_exactly (n + k) (rbind m f).
Proof.
  intros Hm Hf bs. unfold rbind.
  destruct (Hm bs) as [Hs Hv]. destruct (m bs) as [a bs1] eqn:E. cbn in Hs. subst bs1.
  destruct (Hf a (drop n bs)) as [Hs2 Hv2].
  split.
  - rewrite Hs2, drop_drop. reflexivity.
  - intros bs' H. apply fetch_split in H. destruct H as [H1 H2].
    destruct (Hm bs') as [Hs' _]. destruct (m bs') as [a' bs1'] eqn:E'.
    cbn in Hs'. subst bs1'.
    assert (a = a').
    { specialize (Hv bs' H1). rewrite E' in Hv. exact Hv. }
    subst a'. apply Hv2. exact H2.
Qed.

Ltac reads :=
  repeat first
    [ apply reads_rbind; [|intros]
    | apply reads_rd_u8 | apply reads_rd_uint | apply reads_rd_array
    | apply reads_rret | assumption ].

Lemma reads_header : reads_exactly 13 ITCHMessageHeader.view.
Proof.
  change 13%nat with (1 + (2 + (2 + (8 + 0))))%nat.
  unfold ITCHMessageHeader.view, rd_u16, rd_u64. reads.
Qed.

Lemma reads_add_order : reads_exactly 38 AddOrderMessage.view.
Proof.
  change 38%nat with (13 + (8 + (1 + (4 + (8 + (4 + 0))))))%nat.
  unfold AddOrderMessage.view, rd_u16, rd_u32, rd_u64.
  pose proof reads_header. reads.
Qed.

Lemma reads_execute_order : reads_exactly 33 ExecuteOrderMessage.view.
Proof.
  change 33%nat with (13 + (8 + (4 + (8 + 0))))%nat.
  unfold ExecuteOrderMessage.view, rd_u16, rd_u32, rd_u64.
  pose proof reads_header. reads.
Qed.

Lemma reads_execute_with_price : reads_exactly 38 ExecuteOrderWithPriceMessage.view.
Proof.
  change 38%nat with (13 + (8 + (4 + (8 + (1 + (4 + 0))))))%nat.
  unfold ExecuteOrderWithPriceMessage.view, rd_u16, rd_u32, rd_u64.
  pose proof reads_header. reads.
Qed.

Lemma reads_order_cancel : reads_exactly 25 OrderCancelMessage.view.
Proof.
  change 25%nat with (13 + (8 + (4 + 0)))%nat.
  unfold OrderCancelMessage.view, rd_u16, rd_u32, rd_u64.
  pose proof reads_header. reads.
Qed.

Lemma reads_order_delete : reads_exactly 21 OrderDeleteMessage.view.
Proof.
  change 21%nat with (13 + (8 + 0))%nat.
  unfold OrderDeleteMessage.view, rd_u16, rd_u32, rd_u64.
  pose proof reads_header. reads.
Qed.

Lemma reads_order_replace : reads_exactly 37 OrderReplaceMessage.view.
Proof.
  change 37%nat with (13 + (8 + (8 + (4 + (4 + 0)))))%nat.
  unfold OrderReplaceMessage.view, rd_u16, rd_u32, rd_u64.
  pose proof reads_header. reads.
Qed.

Lemma reads_trade : reads_exactly 46 TradeMessage.view.
Proof.
  change 46%nat with (13 + (8 + (1 + (4 + (8 + (4 + (8 + 0)))))))%nat.
  unfold TradeMessage.view, rd_u16, rd_u32, rd_u64.
  pose proof reads_header. reads.
Qed.

Lemma reads_system_event : reads_exactly 14 SystemEventMessage.view.
Proof.
  change 14%nat with (13 + (1 + 0))%nat.
  unfold SystemEventMessage.view, rd_u16, rd_u32, rd_u64.
  pose proof reads_header. reads.
Qed.

Lemma reads_stock_directory : reads_exactly 41 StockDirectoryMessage.view.
Proof.
  change 41%nat
    with (13 + (8 + (1 + (1 + (4 + (1 + (1 + (2 + (1 + (1 + (1 + (1 + (1
            + (4 + (1 + 0)))))))))))))))%nat.
  unfold StockDirectoryMessage.view, rd_u16, rd_u32, rd_u64.
  pose proof reads_header. reads.
Qed.

Lemma fetch_agree (n : nat) (length : Z) (data data' : list byte) :
  (forall i : nat, Z.of_nat i < length -> byte_at data i = byte_at data' i) ->
  Z.of_nat n <= length -> fetch n data = fetch n data'.
Proof.
  intros H Hn. unfold fetch. apply map_ext_in. intros i Hi.
  apply in_seq in Hi. apply H. lia.
Qed.

(** X3. [parse] depends on the bytes below [length] only: two inputs that
    agree on their first [length] bytes give the same result, so the parser
    never reads at or past [data + length]. *)
Theorem parse_reads_only_frame (data data' : list byte) (length : Z) (cpu : Tsc) :
  (forall i : nat, Z.of_nat i < length -> byte_at data i = byte_at data' i) ->
  parse data length cpu = parse data' length cpu.
Proof.
  intros H.
  pose proof reads_add_order. pose proof reads_execute_order.
  pose proof reads_execute_with_price. pose proof reads_order_cancel.
  pose proof reads_order_delete. pose proof reads_order_replace.
  pose proof reads_trade. pose proof reads_system_event.
  pose proof reads_stock_directory.
  unfold parse.
  destruct (Z.ltb_spec length ITCHMessageHeader.sizeof) as [|Hlen]; [reflexivity|].
  rewrite <- (H 0%nat) by (revert Hlen; unfold_sizeof; lia).
  repeat match goal with
  | |- context [Byte.eqb (byte_at data 0) ?t] =>
      destruct (Byte.eqb (byte_at data 0) t);
      [ match goal with
        | |- context [length =? ?s] =>
            destruct (Z.eqb_spec length s); cbn [negb]; [|reflexivity]
        end;
        unfold parse_add_order, parse_execute_order, parse_execute_with_price,
          parse_order_cancel, parse_order_delete, parse_order_replace,
          parse_trade, parse_system_event, parse_stock_directory;
        match goal with
        | |- context [fst (?view data)] =>
            match goal with
            | R : reads_exactly ?n view |- _ =>
                rewrite (proj2 (R data) data'
                           (fetch_agree n length data data' H
                              ltac:(subst length; vm_compute; discriminate)))
            end
        end; reflexivity
      | ]
  end.
  reflexivity.
Qed.

Lemma parse_reads_only_frame_witness :
  parse (frame MessageType.SYSTEM_EVENT 14 []) 14 []
  = parse (frame MessageType.SYSTEM_EVENT 14 [] ++ ["001"; "002"]%byte) 14 [].
Proof.
  apply parse_reads_only_frame. intros i Hi.
  do 14 (destruct i as [|i]; [reflexivity|]). lia.
Defined.

(** ** Reading back the object representation of a struct *)

Lemma fetch_prefix (l rest : list byte) : fetch (length l) (l ++ rest) = l.
Proof.
  unfold fetch. apply list_eq. intros i. rewrite list_lookup_fmap.
  destruct (Nat.lt_ge_cases i (length l)) as [Hlt|Hge].
  - rewrite lookup_seq_lt by exact Hlt. cbn. unfold byte_at.
    rewrite nth_lookup, lookup_app_l by exact Hlt.
    destruct (l !! i) eqn:E; [reflexivity|].
    apply lookup_ge_None in E. lia.
  - rewrite lookup_seq_ge by exact Hge. cbn. symmetry.
    apply lookup_ge_None. exact Hge.
Qed.

Lemma rd_u8_bytes (b : byte) (rest : list byte) :
  rd_u8 (u8_bytes b ++ rest) = (b, rest).
Proof. reflexivity. Qed.

Lemma rd_uint_bytes (n : nat) (x : Z) (rest : list byte) :
  rd_uint n (le_split n x ++ rest) = (x mod 2 ^ (Z.of_nat n * 8), rest).
Proof.
  unfold rd_uint. f_equal.
  - rewrite <- (length_le_split n x) at 1. rewrite fetch_prefix.
    apply le_combine_split.
  - apply drop_app_length'. symmetry. apply length_le_split.
Qed.

Lemma rd_array_bytes (n : nat) (v : vec byte n) (rest : list byte) :
  rd_array n (array_bytes v ++ rest) = (v, rest).
Proof.
  unfold rd_array, array_bytes. f_equal.
  - apply vec_eq. intros i. rewrite lookup_fun_to_vec. unfold byte_at.
    rewrite nth_lookup, lookup_app_l
      by (rewrite length_vec_to_list; apply fin_to_nat_lt).
    destruct (vec_to_list v !! fin_to_nat i) eqn:E.
    + cbn. apply vlookup_lookup in E. congruence.
    + apply lookup_ge_None in E. rewrite length_vec_to_list in E.
      pose proof (fin_to_nat_lt i). lia.
  - apply drop_app_length'. symmetry. apply length_vec_to_list.
Qed.



Ltac read_step :=
  first [ rewrite rd_u8_bytes | rewrite rd_uint_bytes | rewrite rd_array_bytes ];
  cbv beta iota.

Lemma mod_uint (bits x : Z) : is_uint bits x -> x mod 2 ^ bits = x.
Proof. intros H. apply Z.mod_small. exact H. Qed.

Lemma header_view_bytes (h : ITCHMessageHeader.t) (rest : list byte) :
  header_in_range h ->
  ITCHMessageHeader.view (ITCHMessageHeader.bytes h ++ rest) = (h, rest).
Proof.
  intros (H1 & H2 & H3). destruct h as [mt sl tn ts]. cbn in H1, H2, H3.
  unfold ITCHMessageHeader.view, ITCHMessageHeader.bytes, rbind, rret,
    rd_u16, rd_u64, u16_bytes, u64_bytes.
  cbn [ITCHMessageHeader.message_type ITCHMessageHeader.stock_locate
       ITCHMessageHeader.tracking_number ITCHMessageHeader.timestamp].
  rewrite <- !app_assoc. repeat read_step.
  change (Z.of_nat 2 * 8) with 16. change (Z.of_nat 8 * 8) with 64.
  rewrite !mod_uint by assumption. reflexivity.
Qed.

Lemma add_order_view_bytes (m : AddOrderMessage.t) (rest : list byte) :
  header_in_range (AddOrderMessage.header m) ->
  is_uint 64 (AddOrderMessage.order_reference_number m) ->
  is_uint 32 (AddOrderMessage.shares m) ->
  is_uint 32 (AddOrderMessage.price m) ->
  AddOrderMessage.view (AddOrderMessage.bytes m ++ rest) = (m, rest).
Proof.
  intros Hh H1 H2 H3. destruct m as [h orn side sh st pr]. cbn in Hh, H1, H2, H3.
  unfold AddOrderMessage.view, AddOrderMessage.bytes, rbind, rret,
    rd_u32, rd_u64, u32_bytes, u64_bytes.
  cbn [AddOrderMessage.header AddOrderMessage.order_reference_number
       AddOrderMessage.buy_sell_indicator AddOrderMessage.shares
       AddOrderMessage.stock AddOrderMessage.price].
  rewrite <- !app_assoc. rewrite header_view_bytes by exact Hh. cbv beta iota.
  repeat read_step.
  change (Z.of_nat 4 * 8) with 32. change (Z.of_nat 8 * 8) with 64.
  rewrite !mod_uint by assumption. reflexivity.
Qed.

Lemma execute_order_view_bytes (m : ExecuteOrderMessage.t) (rest : list byte) :
  header_in_range (ExecuteOrderMessage.header m) ->
  is_uint 64 (ExecuteOrderMessage.order_reference_number m) ->
  is_uint 32 (ExecuteOrderMessage.executed_shares m) ->
  is_uint 64 (ExecuteOrderMessage.match_number m) ->
  ExecuteOrderMessage.view (ExecuteOrderMessage.bytes m ++ rest) = (m, rest).
Proof.
  intros Hh H1 H2 H3. destruct m as [h orn es mn]. cbn in Hh, H1, H2, H3.
  unfold ExecuteOrderMessage.view, ExecuteOrderMessage.bytes, rbind, rret,
    rd_u32, rd_u64, u32_bytes, u64_bytes.
  cbn [ExecuteOrderMessage.header ExecuteOrderMessage.order_reference_number
       ExecuteOrderMessage.executed_shares ExecuteOrderMessage.match_number].
  rewrite <- !app_assoc. rewrite header_view_bytes by exact Hh. cbv beta iota.
  repeat read_step.
  change (Z.of_nat 4 * 8) with 32. change (Z.of_nat 8 * 8) with 64.
  rewrite !mod_uint by assumption. reflexivity.
Qed.

Lemma trade_view_bytes (m : TradeMessage.t) (rest : list byte) :
  header_in_range (TradeMessage.header m) ->
  is_uint 64 (TradeMessage.order_reference_number m) ->
  is_uint 32 (TradeMessage.shares m) ->
  is_uint 32 (TradeMessage.price m) ->
  is_uint 64 (TradeMessage.match_number m) ->
  TradeMessage.view (TradeMessage.bytes m ++ rest) = (m, rest).
Proof.
  intros Hh H1 H2 H3 H4. destruct m as [h orn side sh st pr mn].
  cbn in Hh, H1, H2, H3, H4.
  unfold TradeMessage.view, TradeMessage.bytes, rbind, rret,
    rd_u32, rd_u64, u32_bytes, u64_bytes.
  cbn [TradeMessage.header TradeMessage.order_reference_number
       TradeMessage.buy_sell_indicator TradeMessage.shares TradeMessage.stock
       TradeMessage.price TradeMessage.match_number].
  rewrite <- !app_assoc. rewrite header_view_bytes by exact Hh. cbv beta iota.
  repeat read_step.
  change (Z.of_nat 4 * 8) with 32. change (Z.of_nat 8 * 8) with 64.
  rewrite !mod_uint by assumption. reflexivity.
Qed.

Lemma bswap_range (n : nat) (x : Z) : is_uint (Z.of_nat n * 8) (bswap n x).
Proof.
  unfold is_uint, bswap.
  pose proof (le_combine_bound (rev (le_split n x))) as H.
  rewrite length_rev, length_le_split in H.
  replace (Z.of_nat n * 8) with (8 * Z.of_nat n) by lia. exact H.
Qed.

Lemma hton16_range x : is_uint 16 (hton16 x).
Proof. apply (bswap_range 2). Qed.
Lemma hton32_range x : is_uint 32 (hton32 x).
Proof. apply (bswap_range 4). Qed.
Lemma hton64_range x : is_uint 64 (hton64 x).
Proof. apply (bswap_range 8). Qed.

Lemma ntoh16_hton16 x : is_uint 16 x -> ntoh16 (hton16 x) = x.
Proof. apply (bswap_involutive 2). Qed.
Lemma ntoh32_hton32 x : is_uint 32 x -> ntoh32 (hton32 x) = x.
Proof. apply (bswap_involutive 4). Qed.
Lemma ntoh64_hton64 x : is_uint 64 x -> ntoh64 (hton64 x) = x.
Proof. apply (bswap_involutive 8). Qed.

Lemma length_header_bytes h : length (ITCHMessageHeader.bytes h) = 13%nat.
Proof.
  unfold ITCHMessageHeader.bytes, u8_bytes, u16_bytes, u64_bytes.
  rewrite !length_app, !length_le_split. reflexivity.
Qed.

Lemma length_add_order_bytes m : length (AddOrderMessage.bytes m) = 38%nat.
Proof.
  unfold AddOrderMessage.bytes, u8_bytes, u32_bytes, u64_bytes, array_bytes.
  rewrite !length_app, length_header_bytes, !length_le_split, length_vec_to_list.
  reflexivity.
Qed.

Lemma length_execute_order_bytes m : length (ExecuteOrderMessage.bytes m) = 33%nat.
Proof.
  unfold ExecuteOrderMessage.bytes, u8_bytes, u32_bytes, u64_bytes.
  rewrite !length_app, length_header_bytes, !length_le_split. reflexivity.
Qed.

Lemma length_trade_bytes m : length (TradeMessage.bytes m) = 46%nat.
Proof.
  unfold TradeMessage.bytes, u8_bytes, u32_bytes, u64_bytes, array_bytes.
  rewrite !length_app, length_header_bytes, !length_le_split, length_vec_to_list.
  reflexivity.
Qed.

(** Parsing the object representation of a wire struct. *)
Lemma parse_add_order_bytes (w : AddOrderMessage.t) (cpu : Tsc) :
  ITCHMessageHeader.message_type (AddOrderMessage.header w) = MessageType.ADD_ORDER ->
  header_in_range (AddOrderMessage.header w) ->
  is_uint 64 (AddOrderMessage.order_reference_number w) ->
  is_uint 32 (AddOrderMessage.shares w) ->
  is_uint 32 (AddOrderMessage.price w) ->
  parse (AddOrderMessage.bytes w) (Z.of_nat (length (AddOrderMessage.bytes w))) cpu
  = finish MessageType.ADD_ORDER
      (add_order (AddOrderMessage.mk
         (parse_header (AddOrderMessage.header w))
         (ntoh64 (AddOrderMessage.order_reference_number w))
         (AddOrderMessage.buy_sell_indicator w)
         (ntoh32 (AddOrderMessage.shares w))
         (AddOrderMessage.stock w)
         (ntoh32 (AddOrderMessage.price w)))) cpu.
Proof.
  intros Hty Hh H1 H2 H3. rewrite length_add_order_bytes. unfold parse.
  assert (H0 : byte_at (AddOrderMessage.bytes w) 0 = MessageType.ADD_ORDER).
  { rewrite <- Hty. destruct w as [[mt sl tn ts] ? ? ? ? ?]. reflexivity. }
  rewrite H0. eval_tags.
  change (Z.of_nat 38 <? ITCHMessageHeader.sizeof) with false.
  change (negb (Z.of_nat 38 =? AddOrderMessage.sizeof)) with false. cbv iota.
  unfold parse_add_order.
  rewrite <- (app_nil_r (AddOrderMessage.bytes w)).
  rewrite add_order_view_bytes by assumption. reflexivity.
Qed.

(** ** The message generators of the demo and the benchmark *)

Lemma parse_execute_order_bytes (w : ExecuteOrderMessage.t) (cpu : Tsc) :
  ITCHMessageHeader.message_type (ExecuteOrderMessage.header w)
  = MessageType.EXECUTE_ORDER ->
  header_in_range (ExecuteOrderMessage.header w) ->
  is_uint 64 (ExecuteOrderMessage.order_reference_number w) ->
  is_uint 32 (ExecuteOrderMessage.executed_shares w) ->
  is_uint 64 (ExecuteOrderMessage.match_number w) ->
  parse (ExecuteOrderMessage.bytes w)
        (Z.of_nat (length (ExecuteOrderMessage.bytes w))) cpu
  = finish MessageType.EXECUTE_ORDER
      (execute_order (ExecuteOrderMessage.mk
         (parse_header (ExecuteOrderMessage.header w))
         (ntoh64 (ExecuteOrderMessage.order_reference_number w))
         (ntoh32 (ExecuteOrderMessage.executed_shares w))
         (ntoh64 (ExecuteOrderMessage.match_number w)))) cpu.
Proof.
  intros Hty Hh H1 H2 H3. rewrite length_execute_order_bytes. unfold parse.
  assert (H0 : byte_at (ExecuteOrderMessage.bytes w) 0 = MessageType.EXECUTE_ORDER).
  { rewrite <- Hty. destruct w as [[mt sl tn ts] ? ? ?]. reflexivity. }
  rewrite H0. eval_tags.
  change (Z.of_nat 33 <? ITCHMessageHeader.sizeof) with false.
  change (negb (Z.of_nat 33 =? ExecuteOrderMessage.sizeof)) with false. cbv iota.
  unfold parse_execute_order.
  rewrite <- (app_nil_r (ExecuteOrderMessage.bytes w)).
  rewrite execute_order_view_bytes by assumption. reflexivity.
Qed.

Lemma parse_trade_bytes (w : TradeMessage.t) (cpu : Tsc) :
  ITCHMessageHeader.message_type (TradeMessage.header w) = MessageType.TRADE ->
  header_in_range (TradeMessage.header w) ->
  is_uint 64 (TradeMessage.order_reference_number w) ->
  is_uint 32 (TradeMessage.shares w) ->
  is_uint 32 (TradeMessage.price w) ->
  is_uint 64 (TradeMessage.match_number w) ->
  parse (TradeMessage.bytes w) (Z.of_nat (length (TradeMessage.bytes w))) cpu
  = finish MessageType.TRADE
      (trade (TradeMessage.mk
         (parse_header (TradeMessage.header w))
         (ntoh64 (TradeMessage.order_reference_number w))
         (TradeMessage.buy_sell_indicator w)
         (ntoh32 (TradeMessage.shares w))
         (TradeMessage.stock w)
         (ntoh32 (TradeMessage.price w))
         (ntoh64 (TradeMessage.match_number w)))) cpu.
Proof.
  intros Hty Hh H1 H2 H3 H4. rewrite length_trade_bytes. unfold parse.
  assert (H0 : byte_at (TradeMessage.bytes w) 0 = MessageType.TRADE).
  { rewrite <- Hty. destruct w as [[mt sl tn ts] ? ? ? ? ? ?]. reflexivity. }
  rewrite H0. eval_tags.
  change (Z.of_nat 46 <? ITCHMessageHeader.sizeof) with false.
  change (Z.of_nat 46 =? TradeMessage.sizeof) with true. cbv iota.
  unfold parse_trade.
  rewrite <- (app_nil_r (TradeMessage.bytes w)).
  rewrite trade_view_bytes by assumption. reflexivity.
Qed.

Lemma header_in_range_hton mt a b c :
  header_in_range (ITCHMessageHeader.mk mt (hton16 a) (hton16 b) (hton64 c)).
Proof.
  unfold header_in_range. cbn.
  repeat split; first [apply hton16_range | apply hton64_range].
Qed.

Lemma is_uint_mod (bits x : Z) : 0 <= bits -> is_uint bits (x mod 2 ^ bits).
Proof. intros. unfold is_uint. apply Z.mod_pos_bound. apply Z.pow_pos_nonneg; lia. Qed.

Lemma parse_header_hton mt a b c :
  is_uint 16 a -> is_uint 16 b -> is_uint 64 c ->
  parse_header (ITCHMessageHeader.mk mt (hton16 a) (hton16 b) (hton64 c))
  = ITCHMessageHeader.mk mt a b c.
Proof.
  intros. unfold parse_header. cbn.
  rewrite !ntoh16_hton16, ntoh64_hton64 by assumption. reflexivity.
Qed.

(** X5. The frame [create_add_order] builds is accepted by [parse] when
    passed with its own size, and the record returned holds exactly the
    arguments: stock locate 1, the tracking number [seq_] truncated to 16
    bits, the timestamp, the reference [100000 + seq_] computed in 32 bits
    with the incremented [seq_], the side, the shares, the symbol padded to
    8 characters and the price. *)
Theorem parse_create_add_order (g : DemoMessageGenerator.t) (now : Z)
  (symbol : list byte) (side : byte) (shares price_cents : Z) (cpu : Tsc) :
  is_uint 32 (DemoMessageGenerator.seq_ g) -> is_uint 64 now ->
  is_uint 32 shares -> is_uint 32 price_cents ->
  let r :=
    DemoMessageGenerator.create_add_order g now symbol side shares price_cents in
  DemoMessageGenerator.seq_ (snd r) = (DemoMessageGenerator.seq_ g + 1) mod 2 ^ 32
  /\ parse (fst r) (Z.of_nat (length (fst r))) cpu
     = (Some (mkParsedMessage MessageType.ADD_ORDER
          (add_order (AddOrderMessage.mk
             (ITCHMessageHeader.mk MessageType.ADD_ORDER 1
                (DemoMessageGenerator.seq_ g mod 2 ^ 16) now)
             ((100000 + DemoMessageGenerator.seq_ (snd r)) mod 2 ^ 32)
             side shares (padded_symbol symbol) price_cents))
          (fst (get_timestamp_ns cpu))),
        tail cpu).
Proof.
  intros Hs Hn Hsh Hp. unfold DemoMessageGenerator.create_add_order.
  cbv zeta. cbn [fst snd DemoMessageGenerator.seq_]. split; [reflexivity|].
  rewrite parse_add_order_bytes;
    [ | reflexivity | apply header_in_range_hton
      | apply hton64_range | apply hton32_range | apply hton32_range ].
  cbn [AddOrderMessage.header AddOrderMessage.order_reference_number
       AddOrderMessage.buy_sell_indicator AddOrderMessage.shares
       AddOrderMessage.stock AddOrderMessage.price].
  rewrite parse_header_hton;
    [ | unfold is_uint; lia | apply (is_uint_mod 16); lia | assumption ].
  rewrite ntoh64_hton64, !ntoh32_hton32;
    [ | assumption | assumption
      | pose proof (is_uint_mod 32 (100000 + (DemoMessageGenerator.seq_ g + 1) mod 2 ^ 32) ltac:(lia));
        unfold is_uint in *; lia ].
  unfold finish. rewrite (surjective_pairing (get_timestamp_ns cpu)).
  rewrite get_timestamp_ns_cpu. reflexivity.
Qed.

Lemma parse_create_add_order_witness :
  let r :=
    DemoMessageGenerator.create_add_order (DemoMessageGenerator.mk 0) 1000
      ["A"; "A"; "P"; "L"]%byte "B"%byte 100 1500000 in
  DemoMessageGenerator.seq_ (snd r)
  = (DemoMessageGenerator.seq_ (DemoMessageGenerator.mk 0) + 1) mod 2 ^ 32
  /\ parse (fst r) (Z.of_nat (length (fst r))) []
     = (Some (mkParsedMessage MessageType.ADD_ORDER
          (add_order (AddOrderMessage.mk
             (ITCHMessageHeader.mk MessageType.ADD_ORDER 1
                (DemoMessageGenerator.seq_ (DemoMessageGenerator.mk 0) mod 2 ^ 16)
                1000)
             ((100000 + DemoMessageGenerator.seq_ (snd r)) mod 2 ^ 32)
             "B"%byte 100 (padded_symbol ["A"; "A"; "P"; "L"]%byte) 1500000))
          (fst (get_timestamp_ns []))),
        tail []).
Proof.
  apply (parse_create_add_order (DemoMessageGenerator.mk 0) 1000
           ["A"; "A"; "P"; "L"]%byte "B"%byte 100 1500000 []);
    unfold is_uint; cbn; lia.
Defined.

Lemma is_uint_add_mod (k x : Z) : is_uint 32 ((k + x) mod 2 ^ 32).
Proof. apply (is_uint_mod 32). lia. Qed.

Lemma is_uint_32_64 x : is_uint 32 x -> is_uint 64 x.
Proof. unfold is_uint. lia. Qed.

Lemma finish_value ty u cpu :
  finish ty u cpu
  = (Some (mkParsedMessage ty u (fst (get_timestamp_ns cpu))), tail cpu).
Proof.
  unfold finish. rewrite (surjective_pairing (get_timestamp_ns cpu)).
  rewrite get_timestamp_ns_cpu. reflexivity.
Qed.

(** X6. The frame [create_trade] builds is accepted by [parse] when passed
    with its own size, and the record returned holds exactly the arguments,
    with the reference [100000 + seq_] and the match number [500000 + seq_]
    computed in 32 bits with the incremented [seq_]. *)
Theorem parse_create_trade (g : DemoMessageGenerator.t) (now : Z)
  (symbol : list byte) (side : byte) (shares price_cents : Z) (cpu : Tsc) :
  is_uint 32 (DemoMessageGenerator.seq_ g) -> is_uint 64 now ->
  is_uint 32 shares -> is_uint 32 price_cents ->
  let r :=
    DemoMessageGenerator.create_trade g now symbol side shares price_cents in
  DemoMessageGenerator.seq_ (snd r) = (DemoMessageGenerator.seq_ g + 1) mod 2 ^ 32
  /\ parse (fst r) (Z.of_nat (length (fst r))) cpu
     = (Some (mkParsedMessage MessageType.TRADE
          (trade (TradeMessage.mk
             (ITCHMessageHeader.mk MessageType.TRADE 1
                (DemoMessageGenerator.seq_ g mod 2 ^ 16) now)
             ((100000 + DemoMessageGenerator.seq_ (snd r)) mod 2 ^ 32)
             side shares (padded_symbol symbol) price_cents
             ((500000 + DemoMessageGenerator.seq_ (snd r)) mod 2 ^ 32)))
          (fst (get_timestamp_ns cpu))),
        tail cpu).
Proof.
  intros Hs Hn Hsh Hp. unfold DemoMessageGenerator.create_trade.
  cbv zeta. cbn [fst snd DemoMessageGenerator.seq_]. split; [reflexivity|].
  rewrite parse_trade_bytes;
    [ | reflexivity | apply header_in_range_hton
      | apply hton64_range | apply hton32_range | apply hton32_range
      | apply hton64_range ].
  cbn [TradeMessage.header TradeMessage.order_reference_number
       TradeMessage.buy_sell_indicator TradeMessage.shares
       TradeMessage.stock TradeMessage.price TradeMessage.match_number].
  rewrite parse_header_hton;
    [ | unfold is_uint; lia | apply (is_uint_mod 16); lia | assumption ].
  rewrite !ntoh64_hton64, !ntoh32_hton32;
    try assumption; try (apply is_uint_32_64, is_uint_add_mod).
  apply finish_value.
Qed.

Lemma parse_create_trade_witness :
  let r :=
    DemoMessageGenerator.create_trade (DemoMessageGenerator.mk 2) 1000
      ["G"; "O"; "O"; "G"; "L"]%byte "B"%byte 25 1400000 in
  DemoMessageGenerator.seq_ (snd r)
  = (DemoMessageGenerator.seq_ (DemoMessageGenerator.mk 2) + 1) mod 2 ^ 32
  /\ parse (fst r) (Z.of_nat (length (fst r))) []
     = (Some (mkParsedMessage MessageType.TRADE
          (trade (TradeMessage.mk
             (ITCHMessageHeader.mk MessageType.TRADE 1
                (DemoMessageGenerator.seq_ (DemoMessageGenerator.mk 2) mod 2 ^ 16)
                1000)
             ((100000 + DemoMessageGenerator.seq_ (snd r)) mod 2 ^ 32)
             "B"%byte 25 (padded_symbol ["G"; "O"; "O"; "G"; "L"]%byte) 1400000
             ((500000 + DemoMessageGenerator.seq_ (snd r)) mod 2 ^ 32)))
          (fst (get_timestamp_ns []))),
        tail []).
Proof.
  apply (parse_create_trade (DemoMessageGenerator.mk 2) 1000
           ["G"; "O"; "O"; "G"; "L"]%byte "B"%byte 25 1400000 []);
    unfold is_uint; cbn; lia.
Defined.

Lemma get_timestamp_ns_is_uint cpu : is_uint 64 (fst (get_timestamp_ns cpu)).
Proof. apply get_timestamp_ns_range. Qed.

Lemma SystemUtils_rdtsc_eq cpu : SystemUtils.rdtsc cpu = get_timestamp_ns cpu.
Proof. reflexivity. Qed.

(** X7. The benchmark's [generate_add_order] reads the time-stamp counter
    once for the header timestamp; the frame it builds is accepted by
    [parse], which reads the counter a second time, and the record returned
    holds the generator's values: tracking number [counter_] truncated to 16
    bits, reference [1000000 + counter_] in 32 bits, 100 shares of
    ["AAPL    "] at 1500000 on side ['B']. *)
Theorem parse_generate_add_order (g : MessageGenerator.t) (cpu : Tsc) :
  is_uint 32 (MessageGenerator.counter_ g) ->
  let r := MessageGenerator.generate_add_order g cpu in
  let msg := fst (fst r) in
  let g' := snd (fst r) in
  let cpu' := snd r in
  MessageGenerator.counter_ g' = (MessageGenerator.counter_ g + 1) mod 2 ^ 32
  /\ cpu' = tail cpu
  /\ parse msg (Z.of_nat (length msg)) cpu'
     = (Some (mkParsedMessage MessageType.ADD_ORDER
          (add_order (AddOrderMessage.mk
             (ITCHMessageHeader.mk MessageType.ADD_ORDER 1
                (MessageGenerator.counter_ g mod 2 ^ 16)
                (fst (SystemUtils.rdtsc cpu)))
             ((1000000 + MessageGenerator.counter_ g') mod 2 ^ 32)
             "B"%byte 100 MessageGenerator.AAPL 1500000))
          (fst (get_timestamp_ns cpu'))),
        tail cpu').
Proof.
  intros Hs. unfold MessageGenerator.generate_add_order.
  rewrite SystemUtils_rdtsc_eq.
  rewrite (surjective_pairing (get_timestamp_ns cpu)), get_timestamp_ns_cpu.
  cbv zeta. cbn [fst snd MessageGenerator.counter_].
  split; [reflexivity|]. split; [reflexivity|].
  rewrite parse_add_order_bytes;
    [ | reflexivity | apply header_in_range_hton
      | apply hton64_range | apply hton32_range | apply hton32_range ].
  cbn [AddOrderMessage.header AddOrderMessage.order_reference_number
       AddOrderMessage.buy_sell_indicator AddOrderMessage.shares
       AddOrderMessage.stock AddOrderMessage.price].
  rewrite parse_header_hton;
    [ | unfold is_uint; lia | apply (is_uint_mod 16); lia
      | apply get_timestamp_ns_is_uint ].
  rewrite ntoh64_hton64, !ntoh32_hton32;
    [ | unfold is_uint; lia | unfold is_uint; lia
      | apply is_uint_32_64, is_uint_add_mod ].
  apply finish_value.
Qed.

Lemma parse_generate_add_order_witness :
  let r := MessageGenerator.generate_add_order (MessageGenerator.mk 65536)
             [(7, 0); (9, 0)] in
  let msg := fst (fst r) in
  let g' := snd (fst r) in
  let cpu' := snd r in
  MessageGenerator.counter_ g'
  = (MessageGenerator.counter_ (MessageGenerator.mk 65536) + 1) mod 2 ^ 32
  /\ cpu' = tail [(7, 0); (9, 0)]
  /\ parse msg (Z.of_nat (length msg)) cpu'
     = (Some (mkParsedMessage MessageType.ADD_ORDER
          (add_order (AddOrderMessage.mk
             (ITCHMessageHeader.mk MessageType.ADD_ORDER 1
                (MessageGenerator.counter_ (MessageGenerator.mk 65536) mod 2 ^ 16)
                (fst (SystemUtils.rdtsc [(7, 0); (9, 0)])))
             ((1000000 + MessageGenerator.counter_ g') mod 2 ^ 32)
             "B"%byte 100 MessageGenerator.AAPL 1500000))
          (fst (get_timestamp_ns cpu'))),
        tail cpu').
Proof.
  apply (parse_generate_add_order (MessageGenerator.mk 65536) [(7, 0); (9, 0)]).
  unfold is_uint. cbn. lia.
Defined.

(** X8. The benchmark's [generate_execute_order]: the frame is accepted by
    [parse] and the record returned holds the generator's values, the
    reference [1000000 + counter_] and the match number
    [5000000 + counter_] in 32 bits, and 50 executed shares. *)
Theorem parse_generate_execute_order (g : MessageGenerator.t) (cpu : Tsc) :
  is_uint 32 (MessageGenerator.counter_ g) ->
  let r := MessageGenerator.generate_execute_order g cpu in
  let msg := fst (fst r) in
  let g' := snd (fst r) in
  let cpu' := snd r in
  MessageGenerator.counter_ g' = (MessageGenerator.counter_ g + 1) mod 2 ^ 32
  /\ cpu' = tail cpu
  /\ parse msg (Z.of_nat (length msg)) cpu'
     = (Some (mkParsedMessage MessageType.EXECUTE_ORDER
          (execute_order (ExecuteOrderMessage.mk
             (ITCHMessageHeader.mk MessageType.EXECUTE_ORDER 1
                (MessageGenerator.counter_ g mod 2 ^ 16)
                (fst (SystemUtils.rdtsc cpu)))
             ((1000000 + MessageGenerator.counter_ g') mod 2 ^ 32)
             50
             ((5000000 + MessageGenerator.counter_ g') mod 2 ^ 32)))
          (fst (get_timestamp_ns cpu'))),
        tail cpu').
Proof.
  intros Hs. unfold MessageGenerator.generate_execute_order.
  rewrite SystemUtils_rdtsc_eq.
  rewrite (surjective_pairing (get_timestamp_ns cpu)), get_timestamp_ns_cpu.
  cbv zeta. cbn [fst snd MessageGenerator.counter_].
  split; [reflexivity|]. split; [reflexivity|].
  rewrite parse_execute_order_bytes;
    [ | reflexivity | apply header_in_range_hton
      | apply hton64_range | apply hton32_range | apply hton64_range ].
  cbn [ExecuteOrderMessage.header ExecuteOrderMessage.order_reference_number
       ExecuteOrderMessage.executed_shares ExecuteOrderMessage.match_number].
  rewrite parse_header_hton;
    [ | unfold is_uint; lia | apply (is_uint_mod 16); lia
      | apply get_timestamp_ns_is_uint ].
  rewrite !ntoh64_hton64, !ntoh32_hton32;
    [ | unfold is_uint; lia | apply is_uint_32_64, is_uint_add_mod
      | apply is_uint_32_64, is_uint_add_mod ].
  apply finish_value.
Qed.

Lemma parse_generate_execute_order_witness :
  let r := MessageGenerator.generate_execute_order (MessageGenerator.mk 1)
             [(7, 0); (9, 0)] in
  let msg := fst (fst r) in
  let g' := snd (fst r) in
  let cpu' := snd r in
  MessageGenerator.counter_ g'
  = (MessageGenerator.counter_ (MessageGenerator.mk 1) + 1) mod 2 ^ 32
  /\ cpu' = tail [(7, 0); (9, 0)]
  /\ parse msg (Z.of_nat (length msg)) cpu'
     = (Some (mkParsedMessage MessageType.EXECUTE_ORDER
          (execute_order (ExecuteOrderMessage.mk
             (ITCHMessageHeader.mk MessageType.EXECUTE_ORDER 1
                (MessageGenerator.counter_ (MessageGenerator.mk 1) mod 2 ^ 16)
                (fst (SystemUtils.rdtsc [(7, 0); (9, 0)])))
             ((1000000 + MessageGenerator.counter_ g') mod 2 ^ 32)
             50
             ((5000000 + MessageGenerator.counter_ g') mod 2 ^ 32)))
          (fst (get_timestamp_ns cpu'))),
        tail cpu').
Proof.
  apply (parse_generate_execute_order (MessageGenerator.mk 1) [(7, 0); (9, 0)]).
  unfold is_uint. cbn. lia.
Defined.

(** X9. A symbol of at most 8 characters that does not end in a space
    survives the demo's padding and the parser's symbol extraction:
    [get_stock_symbol] of the padded array is the symbol itself. *)
Theorem get_stock_symbol_padded (symbol : list byte) :
  (length symbol <= 8)%nat ->
  last symbol <> Some space ->
  get_stock_symbol (padded_symbol symbol) = symbol.
Proof.
  intros Hlen Hlast.
  do 9 (try destruct symbol as [|? symbol]); cbn [length] in Hlen; try lia;
    cbn [last] in Hlast;
    unfold get_stock_symbol, padded_symbol;
    cbn -[Byte.eqb space];
    repeat match goal with
    | |- context [Byte.eqb space space] =>
        change (Byte.eqb space space) with true; cbv iota
    end;
    try reflexivity;
    match goal with
    | H : Some ?c <> Some space |- _ =>
        assert (Hc : Byte.eqb c space = false)
          by (apply eqb_space_false; congruence);
        rewrite Hc; reflexivity
    end.
Qed.

Lemma get_stock_symbol_padded_witness :
  get_stock_symbol (padded_symbol ["A"; "A"; "P"; "L"]%byte)
  = ["A"; "A"; "P"; "L"]%byte.
Proof.
  apply get_stock_symbol_padded.
  - cbn. lia.
  - cbn. discriminate.
Defined.

(** ** Reading back what the logger stores *)

Ltac view_bytes_tac :=
  unfold ExecuteOrderWithPriceMessage.view, ExecuteOrderWithPriceMessage.bytes,
    OrderCancelMessage.view, OrderCancelMessage.bytes,
    OrderDeleteMessage.view, OrderDeleteMessage.bytes,
    OrderReplaceMessage.view, OrderReplaceMessage.bytes,
    SystemEventMessage.view, SystemEventMessage.bytes,
    StockDirectoryMessage.view, StockDirectoryMessage.bytes,
    rbind, rret, rd_u32, rd_u64, u32_bytes, u64_bytes;
  cbn [ExecuteOrderWithPriceMessage.header
       ExecuteOrderWithPriceMessage.order_reference_number
       ExecuteOrderWithPriceMessage.executed_shares
       ExecuteOrderWithPriceMessage.match_number
       ExecuteOrderWithPriceMessage.printable
       ExecuteOrderWithPriceMessage.execution_price
       OrderCancelMessage.header OrderCancelMessage.order_reference_number
       OrderCancelMessage.cancelled_shares
       OrderDeleteMessage.header OrderDeleteMessage.order_reference_number
       OrderReplaceMessage.header
       OrderReplaceMessage.original_order_reference_number
       OrderReplaceMessage.new_order_reference_number
       OrderReplaceMessage.shares OrderReplaceMessage.price
       SystemEventMessage.header SystemEventMessage.event_code
       StockDirectoryMessage.header StockDirectoryMessage.stock
       StockDirectoryMessage.market_category
       StockDirectoryMessage.financial_status_indicator
       StockDirectoryMessage.round_lot_size
       StockDirectoryMessage.round_lots_only
       StockDirectoryMessage.issue_classification
       StockDirectoryMessage.issue_sub_type
       StockDirectoryMessage.authenticity
       StockDirectoryMessage.short_sale_threshold_indicator
       StockDirectoryMessage.ipo_flag
       StockDirectoryMessage.luld_reference_price_tier
       StockDirectoryMessage.etp_flag
       StockDirectoryMessage.etp_leverage_factor
       StockDirectoryMessage.inverse_indicator];
  rewrite <- ?app_assoc;
  match goal with
  | Hh : header_in_range _ |- _ => rewrite header_view_bytes by exact Hh
  end;
  cbv beta iota; repeat read_step;
  change (Z.of_nat 4 * 8) with 32; change (Z.of_nat 8 * 8) with 64;
  rewrite ?mod_uint by assumption; reflexivity.

Lemma execute_with_price_view_bytes (m : ExecuteOrderWithPriceMessage.t)
    (rest : list byte) :
  header_in_range (ExecuteOrderWithPriceMessage.header m) ->
  is_uint 64 (ExecuteOrderWithPriceMessage.order_reference_number m) ->
  is_uint 32 (ExecuteOrderWithPriceMessage.executed_shares m) ->
  is_uint 64 (ExecuteOrderWithPriceMessage.match_number m) ->
  is_uint 32 (ExecuteOrderWithPriceMessage.execution_price m) ->
  ExecuteOrderWithPriceMessage.view (ExecuteOrderWithPriceMessage.bytes m ++ rest)
  = (m, rest).
Proof.
  intros Hh H1 H2 H3 H4. destruct m. cbn in Hh, H1, H2, H3, H4. view_bytes_tac.
Qed.

Lemma order_cancel_view_bytes (m : OrderCancelMessage.t) (rest : list byte) :
  header_in_range (OrderCancelMessage.header m) ->
  is_uint 64 (OrderCancelMessage.order_reference_number m) ->
  is_uint 32 (OrderCancelMessage.cancelled_shares m) ->
  OrderCancelMessage.view (OrderCancelMessage.bytes m ++ rest) = (m, rest).
Proof. intros Hh H1 H2. destruct m. cbn in Hh, H1, H2. view_bytes_tac. Qed.

Lemma order_delete_view_bytes (m : OrderDeleteMessage.t) (rest : list byte) :
  header_in_range (OrderDeleteMessage.header m) ->
  is_uint 64 (OrderDeleteMessage.order_reference_number m) ->
  OrderDeleteMessage.view (OrderDeleteMessage.bytes m ++ rest) = (m, rest).
Proof. intros Hh H1. destruct m. cbn in Hh, H1. view_bytes_tac. Qed.

Lemma order_replace_view_bytes (m : OrderReplaceMessage.t) (rest : list byte) :
  header_in_range (OrderReplaceMessage.header m) ->
  is_uint 64 (OrderReplaceMessage.original_order_reference_number m) ->
  is_uint 64 (OrderReplaceMessage.new_order_reference_number m) ->
  is_uint 32 (OrderReplaceMessage.shares m) ->
  is_uint 32 (OrderReplaceMessage.price m) ->
  OrderReplaceMessage.view (OrderReplaceMessage.bytes m ++ rest) = (m, rest).
Proof.
  intros Hh H1 H2 H3 H4. destruct m. cbn in Hh, H1, H2, H3, H4. view_bytes_tac.
Qed.

Lemma system_event_view_bytes (m : SystemEventMessage.t) (rest : list byte) :
  header_in_range (SystemEventMessage.header m) ->
  SystemEventMessage.view (SystemEventMessage.bytes m ++ rest) = (m, rest).
Proof. intros Hh. destruct m. cbn in Hh. view_bytes_tac. Qed.

Lemma stock_directory_view_bytes (m : StockDirectoryMessage.t) (rest : list byte) :
  header_in_range (StockDirectoryMessage.header m) ->
  is_uint 32 (StockDirectoryMessage.round_lot_size m) ->
  is_uint 32 (StockDirectoryMessage.etp_leverage_factor m) ->
  StockDirectoryMessage.view (StockDirectoryMessage.bytes m ++ rest) = (m, rest).
Proof. intros Hh H1 H2. destruct m. cbn in Hh, H1, H2. view_bytes_tac. Qed.

Lemma header_in_range_parse_header (h : ITCHMessageHeader.t) :
  header_in_range (parse_header h).
Proof.
  unfold header_in_range, parse_header. cbn.
  repeat split; first [apply (bswap_range 2) | apply (bswap_range 8)].
Qed.

Lemma length_member_bytes (u : MessageUnion) :
  Z.of_nat (length (member_bytes u)) = sizeof_variant (union_tag u).
Proof.
  destruct u as [m|m|m|m|m|m|m|m|m]; cbn [member_bytes union_tag];
    unfold AddOrderMessage.bytes, ExecuteOrderMessage.bytes,
      ExecuteOrderWithPriceMessage.bytes, OrderCancelMessage.bytes,
      OrderDeleteMessage.bytes, OrderReplaceMessage.bytes, TradeMessage.bytes,
      SystemEventMessage.bytes, StockDirectoryMessage.bytes,
      ITCHMessageHeader.bytes, u8_bytes, u16_bytes, u32_bytes, u64_bytes,
      array_bytes;
    rewrite !length_app, ?length_le_split, ?length_vec_to_list; reflexivity.
Qed.

Lemma take_union (bs : list byte) :
  (length bs <= 46)%nat ->
  take (length bs) (take 46 (bs ++ replicate 46 Byte.x00)) = bs.
Proof.
  intros H. rewrite take_take, Nat.min_l by exact H.
  apply take_app_length.
Qed.

Lemma image_member (ty : MessageType) (u : MessageUnion) (ts : Z) :
  ty = union_tag u -> image (mkParsedMessage ty u ts) = member_bytes u.
Proof.
  intros ->. unfold image. cbn [payload].
  rewrite get_message_size_sizeof. cbn [type].
  rewrite <- length_member_bytes, Nat2Z.id.
  unfold union_bytes. change (Z.to_nat sizeof_union) with 46%nat.
  apply take_union.
  pose proof (length_member_bytes u) as H.
  assert (sizeof_variant (union_tag u) <= 46) by (destruct u; cbv; discriminate).
  lia.
Qed.


Ltac apply_view_bytes :=
  lazymatch goal with
  | |- AddOrderMessage.view _ = _ => apply add_order_view_bytes
  | |- ExecuteOrderMessage.view _ = _ => apply execute_order_view_bytes
  | |- ExecuteOrderWithPriceMessage.view _ = _ => apply execute_with_price_view_bytes
  | |- OrderCancelMessage.view _ = _ => apply order_cancel_view_bytes
  | |- OrderDeleteMessage.view _ = _ => apply order_delete_view_bytes
  | |- OrderReplaceMessage.view _ = _ => apply order_replace_view_bytes
  | |- TradeMessage.view _ = _ => apply trade_view_bytes
  | |- SystemEventMessage.view _ = _ => apply system_event_view_bytes
  | |- StockDirectoryMessage.view _ = _ => apply stock_directory_view_bytes
  end.

(** X4. The bytes the logger stores for a record the parser returned can
    be read back: viewing them as the struct of the record's variant gives
    the record's payload, member for member, and consumes all of them. *)
Theorem logged_image_readable (data : list byte) (length : Z) (cpu : Tsc)
    (m : ParsedMessage) (cpu' : Tsc) :
  parse data length cpu = (Some m, cpu') ->
  match payload m with
  | add_order a => AddOrderMessage.view (image m) = (a, [])
  | execute_order a => ExecuteOrderMessage.view (image m) = (a, [])
  | execute_with_price a => ExecuteOrderWithPriceMessage.view (image m) = (a, [])
  | order_cancel a => OrderCancelMessage.view (image m) = (a, [])
  | order_delete a => OrderDeleteMessage.view (image m) = (a, [])
  | order_replace a => OrderReplaceMessage.view (image m) = (a, [])
  | trade a => TradeMessage.view (image m) = (a, [])
  | system_event a => SystemEventMessage.view (image m) = (a, [])
  | stock_directory a => StockDirectoryMessage.view (image m) = (a, [])
  end.
Proof.
  unfold parse.
  destruct (length <? ITCHMessageHeader.sizeof); [discriminate|].
  repeat match goal with
  | |- context [Byte.eqb (byte_at data 0) ?t] =>
      let E := fresh "E" in
      destruct (Byte.eqb (byte_at data 0) t) eqn:E;
      [ apply Byte.byte_dec_bl in E;
        match goal with
        | |- context [length =? ?s] =>
            destruct (Z.eqb_spec length s); cbn [negb]; [|discriminate]
        end;
        unfold parse_add_order, parse_execute_order, parse_execute_with_price,
          parse_order_cancel, parse_order_delete, parse_order_replace,
          parse_trade, parse_system_event, parse_stock_directory;
        intros H; apply finish_inv in H; destruct H as [-> _];
        cbn [payload];
        rewrite image_member by exact E;
        cbn [member_bytes];
        match goal with
        | |- _ ?bs = _ => rewrite <- (app_nil_r bs)
        end;
        apply_view_bytes;
        lazymatch goal with
        | |- header_in_range _ => apply header_in_range_parse_header
        | |- is_uint 64 _ => apply (bswap_range 8)
        | |- is_uint 32 _ => apply (bswap_range 4)
        end
      | ]
  end.
  discriminate.
Qed.

Lemma logged_image_readable_witness :
  AddOrderMessage.view
    (image (mkParsedMessage MessageType.ADD_ORDER
              (add_order test_add_order_expected) 8589934593))
  = (test_add_order_expected, []).
Proof.
  assert (H : parse test_add_order_frame 38 [(1, 2)]
              = (Some (mkParsedMessage MessageType.ADD_ORDER
                         (add_order test_add_order_expected) 8589934593), []))
    by (vm_compute; reflexivity).
  exact (logged_image_readable _ _ _ _ _ H).
Defined.

(** ** The queue as a bounded FIFO *)

Lemma size_Represents {T} (Capacity : Z) (q : MPMCQueue.t T) (l : list T) :
  Represents Capacity q l -> in_range Capacity q ->
  size q = Z.of_nat (length l).
Proof.
  intros R Hr. destruct R as [Hb Hs Ht Hh Hroom Hitems Hfree].
  unfold in_range in Hr. unfold size, wrap64. rewrite Hh.
  replace (tail_ q + Z.of_nat (length l) - tail_ q) with (Z.of_nat (length l)) by lia.
  apply Z.mod_small. lia.
Qed.

Lemma run_ops_Represents {T} (e Capacity : Z) (fuel : nat) (ops : list (op T)) :
  Capacity = 2 ^ e -> 1 <= e ->
  forall (q : MPMCQueue.t T) (l : list T) (item : T),
  Represents Capacity q l ->
  tail_ q + Z.of_nat (length ops) + 2 * Capacity < 2 ^ 63 ->
  exists q',
    run_ops Capacity (S fuel) q item ops
      = Some (fst (fifo (Z.to_nat Capacity) l item ops), q')
    /\ Represents Capacity q' (snd (fifo (Z.to_nat Capacity) l item ops))
    /\ tail_ q <= tail_ q' <= tail_ q + Z.of_nat (length ops).
Proof.
  intros Hpow He.
  assert (He0 : 0 <= e) by lia.
  assert (H2 : 2 <= Capacity).
  { rewrite Hpow. change 2 with (2 ^ 1). apply Z.pow_le_mono_r; lia. }
  induction ops as [|o ops IH]; intros q l item R Hr.
  - exists q. cbn. split; [reflexivity|]. split; [exact R|lia].
  - assert (Hfit : Capacity < 2 ^ 62) by (pose proof (rep_tail _ _ _ R); lia).
    cbn [length] in Hr. destruct o as [x|].
    + cbn [run_ops fifo].
      destruct (Nat.ltb_spec (length l) (Z.to_nat Capacity)) as [Hl|Hl].
      * destruct (try_enqueue_Represents e Capacity He0 Hpow Hfit q l x fuel R)
          as (q1 & E1 & R1 & T1); [unfold in_range; lia | lia |].
        rewrite E1.
        destruct (IH q1 (l ++ [x]) item R1) as (q2 & E2 & R2 & T2); [lia|].
        rewrite E2. exists q2.
        destruct (fifo (Z.to_nat Capacity) (l ++ [x]) item ops) as [rs l'].
        cbn [fst snd] in *. split; [reflexivity|]. split; [exact R2|cbn [length]; lia].
      * rewrite (try_enqueue_full e Capacity He0 Hpow Hfit q l x fuel R);
          [ | unfold in_range; lia | lia | pose proof (rep_room _ _ _ R); lia ].
        destruct (IH q l item R) as (q2 & E2 & R2 & T2); [lia|].
        rewrite E2. exists q2.
        destruct (fifo (Z.to_nat Capacity) l item ops) as [rs l'].
        cbn [fst snd] in *. split; [reflexivity|]. split; [exact R2|cbn [length]; lia].
    + cbn [run_ops fifo]. destruct l as [|x l0].
      * rewrite (try_dequeue_empty e Capacity He0 Hpow Hfit q item fuel R);
          [ | unfold in_range; lia ].
        destruct (IH q [] item R) as (q2 & E2 & R2 & T2); [lia|].
        rewrite E2. exists q2.
        destruct (fifo (Z.to_nat Capacity) [] item ops) as [rs l'].
        cbn [fst snd] in *. split; [reflexivity|]. split; [exact R2|cbn [length]; lia].
      * destruct (try_dequeue_Represents e Capacity He0 Hpow Hfit q x l0 item fuel R)
          as (q1 & E1 & R1 & T1); [unfold in_range; lia |].
        rewrite E1.
        destruct (IH q1 l0 x R1) as (q2 & E2 & R2 & T2); [lia|].
        rewrite E2. exists q2.
        destruct (fifo (Z.to_nat Capacity) l0 x ops) as [rs l'].
        cbn [fst snd] in *. split; [reflexivity|]. split; [exact R2|cbn [length]; lia].
Qed.

(** X11. Used by one thread, a fresh queue of capacity [2 ^ e] with
    [1 <= e] is a bounded first-in first-out buffer: for any sequence of
    [try_enqueue] and [try_dequeue] calls, every call returns within one
    iteration of its loop with the flag and the value the buffer gives,
    also after the positions have wrapped around the slots; afterwards
    [size] is the number of items held, [empty] tells whether there is
    none, and [try_enqueue] fails exactly when [Capacity] items are held. *)
Theorem run_ops_fifo {T} (e Capacity : Z) (fuel : nat) (mem : nat -> T)
  (item : T) (ops : list (op T)) :
  Capacity = 2 ^ e -> 1 <= e ->
  Z.of_nat (length ops) + 2 * Capacity < 2 ^ 63 ->
  let rets := fst (fifo (Z.to_nat Capacity) [] item ops) in
  let l := snd (fifo (Z.to_nat Capacity) [] item ops) in
  exists q',
    run_ops Capacity (S fuel) (MPMCQueue.new Capacity mem) item ops
      = Some (rets, q')
    /\ MPMCQueue.size q' = Z.of_nat (length l)
    /\ (MPMCQueue.empty q' = true <-> l = [])
    /\ (forall x, MPMCQueue.try_enqueue Capacity (S fuel) q' x
                  = Some (false, q') <-> Z.of_nat (length l) = Capacity).
Proof.
  intros Hpow He Hr.
  assert (He0 : 0 <= e) by lia.
  assert (Hc : 0 < Capacity) by (rewrite Hpow; apply Z.pow_pos_nonneg; lia).
  assert (H2 : 2 <= Capacity).
  { rewrite Hpow. change 2 with (2 ^ 1). apply Z.pow_le_mono_r; lia. }
  assert (Hfit : Capacity < 2 ^ 62) by lia.
  pose proof (new_Represents e Capacity He0 Hpow Hfit mem) as R0.
  destruct (run_ops_Represents e Capacity fuel ops Hpow He _ [] item R0)
    as (q' & E & R & Tl); [cbn; lia|].
  cbn [tail_ MPMCQueue.new] in Tl. cbv zeta.
  destruct (fifo (Z.to_nat Capacity) [] item ops) as [rets l].
  cbn [fst snd] in *. exists q'. split; [exact E|].
  assert (Hin : in_range Capacity q') by (unfold in_range; lia).
  pose proof (size_Represents Capacity q' l R Hin) as Hsz.
  split; [exact Hsz|]. split.
  - unfold MPMCQueue.empty. rewrite Hsz. destruct l; cbn [length]; split; intros H;
      first [reflexivity | discriminate | lia ].
  - intros x. split.
    + intros Hfull.
      destruct (Z.eq_dec (Z.of_nat (length l)) Capacity) as [Heq|Hne]; [exact Heq|].
      destruct (try_enqueue_Represents e Capacity He0 Hpow Hfit q' l x fuel R Hin)
        as (q1 & E1 & _); [pose proof (rep_room _ _ _ R); lia|].
      congruence.
    + intros Hfull.
      apply (try_enqueue_full e Capacity He0 Hpow Hfit q' l x fuel R Hin H2 Hfull).
Qed.

Lemma run_ops_fifo_witness :
  let ops := [Enq 1; Enq 2; Enq 3; Enq 4; Enq 5; Deq; Deq; Enq 6; Enq 7; Enq 8;
              Deq; Deq; Deq; Deq; Deq] in
  let rets := fst (fifo (Z.to_nat 4) [] 0 ops) in
  let l := snd (fifo (Z.to_nat 4) [] 0 ops) in
  exists q',
    run_ops 4 1 (MPMCQueue.new 4 (fun _ => 0)) 0 ops = Some (rets, q')
    /\ MPMCQueue.size q' = Z.of_nat (length l)
    /\ (MPMCQueue.empty q' = true <-> l = [])
    /\ (forall x, MPMCQueue.try_enqueue 4 1 q' x
                  = Some (false, q') <-> Z.of_nat (length l) = 4).
Proof.
  apply (run_ops_fifo 2 4 0 (fun _ => 0) 0).
  - reflexivity.
  - lia.
  - cbn. lia.
Defined.

(** X10. The compile-time check [(Capacity & (Capacity - 1)) == 0] lets
    through exactly the powers of two and 0. *)
Theorem static_assert_holds_iff (Capacity : Z) :
  0 <= Capacity < 2 ^ 64 ->
  static_assert_holds Capacity = true
  <-> Capacity = 0 \/ exists k, 0 <= k < 64 /\ Capacity = 2 ^ k.
Proof.
  intros HC. unfold static_assert_holds. rewrite Z.eqb_eq. split.
  - intros Hland.
    destruct (Z.eq_dec Capacity 0) as [->|Hnz]; [now left|]. right.
    assert (Hpos : 0 < Capacity) by lia.
    pose proof (Z.log2_spec Capacity Hpos) as Hlog.
    pose proof (Z.log2_nonneg Capacity) as Hk.
    set (k := Z.log2 Capacity) in *.
    exists k.
    assert (Hk64 : k < 64).
    { apply (Z.pow_lt_mono_r_iff 2); lia. }
    split; [lia|].
    destruct (Z.eq_dec Capacity (2 ^ k)) as [E|Hne]; [exact E|exfalso].
    assert (Hw : wrap64 (Capacity - 1) = Capacity - 1).
    { unfold wrap64. apply Z.mod_small. lia. }
    rewrite Hw in Hland.
    assert (Hlog' : Z.log2 (Capacity - 1) = k).
    { apply Z.log2_unique; [exact Hk|]. lia. }
    assert (Hb1 : Z.testbit Capacity k = true).
    { apply Z.bit_log2. exact Hpos. }
    assert (Hb2 : Z.testbit (Capacity - 1) k = true).
    { rewrite <- Hlog'. apply Z.bit_log2.
      assert (0 < 2 ^ k) by (apply Z.pow_pos_nonneg; lia). lia. }
    assert (Hb : Z.testbit (Z.land Capacity (Capacity - 1)) k = true).
    { rewrite Z.land_spec, Hb1, Hb2. reflexivity. }
    rewrite Hland, Z.testbit_0_l in Hb. discriminate.
  - intros [->|(k & Hk & ->)]; [reflexivity|].
    assert (Hw : wrap64 (2 ^ k - 1) = 2 ^ k - 1).
    { unfold wrap64. apply Z.mod_small.
      assert (0 < 2 ^ k) by (apply Z.pow_pos_nonneg; lia). lia. }
    rewrite Hw. replace (2 ^ k - 1) with (Z.ones k)
      by (rewrite Z.ones_equiv; lia).
    rewrite Z.land_ones by lia. apply Z_mod_same_full.
Qed.

Lemma static_assert_holds_iff_witness :
  MPMCQueue.static_assert_holds AsyncLogger.QUEUE_SIZE = true
  <-> AsyncLogger.QUEUE_SIZE = 0
      \/ exists k, 0 <= k < 64 /\ AsyncLogger.QUEUE_SIZE = 2 ^ k.
Proof.
  apply static_assert_holds_iff. unfold AsyncLogger.QUEUE_SIZE. lia.
Defined.

Lemma capacity_one_spin {T} (x : T) (item : T) (n : nat) :
  try_dequeue_loop 1 n (MPMCQueue.mk 2 0 [x] [2]) 0 item = None.
Proof.
  induction n as [|n IH]; [reflexivity|].
  cbn [try_dequeue_loop].
  change (index_of 1 0) with 0%nat.
  change (load_seq (MPMCQueue.mk 2 0 [x] [2]) 0) with 2.
  change (to_intptr 2 - to_intptr (wrap64 (0 + 1)) =? 0) with false.
  change (to_intptr 2 - to_intptr (wrap64 (0 + 1)) <? 0) with false.
  cbv iota. exact IH.
Qed.

(** X12. On a queue of capacity 1, which the compile-time check accepts,
    after two enqueues with no dequeue between them [size] is 2 and a call
    of [try_dequeue] never returns: its loop reloads the same position for
    ever, whatever the number of iterations allowed. *)
Theorem capacity_one_dequeue_spins {T} (mem : nat -> T) (x y item : T) :
  exists q1 q2,
    try_enqueue 1 1 (MPMCQueue.new 1 mem) x = Some (true, q1)
    /\ try_enqueue 1 1 q1 y = Some (true, q2)
    /\ MPMCQueue.size q2 = 2
    /\ forall fuel, try_dequeue 1 fuel q2 item = None.
Proof.
  eexists. eexists. split; [reflexivity|]. split; [reflexivity|].
  split; [reflexivity|]. intros fuel. apply capacity_one_spin.
Qed.

(** ** A run of the logger in any write mode *)

Lemma flush_frame st :
  queue_ (flush st) = queue_ st
  /\ running_ (flush st) = running_ st
  /\ write_mode_ (flush st) = write_mode_ st
  /\ mmap_size_ (flush st) = mmap_size_ st
  /\ write_buffer_ (flush st) = write_buffer_ st
  /\ buffer_offset_ (flush st) = 0.
Proof.
  unfold flush.
  destruct (Z.eqb_spec (buffer_offset_ st) 0) as [E|Hne]; [auto 10|].
  destruct (write_mode_ st) eqn:Hmode; cbn;
    try match goal with |- context [if ?c then _ else _] => destruct c end;
    cbn; auto 10.
Qed.

Lemma write_message_frame st msg :
  queue_ (write_message st msg) = queue_ st
  /\ running_ (write_message st msg) = running_ st
  /\ write_mode_ (write_message st msg) = write_mode_ st.
Proof.
  unfold write_message.
  destruct (write_mode_ st) eqn:Hmode.
  - destruct (_ >? _); cbn; auto.
  - destruct (_ >? _); cbn; [|auto].
    destruct (flush_frame st) as (-> & -> & -> & _). auto.
  - destruct (_ >? _); cbn; [|auto].
    destruct (flush_frame st) as (-> & -> & -> & _). auto.
Qed.

Lemma set_queue_same st : set_queue (queue_ st) st = st.
Proof. destruct st. reflexivity. Qed.

Lemma start_new_fields mode qmem bufmem :
  queue_ (start (AsyncLogger.new mode qmem bufmem)) = MPMCQueue.new QUEUE_SIZE qmem
  /\ running_ (start (AsyncLogger.new mode qmem bufmem)) = true
  /\ write_mode_ (start (AsyncLogger.new mode qmem bufmem)) = mode.
Proof. destruct mode; auto. Qed.

Section RunInvariant.
Variable I : AsyncLogger.t -> list ParsedMessage -> Prop.
Hypothesis I_set_queue : forall st q done, I st done -> I (set_queue q st) done.
Hypothesis I_set_running : forall st b done, I st done -> I (set_running b st) done.
Hypothesis I_flush : forall st done, I st done -> I (flush st) done.
Hypothesis I_write : forall st done x,
  I st done -> Z.of_nat (length done) < QUEUE_SIZE ->
  I (write_message st x) (done ++ [x]).

Lemma RunInv_in_range st done pending :
  RunInv I st done pending -> Z.of_nat (length done) <= QUEUE_SIZE ->
  in_range QUEUE_SIZE (queue_ st).
Proof.
  intros Inv H. unfold in_range. rewrite (ri_tail _ _ _ _ Inv).
  unfold QUEUE_SIZE in *. lia.
Qed.

Lemma log_RunInv st done pending m fuel :
  RunInv I st done pending ->
  Z.of_nat (length done) + Z.of_nat (length pending) < QUEUE_SIZE ->
  exists st',
    log (S fuel) st m = Some (true, st')
    /\ RunInv I st' done (pending ++ [m])
    /\ running_ st' = running_ st.
Proof.
  intros Inv Hroom.
  destruct (try_enqueue_Represents 20 QUEUE_SIZE ltac:(lia) queue_size_pow
              ltac:(unfold QUEUE_SIZE; lia) (queue_ st) pending m fuel)
    as (q' & E & R & Ht).
  - apply Inv.
  - eapply RunInv_in_range; [exact Inv|lia].
  - lia.
  - exists (set_queue q' st). unfold log. rewrite E.
    split; [reflexivity|]. split; [|reflexivity].
    destruct Inv as [Iq It Is]. constructor; cbn; auto. congruence.
Qed.

Lemma log_full_RunInv st done pending m fuel :
  RunInv I st done pending ->
  Z.of_nat (length done) <= QUEUE_SIZE ->
  Z.of_nat (length pending) = QUEUE_SIZE ->
  log (S fuel) st m = Some (false, st).
Proof.
  intros Inv Hdone Hfull. unfold log.
  rewrite (try_enqueue_full 20 QUEUE_SIZE ltac:(lia) queue_size_pow
             ltac:(unfold QUEUE_SIZE; lia) (queue_ st) pending m fuel).
  - rewrite set_queue_same. reflexivity.
  - apply Inv.
  - eapply RunInv_in_range; [exact Inv|lia].
  - unfold QUEUE_SIZE. lia.
  - exact Hfull.
Qed.

Lemma dequeue_write_RunInv st done x pending msg fuel :
  RunInv I st done (x :: pending) ->
  Z.of_nat (length done) < QUEUE_SIZE ->
  exists q',
    try_dequeue QUEUE_SIZE (S fuel) (queue_ st) msg = Some (true, x, q')
    /\ RunInv I (write_message (set_queue q' st) x) (done ++ [x]) pending
    /\ running_ (write_message (set_queue q' st) x) = running_ st.
Proof.
  intros Inv Hroom.
  destruct (try_dequeue_Represents 20 QUEUE_SIZE ltac:(lia) queue_size_pow
              ltac:(unfold QUEUE_SIZE; lia) (queue_ st) x pending msg fuel)
    as (q' & E & R & Ht).
  - apply Inv.
  - eapply RunInv_in_range; [exact Inv|lia].
  - exists q'. split; [exact E|].
    destruct Inv as [Iq It Is].
    destruct (write_message_frame (set_queue q' st) x) as (Hq & Hr & _).
    split; [|exact Hr]. constructor.
    + rewrite Hq. exact R.
    + rewrite Hq. cbn. rewrite Ht, It, length_app. simpl. lia.
    + apply I_write; [apply I_set_queue; exact Is | exact Hroom].
Qed.

Lemma worker_RunInv_item st done x pending msg fuel :
  RunInv I st done (x :: pending) ->
  Z.of_nat (length done) < QUEUE_SIZE ->
  exists st',
    worker_iteration (S fuel) st msg = Some (st', x)
    /\ RunInv I st' (done ++ [x]) pending
    /\ running_ st' = running_ st.
Proof.
  intros Inv Hroom.
  destruct (dequeue_write_RunInv st done x pending msg fuel Inv Hroom)
    as (q' & E & I' & R').
  unfold worker_iteration. rewrite E. eauto.
Qed.

Lemma worker_RunInv_idle st done msg fuel :
  RunInv I st done [] ->
  Z.of_nat (length done) <= QUEUE_SIZE ->
  exists st',
    worker_iteration (S fuel) st msg = Some (st', msg)
    /\ RunInv I st' done []
    /\ running_ st' = running_ st.
Proof.
  intros Inv Hroom.
  pose proof (try_dequeue_empty 20 QUEUE_SIZE ltac:(lia) queue_size_pow
                ltac:(unfold QUEUE_SIZE; lia) (queue_ st) msg fuel
                (ri_queue _ _ _ _ Inv) (RunInv_in_range _ _ _ Inv Hroom)) as E.
  unfold worker_iteration. rewrite E. eexists. split; [reflexivity|].
  rewrite set_queue_same.
  destruct Inv as [Iq It Is].
  destruct (flush_frame st) as (Hq & Hr & _).
  split; [|exact Hr]. constructor.
  - rewrite Hq. exact Iq.
  - rewrite Hq. exact It.
  - apply I_flush. exact Is.
Qed.

Lemma run_RunInv (fuel : nat) (evs : list event) :
  forall st msg done pending,
  RunInv I st done pending ->
  Z.of_nat (length done) + Z.of_nat (length pending)
    + Z.of_nat (length (logged evs)) < QUEUE_SIZE ->
  exists st' msg' done' pending',
    run (S fuel) evs st msg
      = Some (replicate (length (logged evs)) true, st', msg')
    /\ RunInv I st' done' pending'
    /\ done' ++ pending' = done ++ pending ++ logged evs
    /\ running_ st' = running_ st.
Proof.
  induction evs as [|ev evs IH]; intros st msg done pending Inv Hroom.
  - exists st, msg, done, pending. cbn. rewrite app_nil_r. auto.
  - destruct ev as [m|]; cbn [logged length] in Hroom.
    + destruct (log_RunInv st done pending m fuel Inv ltac:(lia))
        as (st1 & E1 & I1 & R1).
      destruct (IH st1 msg done (pending ++ [m]) I1)
        as (st2 & msg2 & done2 & pending2 & E2 & I2 & L2 & R2).
      { rewrite length_app. simpl. lia. }
      exists st2, msg2, done2, pending2.
      cbn [run logged length replicate]. rewrite E1, E2.
      split; [reflexivity|]. split; [exact I2|]. split; [|congruence].
      rewrite L2, <- app_assoc. reflexivity.
    + destruct pending as [|x pending].
      * destruct (worker_RunInv_idle st done msg fuel Inv ltac:(simpl in Hroom; lia))
          as (st1 & E1 & I1 & R1).
        destruct (IH st1 msg done [] I1 Hroom)
          as (st2 & msg2 & done2 & pending2 & E2 & I2 & L2 & R2).
        exists st2, msg2, done2, pending2.
        cbn [run logged]. rewrite E1, E2.
        split; [reflexivity|]. split; [exact I2|]. split; [exact L2|congruence].
      * cbn [length] in Hroom.
        destruct (worker_RunInv_item st done x pending msg fuel Inv ltac:(lia))
          as (st1 & E1 & I1 & R1).
        destruct (IH st1 x (done ++ [x]) pending I1)
          as (st2 & msg2 & done2 & pending2 & E2 & I2 & L2 & R2).
        { rewrite length_app. simpl. lia. }
        exists st2, msg2, done2, pending2.
        cbn [run logged]. rewrite E1, E2.
        split; [reflexivity|]. split; [exact I2|]. split; [|congruence].
        rewrite L2, <- app_assoc. reflexivity.
Qed.

Lemma drain_RunInv (pending : list ParsedMessage) :
  forall fuel st msg done,
  RunInv I st done pending ->
  Z.of_nat (length done) + Z.of_nat (length pending) < QUEUE_SIZE ->
  (length pending < fuel)%nat ->
  exists st' msg',
    drain fuel st msg = Some (st', msg')
    /\ RunInv I st' (done ++ pending) []
    /\ running_ st' = running_ st.
Proof.
  induction pending as [|x pending IH]; intros fuel st msg done Inv Hroom Hfuel;
    (destruct fuel as [|fuel]; [lia|]).
  - pose proof (try_dequeue_empty 20 QUEUE_SIZE ltac:(lia) queue_size_pow
                  ltac:(unfold QUEUE_SIZE; lia) (queue_ st) msg fuel
                  (ri_queue _ _ _ _ Inv)
                  (RunInv_in_range _ _ _ Inv ltac:(lia))) as E.
    cbn [drain]. rewrite E. eexists _, _. split; [reflexivity|].
    rewrite app_nil_r, set_queue_same. split; [exact Inv|reflexivity].
  - cbn [length] in Hroom, Hfuel.
    destruct (dequeue_write_RunInv st done x pending msg fuel Inv ltac:(lia))
      as (q1 & E & I1 & R1).
    cbn [drain]. rewrite E.
    destruct (IH fuel _ x (done ++ [x]) I1) as (st2 & msg2 & E2 & I2 & R2).
    { rewrite length_app. simpl. lia. }
    { lia. }
    exists st2, msg2. split; [exact E2|].
    rewrite <- app_assoc in I2. split; [exact I2|congruence].
Qed.

(** A whole session: every [log] succeeds, the worker hands every logged
    record to [write_message] in the order of the calls, and [stop] leaves
    the queue empty. *)
Lemma session_RunInv (fuel : nat) (mode : WriteMode) (qmem : nat -> ParsedMessage)
    (bufmem : Mem) (msg0 : ParsedMessage) (evs : list event) :
  I (start (AsyncLogger.new mode qmem bufmem)) [] ->
  Z.of_nat (length (logged evs)) < QUEUE_SIZE ->
  (length (logged evs) < fuel)%nat ->
  exists st,
    session fuel mode qmem bufmem msg0 evs
      = Some (replicate (length (logged evs)) true, close_file (flush st))
    /\ RunInv I st (logged evs) []
    /\ running_ st = false.
Proof.
  intros I0 Hroom Hfuel. destruct fuel as [|fuel]; [lia|].
  assert (Inv0 : RunInv I (start (AsyncLogger.new mode qmem bufmem)) [] []).
  { destruct (start_new_fields mode qmem bufmem) as (Hq & _).
    constructor.
    - rewrite Hq.
      apply (new_Represents 20); [lia | reflexivity | unfold QUEUE_SIZE; lia].
    - rewrite Hq. reflexivity.
    - exact I0. }
  destruct (run_RunInv fuel evs _ msg0 [] [] Inv0 ltac:(simpl; lia))
    as (st1 & msg1 & done1 & pending1 & E1 & I1 & L1 & R1).
  simpl in L1.
  assert (Hlen : (length done1 + length pending1 = length (logged evs))%nat).
  { rewrite <- L1, length_app. reflexivity. }
  destruct (drain_RunInv pending1 (S fuel) (set_running false st1) msg1 done1)
    as (st2 & msg2 & E2 & I2 & R2).
  { destruct I1 as [Iq It Is]. constructor; auto. }
  { lia. }
  { lia. }
  exists st2.
  unfold session. rewrite E1. unfold stop. rewrite R1.
  rewrite (proj1 (proj2 (start_new_fields mode qmem bufmem))). cbn [negb].
  rewrite E2. rewrite L1 in I2. split; [reflexivity|]. split; [exact I2|].
  rewrite R2. reflexivity.
Qed.

End RunInvariant.

(** ** Sessions in [BUFFERED] and [MMAP] mode *)

Lemma images_bound (msgs : list ParsedMessage) :
  Z.of_nat (length (concat (map image msgs)))
  <= sizeof_union * Z.of_nat (length msgs).
Proof.
  induction msgs as [|m msgs IH]; [cbn; lia|].
  cbn [map concat length]. rewrite length_app, Nat2Z.inj_add, length_image.
  pose proof (get_message_size_range m). lia.
Qed.

Lemma length_emitted st :
  0 <= file_size (file_ st) -> 0 <= buffer_offset_ st ->
  Z.of_nat (length (emitted st)) = file_size (file_ st) + buffer_offset_ st.
Proof.
  intros. unfold emitted, file_contents.
  rewrite length_app, !length_mem_read. lia.
Qed.

Lemma flush_total_buffered st :
  buffered_ok st ->
  total_written_ st = file_size (file_ st) ->
  file_size (file_ st) + buffer_offset_ st < 2 ^ 64 ->
  total_written_ (flush st) = file_size (file_ (flush st)).
Proof.
  intros (Hmode & Hoff & Hpos & Hsize) Htot Hfit. unfold flush.
  destruct (Z.eqb_spec (buffer_offset_ st) 0) as [E|Hne]; [exact Htot|].
  rewrite Hmode. cbn.
  destruct (Z.gtb_spec (buffer_offset_ st) 0) as [_|Hle]; [|lia].
  cbn. rewrite Htot, Hpos. unfold wrap64. rewrite Z.mod_small by lia. lia.
Qed.

Lemma buffered_inv_flush st done :
  buffered_inv st done -> buffered_inv (flush st) done.
Proof.
  intros (Hok & Hem & Htot & Hlen).
  destruct (flush_buffered st Hok) as (Hok' & Hc & Ho & _).
  assert (Hfit : file_size (file_ st) + buffer_offset_ st < 2 ^ 64).
  { destruct Hok as (_ & Hoff & _ & Hsize).
    rewrite <- length_emitted by lia. rewrite Hem.
    pose proof (images_bound done). change sizeof_union with 46 in *.
    unfold QUEUE_SIZE in Hlen. lia. }
  repeat split; try apply Hok'.
  - unfold emitted. rewrite Hc, Ho. cbn. rewrite app_nil_r. exact Hem.
  - apply flush_total_buffered; assumption.
  - exact Hlen.
Qed.

Lemma write_message_total_buffered st msg :
  buffered_ok st ->
  total_written_ st = file_size (file_ st) ->
  file_size (file_ st) + buffer_offset_ st < 2 ^ 64 ->
  total_written_ (write_message st msg) = file_size (file_ (write_message st msg)).
Proof.
  intros Hok Htot Hfit. unfold write_message.
  rewrite (proj1 Hok).
  destruct (_ >? _); cbn; [|exact Htot].
  apply flush_total_buffered; assumption.
Qed.

Lemma buffered_inv_write st done x :
  buffered_inv st done -> Z.of_nat (length done) < QUEUE_SIZE ->
  buffered_inv (write_message st x) (done ++ [x]).
Proof.
  intros (Hok & Hem & Htot & Hlen) Hroom.
  destruct (write_message_buffered st x Hok) as (Hok' & Hem' & _).
  assert (Hfit : file_size (file_ st) + buffer_offset_ st < 2 ^ 64).
  { destruct Hok as (_ & Hoff & _ & Hsize).
    rewrite <- length_emitted by lia. rewrite Hem.
    pose proof (images_bound done). change sizeof_union with 46 in *.
    unfold QUEUE_SIZE in Hlen. lia. }
  split; [exact Hok'|]. split; [|split].
  - rewrite Hem', Hem, map_app, concat_app. cbn. rewrite app_nil_r. reflexivity.
  - apply write_message_total_buffered; assumption.
  - rewrite length_app. cbn. lia.
Qed.

Lemma buffered_inv_start qmem bufmem :
  buffered_inv (start (AsyncLogger.new BUFFERED qmem bufmem)) [].
Proof.
  unfold buffered_inv, buffered_ok. cbn. unfold BUFFER_SIZE, QUEUE_SIZE.
  repeat split; lia.
Qed.

(** What [stop] leaves of a [BUFFERED] run whose queue has been drained. *)
Lemma buffered_final (st : AsyncLogger.t) (done : list ParsedMessage) :
  RunInv buffered_inv st done [] ->
  let st' := close_file (flush st) in
  file_contents (file_ st') = concat (map image done)
  /\ get_total_written st' = Z.of_nat (length (file_contents (file_ st')))
  /\ get_queue_size st' = 0
  /\ buffer_offset_ st' = 0
  /\ running_ st' = running_ st.
Proof.
  intros [Rq Tq Is]. cbv zeta.
  pose proof (buffered_inv_flush st _ Is) as (Hok & Hem & Htot & Hlen).
  destruct (flush_frame st) as (Hq & Hr & Hm & _ & _ & Ho).
  assert (Hmode : write_mode_ (flush st) = BUFFERED) by apply Hok.
  unfold close_file. rewrite Hmode.
  assert (Hc : file_contents (file_ (flush st)) = concat (map image done)).
  { rewrite <- Hem. unfold emitted. rewrite Ho. cbn. rewrite app_nil_r. reflexivity. }
  split; [exact Hc|]. split; [|split; [|split]].
  - unfold get_total_written. rewrite Htot. unfold file_contents.
    rewrite length_mem_read. destruct Hok as (_ & _ & _ & Hs). lia.
  - unfold get_queue_size. rewrite Hq.
    apply (size_Represents QUEUE_SIZE _ [] Rq).
    unfold in_range. rewrite Tq. unfold QUEUE_SIZE in *. lia.
  - exact Ho.
  - exact Hr.
Qed.

(** X13. A [BUFFERED] session of fewer than [QUEUE_SIZE] records,
    whatever the records and the interleaving of the producer with the
    worker: every [log] returns true; after [stop] the file holds the
    images of the logged records in the order of the calls,
    [get_total_written] is the length of the file, the queue is empty, the
    buffer is flushed and the logger is stopped. *)
Theorem buffered_session_total (fuel : nat) (qmem : nat -> ParsedMessage)
    (bufmem : Mem) (msg0 : ParsedMessage) (evs : list event) :
  Z.of_nat (length (logged evs)) < QUEUE_SIZE ->
  (length (logged evs) < fuel)%nat ->
  exists st,
    session fuel BUFFERED qmem bufmem msg0 evs
      = Some (replicate (length (logged evs)) true, st)
    /\ file_contents (file_ st) = concat (map image (logged evs))
    /\ get_total_written st = Z.of_nat (length (file_contents (file_ st)))
    /\ get_queue_size st = 0
    /\ buffer_offset_ st = 0
    /\ running_ st = false.
Proof.
  intros Hroom Hfuel.
  destruct (session_RunInv buffered_inv) with (fuel := fuel) (mode := BUFFERED)
    (qmem := qmem) (bufmem := bufmem) (msg0 := msg0) (evs := evs)
    as (st & E & Inv & Hrun); try assumption.
  - intros st q done H. exact H.
  - intros st b done H. exact H.
  - apply buffered_inv_flush.
  - apply buffered_inv_write.
  - apply buffered_inv_start.
  - destruct (buffered_final st _ Inv) as (Hc & Ht & Hq & Ho & Hr).
    cbv zeta in Hc, Ht, Hq, Ho, Hr.
    exists (close_file (flush st)). split; [exact E|].
    split; [exact Hc|]. split; [exact Ht|]. split; [exact Hq|].
    split; [exact Ho|]. rewrite Hr. exact Hrun.
Qed.

Lemma buffered_session_total_witness :
  let evs := schedule 1 (fun i => i)
               (decode_frames (alternating_frames (fun _ => []) 3) []) in
  exists st,
    session 4 BUFFERED (fun _ => unhandled_record) (fun _ => Byte.x00)
            unhandled_record evs
      = Some (replicate (length (logged evs)) true, st)
    /\ file_contents (file_ st) = concat (map image (logged evs))
    /\ get_total_written st = Z.of_nat (length (file_contents (file_ st)))
    /\ get_queue_size st = 0
    /\ buffer_offset_ st = 0
    /\ running_ st = false.
Proof.
  apply (buffered_session_total 4).
  - vm_compute. reflexivity.
  - vm_compute. lia.
Defined.










(** ** [DIRECT] mode *)

(** [(n + ALIGNMENT - 1) & ~(ALIGNMENT - 1)] rounds up to a multiple of
    [ALIGNMENT]. *)
Lemma align_up (n : Z) :
  0 <= n <= BUFFER_SIZE ->
  Z.land (wrap64 (n + ALIGNMENT - 1)) (wrap64 (Z.lnot (ALIGNMENT - 1)))
  = ALIGNMENT * ((n + ALIGNMENT - 1) / ALIGNMENT).
Proof.
  intros Hn. unfold ALIGNMENT, BUFFER_SIZE in *.
  rewrite (wrap64_small (n + 4096 - 1)) by lia.
  change (wrap64 (Z.lnot (4096 - 1))) with (Z.shiftl (Z.ones 52) 12).
  set (y := n + 4096 - 1).
  assert (Hy : 0 <= y < 2 ^ 64) by (subst y; lia).
  rewrite <- (Z.mod_small y (2 ^ 64)) at 1 by lia.
  rewrite <- Z.land_ones by lia.
  change 4096 with (2 ^ 12). rewrite <- Z.shiftr_div_pow2 by lia.
  rewrite Z.mul_comm, <- Z.shiftl_mul_pow2 by lia.
  Z.bitblast.
  rewrite (Z.bits_above_log2 y l); [reflexivity | lia |].
  assert (Z.log2 y < 64) by (apply Z.log2_lt_pow2; subst y; lia). lia.
Qed.

Lemma align_up_bounds (n : Z) :
  0 <= n <= BUFFER_SIZE ->
  let r := ALIGNMENT * ((n + ALIGNMENT - 1) / ALIGNMENT) in
  n <= r < n + ALIGNMENT /\ r mod ALIGNMENT = 0 /\ r <= BUFFER_SIZE.
Proof.
  intros Hn. cbv zeta. unfold ALIGNMENT, BUFFER_SIZE in *.
  split; [|split].
  - pose proof (Z.div_mod (n + 4096 - 1) 4096 ltac:(lia)).
    pose proof (Z.mod_pos_bound (n + 4096 - 1) 4096 ltac:(lia)). lia.
  - rewrite Z.mul_comm. apply Z_mod_mult.
  - assert ((n + 4096 - 1) / 4096 < 1025).
    { apply Z.div_lt_upper_bound; lia. }
    lia.
Qed.

(** One [flush] of a non-empty buffer in [DIRECT] mode. *)
Lemma flush_direct_step (st : AsyncLogger.t) :
  write_mode_ st = DIRECT ->
  0 < buffer_offset_ st <= BUFFER_SIZE ->
  file_pos (file_ st) = file_size (file_ st) -> 0 <= file_size (file_ st) ->
  0 <= total_written_ st -> total_written_ st + buffer_offset_ st < 2 ^ 64 ->
  let r := ALIGNMENT * ((buffer_offset_ st + ALIGNMENT - 1) / ALIGNMENT) in
  file_contents (file_ (flush st))
    = file_contents (file_ st) ++ mem_read (write_buffer_ st) 0 (Z.to_nat r)
  /\ file_size (file_ (flush st)) = file_size (file_ st) + r
  /\ file_pos (file_ (flush st)) = file_size (file_ (flush st))
  /\ total_written_ (flush st) = total_written_ st + buffer_offset_ st
  /\ buffer_offset_ (flush st) = 0.
Proof.
  intros Hmode Hoff Hpos Hsize Htot Hfit.
  destruct (align_up_bounds (buffer_offset_ st) ltac:(lia)) as (Hr & _ & _).
  cbv zeta in *. unfold flush.
  destruct (Z.eqb_spec (buffer_offset_ st) 0) as [E|_]; [lia|].
  rewrite Hmode. cbv beta iota zeta.
  rewrite align_up by lia.
  set (r := ALIGNMENT * ((buffer_offset_ st + ALIGNMENT - 1) / ALIGNMENT)) in *.
  destruct (sys_write_append (file_ st) (write_buffer_ st) r Hpos Hsize ltac:(lia))
    as (Hc & Hp & Hs).
  unfold sys_write in *. cbn [fst] in Hc, Hp, Hs.
  destruct (Z.gtb_spec r 0) as [_|Hle]; [|lia].
  cbn. rewrite wrap64_small by lia.
  split; [exact Hc|]. split; [|split; [exact Hp|split; reflexivity]].
  rewrite Hpos. lia.
Qed.

(** X16. In [DIRECT] mode a [flush] of a non-empty buffer appends to the
    file the first [r] bytes of the buffer, [r] being [buffer_offset_]
    rounded up to the next multiple of [ALIGNMENT]: the bytes past
    [buffer_offset_] are whatever the buffer held. [r] stays within the
    buffer, and [total_written_] grows by [buffer_offset_] only. *)
Theorem flush_direct_rounds (st : AsyncLogger.t) :
  write_mode_ st = DIRECT ->
  0 < buffer_offset_ st <= BUFFER_SIZE ->
  file_pos (file_ st) = file_size (file_ st) -> 0 <= file_size (file_ st) ->
  0 <= total_written_ st -> total_written_ st + buffer_offset_ st < 2 ^ 64 ->
  exists r,
    file_contents (file_ (flush st))
      = file_contents (file_ st) ++ mem_read (write_buffer_ st) 0 (Z.to_nat r)
    /\ buffer_offset_ st <= r < buffer_offset_ st + ALIGNMENT
    /\ r mod ALIGNMENT = 0
    /\ r <= BUFFER_SIZE
    /\ total_written_ (flush st) = total_written_ st + buffer_offset_ st
    /\ buffer_offset_ (flush st) = 0.
Proof.
  intros Hmode Hoff Hpos Hsize Htot Hfit.
  destruct (flush_direct_step st Hmode Hoff Hpos Hsize Htot Hfit)
    as (Hc & _ & _ & Ht & Ho).
  destruct (align_up_bounds (buffer_offset_ st) ltac:(lia)) as (Hr & Hm & Hb).
  cbv zeta in *.
  exists (ALIGNMENT * ((buffer_offset_ st + ALIGNMENT - 1) / ALIGNMENT)).
  auto 10.
Qed.




Lemma flush_direct_rounds_witness :
  let st := write_message
              (start (AsyncLogger.new DIRECT (fun _ => unhandled_record)
                                      (fun _ => Byte.x00)))
              (mkParsedMessage MessageType.ADD_ORDER
                 (add_order test_add_order_expected) 0) in
  exists r,
    file_contents (file_ (flush st))
      = file_contents (file_ st) ++ mem_read (write_buffer_ st) 0 (Z.to_nat r)
    /\ buffer_offset_ st <= r < buffer_offset_ st + ALIGNMENT
    /\ r mod ALIGNMENT = 0
    /\ r <= BUFFER_SIZE
    /\ total_written_ (flush st) = total_written_ st + buffer_offset_ st
    /\ buffer_offset_ (flush st) = 0.
Proof.
  apply flush_direct_rounds.
  - reflexivity.
  - change (0 < 38 <= BUFFER_SIZE). unfold BUFFER_SIZE. lia.
  - reflexivity.
  - change (0 <= 0). lia.
  - change (0 <= 0). lia.
  - change (0 + 38 < 2 ^ 64). lia.
Defined.

Lemma concat_images_app (l1 l2 : list ParsedMessage) :
  concat (map image (l1 ++ l2)) = concat (map image l1) ++ concat (map image l2).
Proof. rewrite map_app, concat_app. reflexivity. Qed.

Lemma direct_inv_flush st done : direct_inv st done -> direct_inv (flush st) done.
Proof.
  intros H. pose proof H as (Hmode & Hoff & Hpos & Hsize & Hlen & blocks & cur
                             & Hdone & Hfile & Hbuf & Htot & Hall).
  destruct (Z.eq_dec (buffer_offset_ st) 0) as [E|Hne].
  { unfold flush. rewrite E. exact H. }
  assert (Hbytes : buffer_offset_ st = Z.of_nat (length (concat (map image cur)))).
  { rewrite <- Hbuf, length_mem_read. lia. }
  assert (Hfit : total_written_ st + buffer_offset_ st < 2 ^ 64).
  { rewrite Htot, Hbytes, <- Nat2Z.inj_add, <- length_app, <- concat_images_app,
      <- Hdone.
    pose proof (images_bound done). change sizeof_union with 46 in *.
    unfold QUEUE_SIZE in Hlen. lia. }
  destruct (flush_direct_step st Hmode ltac:(lia) Hpos Hsize ltac:(lia) Hfit)
    as (Hc & Hs & Hp & Ht & Ho).
  destruct (align_up_bounds (buffer_offset_ st) ltac:(lia)) as (Hr & Hm & Hb).
  cbv zeta in *.
  set (r := ALIGNMENT * ((buffer_offset_ st + ALIGNMENT - 1) / ALIGNMENT)) in *.
  destruct (flush_frame st) as (_ & _ & Hmo & _ & Hwb & _).
  assert (HA : ALIGNMENT = 4096) by reflexivity.
  set (pad := mem_read (write_buffer_ st) (0 + Z.of_nat (Z.to_nat (buffer_offset_ st)))
                       (Z.to_nat (r - buffer_offset_ st))).
  assert (Hsplit : mem_read (write_buffer_ st) 0 (Z.to_nat r)
                   = concat (map image cur) ++ pad).
  { replace (Z.to_nat r)
      with (Z.to_nat (buffer_offset_ st) + Z.to_nat (r - buffer_offset_ st))%nat
      by lia.
    rewrite mem_read_app, Hbuf. reflexivity. }
  unfold direct_inv. rewrite Hmo, Ho, Hp.
  split; [exact Hmode|]. split; [unfold BUFFER_SIZE; lia|].
  split; [reflexivity|]. split; [lia|]. split; [exact Hlen|].
  exists (blocks ++ [(cur, pad)]), [].
  rewrite !map_app, !concat_app. cbn [map fst snd concat]. rewrite !app_nil_r.
  split; [exact Hdone|]. split; [|split; [|split]].
  - rewrite Hc, Hfile, Hsplit. reflexivity.
  - reflexivity.
  - rewrite Ht, Htot, Hbytes, <- Nat2Z.inj_add, <- length_app.
    rewrite map_app, concat_app. reflexivity.
  - apply Forall_app. split; [exact Hall|].
    apply List.Forall_cons; [|apply List.Forall_nil].
    unfold block_ok, block_bytes. cbn [fst snd].
    rewrite <- Hsplit, length_mem_read. subst pad. rewrite length_mem_read.
    rewrite <- Hbytes. repeat split; try lia.
    rewrite Z2Nat.id by lia. exact Hm.
Qed.

Lemma direct_inv_write st done x :
  direct_inv st done -> Z.of_nat (length done) < QUEUE_SIZE ->
  direct_inv (write_message st x) (done ++ [x]).
Proof.
  intros H Hroom.
  pose proof (get_message_size_range x) as Hsz. change sizeof_union with 46 in Hsz.
  pose proof (length_image x) as Himg.
  assert (HB : BUFFER_SIZE = 4194304) by reflexivity.
  set (st1 := if wrap64 (buffer_offset_ st + get_message_size x) >? BUFFER_SIZE
              then flush st else st).
  assert (H1 : direct_inv st1 done
               /\ buffer_offset_ st1 + get_message_size x <= BUFFER_SIZE).
  { pose proof H as (_ & Hoff & _).
    subst st1. rewrite wrap64_small by lia.
    destruct (Z.gtb_spec (buffer_offset_ st + get_message_size x) BUFFER_SIZE).
    - split; [apply direct_inv_flush; exact H|].
      destruct (flush_frame st) as (_ & _ & _ & _ & _ & ->). lia.
    - split; [exact H|lia]. }
  destruct H1 as ((Hmode & Hoff & Hpos & Hsize & Hlen & blocks & cur
                   & Hdone & Hfile & Hbuf & Htot & Hall) & Hfit).
  assert (Hmode0 : write_mode_ st = DIRECT) by apply H.
  unfold write_message. rewrite Hmode0. fold st1.
  assert (Hw : wrap64 (buffer_offset_ st1 + get_message_size x)
               = buffer_offset_ st1 + get_message_size x)
    by (apply Z.mod_small; lia).
  unfold direct_inv. cbn. rewrite Hw, Hmode.
  split; [reflexivity|]. split; [lia|]. split; [exact Hpos|]. split; [exact Hsize|].
  split; [rewrite length_app; cbn; unfold QUEUE_SIZE in *; lia|].
  exists blocks, (cur ++ [x]).
  split; [rewrite Hdone, app_assoc; reflexivity|]. split; [exact Hfile|].
  split; [|split; [exact Htot|exact Hall]].
  rewrite concat_images_app. cbn [map concat]. rewrite app_nil_r, <- Hbuf.
  rewrite (mem_read_ext _ (memcpy (write_buffer_ st1) (buffer_offset_ st1) (image x)))
    by (intros a; apply serialize_message_image).
  rewrite Z2Nat.inj_add, <- Himg, Nat2Z.id by lia.
  apply mem_read_memcpy_append. lia.
Qed.

Lemma direct_inv_start qmem bufmem :
  direct_inv (start (AsyncLogger.new DIRECT qmem bufmem)) [].
Proof.
  unfold direct_inv. cbn. unfold BUFFER_SIZE, QUEUE_SIZE.
  repeat split; try lia.
  exists [], []. repeat split. apply List.Forall_nil.
Qed.

Lemma blocks_length (blocks : list (list ParsedMessage * list byte)) :
  Forall block_ok blocks ->
  Z.of_nat (length (concat (map block_bytes blocks))) mod ALIGNMENT = 0
  /\ Z.of_nat (length (concat (map image (concat (map fst blocks)))))
     <= Z.of_nat (length (concat (map block_bytes blocks))).
Proof.
  induction blocks as [|b blocks IH]; intros Hall.
  - cbn. split; [reflexivity|lia].
  - apply List.Forall_cons_iff in Hall. destruct Hall as [(Hm & Hp & Hn) Hall].
    destruct (IH Hall) as (IHm & IHl).
    cbn [map concat]. rewrite concat_images_app, !length_app, !Nat2Z.inj_add.
    split.
    + rewrite Z.add_mod, Hm, IHm by (unfold ALIGNMENT; lia). reflexivity.
    + unfold block_bytes at 1. rewrite length_app, Nat2Z.inj_add. lia.
Qed.

(** X17. A [DIRECT] session of fewer than [QUEUE_SIZE] records, whatever
    the records and the interleaving: every [log] returns true; after
    [stop] the file is a sequence of blocks, each a multiple of [ALIGNMENT]
    long and made of the images of consecutive logged records followed by
    fewer than [ALIGNMENT] bytes of padding; the records of the blocks are
    the logged records in order, up to trailing records of size 0;
    [get_total_written] is the total length of the images, which the length
    of the file, a multiple of [ALIGNMENT], is never below. *)
Theorem direct_session (fuel : nat) (qmem : nat -> ParsedMessage)
    (bufmem : Mem) (msg0 : ParsedMessage) (evs : list event) :
  Z.of_nat (length (logged evs)) < QUEUE_SIZE ->
  (length (logged evs) < fuel)%nat ->
  exists st blocks rest,
    session fuel DIRECT qmem bufmem msg0 evs
      = Some (replicate (length (logged evs)) true, st)
    /\ logged evs = concat (map fst blocks) ++ rest
    /\ concat (map image rest) = []
    /\ file_contents (file_ st) = concat (map block_bytes blocks)
    /\ Forall block_ok blocks
    /\ get_total_written st
       = Z.of_nat (length (concat (map image (logged evs))))
    /\ get_total_written st <= Z.of_nat (length (file_contents (file_ st)))
    /\ Z.of_nat (length (file_contents (file_ st))) mod ALIGNMENT = 0.
Proof.
  intros Hroom Hfuel.
  destruct (session_RunInv direct_inv) with (fuel := fuel) (mode := DIRECT)
    (qmem := qmem) (bufmem := bufmem) (msg0 := msg0) (evs := evs)
    as (st & E & Inv & Hrun); try assumption.
  - intros st q done H. exact H.
  - intros st b done H. exact H.
  - apply direct_inv_flush.
  - apply direct_inv_write.
  - apply direct_inv_start.
  - destruct Inv as [Rq Tq Is].
    pose proof (direct_inv_flush st _ Is)
      as (Hmode & Hoff & Hpos & Hsize & Hlen & blocks & cur
          & Hdone & Hfile & Hbuf & Htot & Hall).
    destruct (flush_frame st) as (_ & _ & _ & _ & _ & Ho).
    rewrite Ho in Hbuf. cbn in Hbuf.
    exists (close_file (flush st)), blocks, cur.
    split; [exact E|].
    unfold close_file. rewrite Hmode.
    destruct (blocks_length blocks Hall) as (Hm & Hle).
    split; [exact Hdone|]. split; [symmetry; exact Hbuf|].
    split; [exact Hfile|]. split; [exact Hall|].
    unfold get_total_written. rewrite Hfile, Htot.
    split; [|split; [exact Hle|exact Hm]].
    rewrite Hdone, concat_images_app, <- Hbuf, app_nil_r. reflexivity.
Qed.

Lemma direct_session_witness :
  let evs := schedule 1 (fun i => i)
               (decode_frames (alternating_frames (fun _ => []) 3) []) in
  exists st blocks rest,
    session 4 DIRECT (fun _ => unhandled_record) (fun _ => Byte.x00)
            unhandled_record evs
      = Some (replicate (length (logged evs)) true, st)
    /\ logged evs = concat (map fst blocks) ++ rest
    /\ concat (map image rest) = []
    /\ file_contents (file_ st) = concat (map block_bytes blocks)
    /\ Forall block_ok blocks
    /\ get_total_written st
       = Z.of_nat (length (concat (map image (logged evs))))
    /\ get_total_written st <= Z.of_nat (length (file_contents (file_ st)))
    /\ Z.of_nat (length (file_contents (file_ st))) mod ALIGNMENT = 0.
Proof.
  apply (direct_session 4).
  - vm_compute. reflexivity.
  - vm_compute. lia.
Defined.

(** ** The loops of the benchmark and the demo *)

Lemma generate_add_order_accepted (g : MessageGenerator.t) (cpu cpu2 : Tsc) :
  let r := MessageGenerator.generate_add_order g cpu in
  length (fst (fst r)) = 38%nat
  /\ has_value (fst (parse (fst (fst r)) 38 cpu2)) = true
  /\ snd (parse (fst (fst r)) 38 cpu2) = tail cpu2
  /\ snd r = tail cpu.
Proof.
  cbv zeta. unfold MessageGenerator.generate_add_order.
  rewrite SystemUtils_rdtsc_eq.
  rewrite (surjective_pairing (get_timestamp_ns cpu)), get_timestamp_ns_cpu.
  cbn [fst snd]. rewrite length_add_order_bytes.
  split; [reflexivity|].
  match goal with
  | |- context [parse (AddOrderMessage.bytes ?w) 38 cpu2] =>
      pose proof (parse_add_order_bytes w cpu2 eq_refl
                    (header_in_range_hton _ _ _ _) (hton64_range _)
                    (hton32_range _) (hton32_range _)) as H
  end.
  rewrite length_add_order_bytes in H. change (Z.of_nat 38) with 38 in H.
  rewrite H, finish_value. auto.
Qed.

Lemma generate_execute_order_accepted (g : MessageGenerator.t) (cpu cpu2 : Tsc) :
  let r := MessageGenerator.generate_execute_order g cpu in
  length (fst (fst r)) = 33%nat
  /\ has_value (fst (parse (fst (fst r)) 33 cpu2)) = true
  /\ snd (parse (fst (fst r)) 33 cpu2) = tail cpu2
  /\ snd r = tail cpu.
Proof.
  cbv zeta. unfold MessageGenerator.generate_execute_order.
  rewrite SystemUtils_rdtsc_eq.
  rewrite (surjective_pairing (get_timestamp_ns cpu)), get_timestamp_ns_cpu.
  cbn [fst snd]. rewrite length_execute_order_bytes.
  split; [reflexivity|].
  match goal with
  | |- context [parse (ExecuteOrderMessage.bytes ?w) 33 cpu2] =>
      pose proof (parse_execute_order_bytes w cpu2 eq_refl
                    (header_in_range_hton _ _ _ _) (hton64_range _)
                    (hton32_range _) (hton64_range _)) as H
  end.
  rewrite length_execute_order_bytes in H. change (Z.of_nat 33) with 33 in H.
  rewrite H, finish_value. auto.
Qed.

Lemma drop_tail {A} (n : nat) (l : list A) : drop n (tail l) = drop (S n) l.
Proof. destruct l; cbn; [rewrite !drop_nil; reflexivity | reflexivity]. Qed.

(** The frames the pre-generation loop produces: their sizes, that each
    is accepted, and the readings of the counter the loop consumes. *)
Lemma pregenerate_sizes (n : nat) :
  forall i gen cpu,
  let r := pregenerate n i gen cpu in
  map (fun m => Z.of_nat (length m)) (fst (fst r)) = map frame_size (seq i n)
  /\ Forall (fun m => forall cpu2,
               has_value (fst (parse m (Z.of_nat (length m)) cpu2)) = true
               /\ snd (parse m (Z.of_nat (length m)) cpu2) = tail cpu2)
            (fst (fst r))
  /\ snd r = drop n cpu.
Proof.
  induction n as [|n IH]; intros i gen cpu; cbv zeta.
  - cbn. repeat split. apply List.Forall_nil.
  - cbn [pregenerate seq map].
    destruct (Nat.even i) eqn:Ei.
    + pose proof (fun c2 => generate_add_order_accepted gen cpu c2) as G.
      cbv zeta in G.
      destruct (MessageGenerator.generate_add_order gen cpu) as [[msg gen'] cpu'].
      cbn [fst snd] in G.
      specialize (IH (S i) gen' cpu'). cbv zeta in IH.
      destruct (pregenerate n (S i) gen' cpu') as [[msgs gen''] cpu''].
      cbn [fst snd] in *. destruct IH as (IH1 & IH2 & IH3).
      destruct (G []) as (Hlen & _ & _ & Hcpu).
      split; [|split].
      * cbn [map]. rewrite IH1, Hlen.
        change (frame_size i) with (if Nat.even i then 38 else 33).
        rewrite Ei. reflexivity.
      * apply List.Forall_cons; [|exact IH2].
        intros cpu2. rewrite Hlen. change (Z.of_nat 38) with 38.
        destruct (G cpu2) as (_ & H1 & H2 & _). auto.
      * rewrite IH3, Hcpu. apply drop_tail.
    + pose proof (fun c2 => generate_execute_order_accepted gen cpu c2) as G.
      cbv zeta in G.
      destruct (MessageGenerator.generate_execute_order gen cpu) as [[msg gen'] cpu'].
      cbn [fst snd] in G.
      specialize (IH (S i) gen' cpu'). cbv zeta in IH.
      destruct (pregenerate n (S i) gen' cpu') as [[msgs gen''] cpu''].
      cbn [fst snd] in *. destruct IH as (IH1 & IH2 & IH3).
      destruct (G []) as (Hlen & _ & _ & Hcpu).
      split; [|split].
      * cbn [map]. rewrite IH1, Hlen.
        change (frame_size i) with (if Nat.even i then 38 else 33).
        rewrite Ei. reflexivity.
      * apply List.Forall_cons; [|exact IH2].
        intros cpu2. rewrite Hlen. change (Z.of_nat 33) with 33.
        destruct (G cpu2) as (_ & H1 & H2 & _). auto.
      * rewrite IH3, Hcpu. apply drop_tail.
Qed.

Lemma rdtscp_cpu cpu : snd (SystemUtils.rdtscp cpu) = tail cpu.
Proof.
  unfold SystemUtils.rdtscp. rewrite SystemUtils_rdtsc_eq.
  apply get_timestamp_ns_cpu.
Qed.

Lemma parse_loop_counts (messages : list (list byte)) :
  forall stats cpu,
  Forall (fun m => forall cpu2,
            has_value (fst (parse m (Z.of_nat (length m)) cpu2)) = true
            /\ snd (parse m (Z.of_nat (length m)) cpu2) = tail cpu2)
         messages ->
  let total := fold_right Z.add 0 (map (fun m => Z.of_nat (length m)) messages) in
  0 <= total_messages stats -> 0 <= total_bytes stats ->
  total_messages stats + Z.of_nat (length messages) < 2 ^ 64 ->
  total_bytes stats + total < 2 ^ 64 ->
  let r := parse_loop messages stats cpu in
  total_messages (fst r) = total_messages stats + Z.of_nat (length messages)
  /\ total_bytes (fst r) = total_bytes stats + total
  /\ length (latencies (fst r)) = (length (latencies stats) + length messages)%nat
  /\ snd r = drop (3 * length messages) cpu.
Proof.
  induction messages as [|msg messages IH]; intros stats cpu Hall; cbv zeta;
    intros Hm Hb Hmf Hbf.
  - cbn. rewrite Nat.add_0_r. repeat split; lia.
  - apply List.Forall_cons_iff in Hall. destruct Hall as [Hmsg Hall].
    cbn [parse_loop].
    rewrite (surjective_pairing (SystemUtils.rdtscp cpu)), rdtscp_cpu.
    destruct (Hmsg (tail cpu)) as (Hv & Hc).
    destruct (parse msg (Z.of_nat (length msg)) (tail cpu)) as [parsed cpu2].
    cbn [fst snd] in Hv, Hc. subst cpu2.
    rewrite (surjective_pairing (SystemUtils.rdtscp (tail (tail cpu)))), rdtscp_cpu.
    rewrite Hv.
    cbn [map fold_right length] in Hmf, Hbf.
    assert (Hnn : 0 <= fold_right Z.add 0
                         (map (fun m => Z.of_nat (length m)) messages)).
    { clear. induction messages as [|a l IHl]; cbn; lia. }
    rewrite (wrap64_small (total_messages stats + 1)),
      (wrap64_small (total_bytes stats + Z.of_nat (length msg))) by lia.
    match goal with
    | |- context [parse_loop messages ?s ?c] =>
        specialize (IH s c Hall); cbv zeta in IH
    end.
    cbn [total_messages total_bytes latencies] in IH.
    destruct IH as (I1 & I2 & I3 & I4); try lia.
    rewrite I1, I2, I3, I4, length_app. cbn [map fold_right length].
    repeat split; try lia.
    rewrite !drop_tail. f_equal. lia.
Qed.

Lemma sum_frame_sizes (n : nat) :
  forall i,
  fold_right Z.add 0 (map frame_size (seq i n))
  = if Nat.even i
    then 38 * Z.of_nat (Nat.div2 (S n)) + 33 * Z.of_nat (Nat.div2 n)
    else 33 * Z.of_nat (Nat.div2 (S n)) + 38 * Z.of_nat (Nat.div2 n).
Proof.
  induction n as [|n IH]; intros i.
  - cbn. destruct (Nat.even i); reflexivity.
  - cbn [seq map fold_right]. rewrite IH.
    rewrite Nat.even_succ, <- Nat.negb_even. unfold frame_size.
    change (Nat.div2 (S (S n))) with (S (Nat.div2 n)).
    destruct (Nat.even i); cbn [negb]; lia.
Qed.

(** X21. [benchmark_parser_only] on [n] messages: the pre-generation loop
    builds [n] frames and reads the counter [n] times; in the timed loop
    [parse] accepts every one of them, so [total_messages] ends at [n],
    [total_bytes] at 38 bytes for each AddOrder and 33 for each
    ExecuteOrder, one latency is recorded per message, and the loop reads
    the counter three times per message. *)
Theorem benchmark_parser_only_counts (n : nat) (gen : MessageGenerator.t)
    (cpu cpu2 : Tsc) :
  Z.of_nat n < 2 ^ 32 ->
  let g := pregenerate n 0 gen cpu in
  let r := parse_loop (fst (fst g)) (mkStats [] 0 0) cpu2 in
  length (fst (fst g)) = n
  /\ total_messages (fst r) = Z.of_nat n
  /\ total_bytes (fst r)
     = 38 * Z.of_nat (Nat.div2 (S n)) + 33 * Z.of_nat (Nat.div2 n)
  /\ length (latencies (fst r)) = n
  /\ snd g = drop n cpu
  /\ snd r = drop (3 * n) cpu2.
Proof.
  intros Hn. cbv zeta.
  destruct (pregenerate_sizes n 0 gen cpu) as (Hsz & Hall & Hcpu).
  set (msgs := fst (fst (pregenerate n 0 gen cpu))) in *.
  assert (Hlen : length msgs = n).
  { apply (f_equal (@length Z)) in Hsz.
    rewrite !length_map, length_seq in Hsz. exact Hsz. }
  assert (Hsum : fold_right Z.add 0 (map (fun m => Z.of_nat (length m)) msgs)
                 = 38 * Z.of_nat (Nat.div2 (S n)) + 33 * Z.of_nat (Nat.div2 n)).
  { rewrite Hsz. apply (sum_frame_sizes n 0). }
  assert (Hd1 : (Nat.div2 (S n) <= S n)%nat) by (apply Nat.div2_decr; lia).
  assert (Hd2 : (Nat.div2 n <= n)%nat) by (apply Nat.div2_decr; lia).
  destruct (parse_loop_counts msgs (mkStats [] 0 0) cpu2 Hall)
    as (H1 & H2 & H3 & H4); cbn [total_messages total_bytes]; try lia.
  cbn [total_messages total_bytes latencies length] in H1, H2, H3.
  rewrite Hlen in *. rewrite Hsum in H2.
  repeat split; assumption || lia.
Qed.

Lemma benchmark_parser_only_counts_witness :
  let g := pregenerate 5 0 (MessageGenerator.mk 0) [(1, 0); (2, 0)] in
  let r := parse_loop (fst (fst g)) (mkStats [] 0 0) [(3, 0); (4, 0); (9, 0)] in
  length (fst (fst g)) = 5%nat
  /\ total_messages (fst r) = Z.of_nat 5
  /\ total_bytes (fst r)
     = 38 * Z.of_nat (Nat.div2 (S 5)) + 33 * Z.of_nat (Nat.div2 5)
  /\ length (latencies (fst r)) = 5%nat
  /\ snd g = drop 5 [(1, 0); (2, 0)]
  /\ snd r = drop (3 * 5) [(3, 0); (4, 0); (9, 0)].
Proof.
  apply (benchmark_parser_only_counts 5). cbn. lia.
Defined.

Lemma create_add_order_parsed gen now symbol side shares price cpu :
  let r := DemoMessageGenerator.create_add_order gen now symbol side shares price in
  exists u ts,
    parse (fst r) (Z.of_nat (length (fst r))) cpu
    = (Some (mkParsedMessage MessageType.ADD_ORDER u ts), tail cpu).
Proof.
  cbv zeta. unfold DemoMessageGenerator.create_add_order. cbn [fst].
  rewrite parse_add_order_bytes;
    [ | reflexivity | apply header_in_range_hton
      | apply hton64_range | apply hton32_range | apply hton32_range ].
  rewrite finish_value. eauto.
Qed.

Lemma create_trade_parsed gen now symbol side shares price cpu :
  let r := DemoMessageGenerator.create_trade gen now symbol side shares price in
  exists u ts,
    parse (fst r) (Z.of_nat (length (fst r))) cpu
    = (Some (mkParsedMessage MessageType.TRADE u ts), tail cpu).
Proof.
  cbv zeta. unfold DemoMessageGenerator.create_trade. cbn [fst].
  rewrite parse_trade_bytes;
    [ | reflexivity | apply header_in_range_hton
      | apply hton64_range | apply hton32_range | apply hton32_range
      | apply hton64_range ].
  rewrite finish_value. eauto.
Qed.

Lemma demo_async_records_types (now : nat -> Z) (n : nat) :
  forall i gen cpu,
  map type (demo_async_records n i gen now cpu)
  = map (fun j => if Nat.even j then MessageType.ADD_ORDER else MessageType.TRADE)
        (seq i n).
Proof.
  induction n as [|n IH]; intros i gen cpu; [reflexivity|].
  cbn [demo_async_records seq map].
  destruct (Nat.even i).
  - destruct (create_add_order_parsed gen (now i) ["T"; "S"; "L"; "A"]%byte "B"%byte
                (100 + Z.of_nat i) (2500000 + Z.of_nat i * 100) cpu)
      as (u & ts & E).
    cbv zeta in E.
    destruct (DemoMessageGenerator.create_add_order _ _ _ _ _ _) as [msg gen'].
    cbn [fst] in E. rewrite E. cbn [map type]. rewrite IH. reflexivity.
  - destruct (create_trade_parsed gen (now i) ["N"; "V"; "D"; "A"]%byte "S"%byte
                (50 + Z.of_nat i) (5000000 + Z.of_nat i * 100) cpu)
      as (u & ts & E).
    cbv zeta in E.
    destruct (DemoMessageGenerator.create_trade _ _ _ _ _ _) as [msg gen'].
    cbn [fst] in E. rewrite E. cbn [map type]. rewrite IH. reflexivity.
Qed.

(** X22. [demo_async_logging]: whatever the timestamps, the counter
    readings and the interleaving of the main thread with the worker, each
    of the 1000 frames the generator builds is accepted by [parse], each
    [log] returns true at its first call, the records alternate AddOrder
    and Trade, and after [stop] the file holds their images in order, the
    queue is empty and [get_total_written] is 42000 (500 records of 38
    bytes and 500 of 46). *)
Theorem demo_async_logging_total (now : nat -> Z) (cpu : Tsc)
    (lead : nat) (gap : nat -> nat) (qmem : nat -> ParsedMessage) (bufmem : Mem)
    (msg0 : ParsedMessage) (fuel : nat) :
  let msgs := demo_async_records 1000 0 (DemoMessageGenerator.mk 0) now cpu in
  exists st,
    session (1001 + fuel) BUFFERED qmem bufmem msg0 (schedule lead gap msgs)
      = Some (replicate 1000 true, st)
    /\ map type msgs = alternating_tags 1000
    /\ file_contents (file_ st) = concat (map image msgs)
    /\ get_queue_size st = 0
    /\ get_total_written st = 42000.
Proof.
  cbv zeta.
  set (msgs := demo_async_records 1000 0 (DemoMessageGenerator.mk 0) now cpu).
  assert (Hty : map type msgs = alternating_tags 1000)
    by apply demo_async_records_types.
  assert (Hlen : length msgs = 1000%nat).
  { apply (f_equal (@length MessageType)) in Hty.
    rewrite length_map in Hty. rewrite Hty. unfold alternating_tags.
    rewrite length_map, length_seq. reflexivity. }
  destruct (session_RunInv buffered_inv) with (fuel := (1001 + fuel)%nat)
    (mode := BUFFERED) (qmem := qmem) (bufmem := bufmem) (msg0 := msg0)
    (evs := schedule lead gap msgs)
    as (st & E & Inv & Hrun).
  - intros s q done H. exact H.
  - intros s b done H. exact H.
  - apply buffered_inv_flush.
  - apply buffered_inv_write.
  - apply buffered_inv_start.
  - rewrite logged_schedule, Hlen. unfold QUEUE_SIZE. lia.
  - rewrite logged_schedule, Hlen. lia.
  - rewrite logged_schedule in E, Inv. rewrite Hlen in E.
    destruct (buffered_final st msgs Inv) as (Hc & Ht & Hq & _).
    cbv zeta in Hc, Ht, Hq.
    exists (close_file (flush st)). split; [exact E|]. split; [exact Hty|].
    split; [exact Hc|]. split; [exact Hq|].
    rewrite Ht, Hc, length_concat_images, Hty. vm_compute. reflexivity.
Qed.

(** ** The buffer bounds and the life cycle *)

(** X18. In the [DIRECT] and [BUFFERED] modes [write_message] stores only
    inside the [BUFFER_SIZE] bytes of [write_buffer_], flushing first when
    the record would not fit, and leaves [buffer_offset_] within them. *)
Theorem write_message_in_buffer (st : AsyncLogger.t) (msg : ParsedMessage) :
  sink_ok st -> write_mode_ st <> MMAP ->
  (forall a, write_buffer_ (write_message st msg) a <> write_buffer_ st a ->
             0 <= a < BUFFER_SIZE)
  /\ 0 <= buffer_offset_ (write_message st msg) <= BUFFER_SIZE.
Proof.
  intros (Hoff & Htot & Hmap) Hmode.
  pose proof (get_message_size_range msg) as Hsz. change sizeof_union with 46 in Hsz.
  pose proof (length_image msg) as Himg.
  assert (HB : BUFFER_SIZE = 4194304) by reflexivity.
  set (st1 := if wrap64 (buffer_offset_ st + get_message_size msg) >? BUFFER_SIZE
              then flush st else st).
  assert (H1 : 0 <= buffer_offset_ st1
               /\ buffer_offset_ st1 + get_message_size msg <= BUFFER_SIZE
               /\ write_buffer_ st1 = write_buffer_ st).
  { subst st1. rewrite wrap64_small by lia.
    destruct (Z.gtb_spec (buffer_offset_ st + get_message_size msg) BUFFER_SIZE).
    - destruct (flush_frame st) as (_ & _ & _ & _ & -> & ->). repeat split; lia.
    - repeat split; lia. }
  destruct H1 as (H0 & Hfit & Hbuf).
  assert (Hw : wrap64 (buffer_offset_ st1 + get_message_size msg)
               = buffer_offset_ st1 + get_message_size msg)
    by (apply Z.mod_small; lia).
  assert (E : write_buffer_ (write_message st msg)
              = serialize_message (write_buffer_ st1) (buffer_offset_ st1) msg
              /\ buffer_offset_ (write_message st msg)
                 = buffer_offset_ st1 + get_message_size msg).
  { unfold write_message. fold st1.
    destruct (write_mode_ st); [congruence| |]; cbn; rewrite Hw; auto. }
  destruct E as (-> & ->). split; [|lia].
  intros a Ha. rewrite serialize_message_image, Hbuf in Ha. unfold memcpy in Ha.
  destruct (Z.leb_spec (buffer_offset_ st1) a); cbn [andb] in Ha; [|congruence].
  destruct (Z.ltb_spec a (buffer_offset_ st1 + Z.of_nat (length (image msg))));
    [lia|congruence].
Qed.

Lemma write_message_in_buffer_witness :
  let st := start (AsyncLogger.new BUFFERED (fun _ => unhandled_record)
                                   (fun _ => Byte.x00)) in
  let msg := mkParsedMessage MessageType.ADD_ORDER
               (add_order test_add_order_expected) 0 in
  (forall a, write_buffer_ (write_message st msg) a <> write_buffer_ st a ->
             0 <= a < BUFFER_SIZE)
  /\ 0 <= buffer_offset_ (write_message st msg) <= BUFFER_SIZE.
Proof.
  apply write_message_in_buffer.
  - apply sink_ok_start.
  - cbn. discriminate.
Defined.

Lemma close_file_running st : running_ (close_file st) = running_ st.
Proof. unfold close_file. destruct (write_mode_ st); reflexivity. Qed.

Lemma drain_running (fuel : nat) :
  forall st msg st' msg',
  drain fuel st msg = Some (st', msg') -> running_ st' = running_ st.
Proof.
  induction fuel as [|fuel IH]; intros st msg st' msg' H; [discriminate|].
  cbn [drain] in H.
  destruct (try_dequeue QUEUE_SIZE (S fuel) (queue_ st) msg)
    as [[[[|] m] q]|]; [| |discriminate].
  - apply IH in H. rewrite H.
    destruct (write_message_frame (set_queue q st) m) as (_ & -> & _). reflexivity.
  - injection H as <- _. reflexivity.
Qed.

(** [stop] right after [start]: the worker finds the queue empty. *)
Lemma stop_started mode qmem bufmem msg :
  stop 1 (start (AsyncLogger.new mode qmem bufmem)) msg
  = Some (close_file (flush (set_running false
                               (start (AsyncLogger.new mode qmem bufmem))))).
Proof.
  destruct (start_new_fields mode qmem bufmem) as (Hq & Hr & _).
  set (st0 := start (AsyncLogger.new mode qmem bufmem)) in *.
  unfold stop. rewrite Hr. cbn [negb drain].
  change (queue_ (set_running false st0)) with (queue_ st0).
  rewrite Hq.
  rewrite (try_dequeue_empty 20 QUEUE_SIZE ltac:(lia) queue_size_pow
             ltac:(unfold QUEUE_SIZE; lia) (MPMCQueue.new QUEUE_SIZE qmem) msg 0).
  - rewrite <- Hq.
    change (queue_ st0) with (queue_ (set_running false st0)).
    rewrite set_queue_same. reflexivity.
  - apply (new_Represents 20); [lia | reflexivity | unfold QUEUE_SIZE; lia].
  - unfold in_range. cbn. unfold QUEUE_SIZE. lia.
Qed.

(** X19. A [stop] that returns leaves the logger stopped, and a further
    [stop], such as the one the destructor issues, returns at once and
    changes nothing: no second flush, truncation or close. *)
Theorem stop_idempotent (fuel : nat) (st st' : AsyncLogger.t) (msg : ParsedMessage) :
  stop fuel st msg = Some st' ->
  running_ st' = false
  /\ forall fuel' msg', stop fuel' st' msg' = Some st'.
Proof.
  intros H.
  assert (Hr : running_ st' = false).
  { unfold stop in H. destruct (running_ st) eqn:Hrun; cbn [negb] in H.
    - destruct (drain fuel (set_running false st) msg) as [[st1 msg1]|] eqn:Hd;
        [|discriminate].
      injection H as <-. rewrite close_file_running.
      destruct (flush_frame st1) as (_ & -> & _).
      apply drain_running in Hd. exact Hd.
    - injection H as <-. exact Hrun. }
  split; [exact Hr|]. intros fuel' msg'. unfold stop. rewrite Hr. reflexivity.
Qed.

Lemma stop_idempotent_witness :
  let st := start (AsyncLogger.new BUFFERED (fun _ => unhandled_record)
                                   (fun _ => Byte.x00)) in
  let st' := close_file (flush (set_running false st)) in
  running_ st' = false
  /\ forall fuel' msg', stop fuel' st' msg' = Some st'.
Proof.
  apply (stop_idempotent 1
           (start (AsyncLogger.new BUFFERED (fun _ => unhandled_record)
                                   (fun _ => Byte.x00)))
           _ unhandled_record).
  apply stop_started.
Defined.




(** ** A producer and a consumer running concurrently *)

Lemma accepted_snoc_false {T} (ins : list T) (rs : list bool) :
  accepted ins (rs ++ [false]) = accepted ins rs.
Proof.
  revert ins. induction rs as [|r rs IH]; intros [|x ins]; cbn; try reflexivity.
  - destruct ins; reflexivity.
  - destruct r; rewrite IH; reflexivity.
Qed.

Lemma accepted_snoc_true {T} (ins : list T) (rs : list bool) (x : T) :
  ins !! length rs = Some x ->
  accepted ins (rs ++ [true]) = accepted ins rs ++ [x].
Proof.
  revert ins. induction rs as [|r rs IH]; intros [|y ins] H; cbn in *;
    try discriminate.
  - injection H as ->. destruct ins; reflexivity.
  - destruct r; rewrite (IH _ H); reflexivity.
Qed.

Lemma accepted_length {T} (ins : list T) (rs : list bool) :
  (length (accepted ins rs) <= length rs)%nat.
Proof.
  revert ins. induction rs as [|r rs IH]; intros [|x ins]; cbn; try lia.
  destruct r; cbn; specialize (IH ins); lia.
Qed.

Lemma dequeued_snoc_None {T} (rs : list (option T)) :
  dequeued (rs ++ [None]) = dequeued rs.
Proof. unfold dequeued. rewrite omap_app. cbn. apply app_nil_r. Qed.

Lemma dequeued_snoc_Some {T} (rs : list (option T)) (x : T) :
  dequeued (rs ++ [Some x]) = dequeued rs ++ [x].
Proof. unfold dequeued. rewrite omap_app. reflexivity. Qed.

Lemma drop_cons_lookup {A} (l : list A) (n : nat) (x : A) (l' : list A) :
  drop n l = x :: l' -> l !! n = Some x /\ drop (S n) l = l'.
Proof.
  revert l. induction n as [|n IH]; intros [|y l] H; cbn in *; try discriminate.
  - injection H as -> ->. split; [reflexivity|]. apply drop_0.
  - apply IH. exact H.
Qed.

Section TwoThreads.
Context {T : Type}.
Variables (e Capacity : Z).
Hypothesis He : 0 <= e.
Hypothesis Hpow : Capacity = 2 ^ e.
Hypothesis Hfit : Capacity < 2 ^ 62.

(** Writing the slot of the next position to publish changes nothing of
    what the queue represents. *)
Lemma Represents_write_free (h t : Z) (buf : list T) (seqs : list Z)
    (l : list T) (x : T) :
  Represents Capacity (MPMCQueue.mk h t buf seqs) l ->
  Z.of_nat (length l) < Capacity ->
  Represents Capacity
    (MPMCQueue.mk h t (<[index_of Capacity h := x]> buf) seqs) l.
Proof.
  intros [Hb Hs Ht Hh Hroom Hitems Hfree] Hl. cbn in *.
  constructor; cbn; try assumption.
  - rewrite length_insert. exact Hb.
  - intros k y Hk. destruct (Hitems k y Hk) as [H1 H2].
    split; [exact H1|].
    assert (Hlt : (k < length l)%nat) by (apply lookup_lt_Some in Hk; exact Hk).
    rewrite list_lookup_insert_ne; [exact H2|].
    rewrite Hh. apply (index_of_ne e Capacity He Hpow Hfit); lia.
Qed.

(** Storing the sequence number publishes the item written. *)
Lemma Represents_publish (h t : Z) (buf : list T) (seqs : list Z)
    (l : list T) (x : T) :
  Represents Capacity (MPMCQueue.mk h t buf seqs) l ->
  Z.of_nat (length l) < Capacity ->
  buf !! index_of Capacity h = Some x ->
  Represents Capacity
    (MPMCQueue.mk (h + 1) t buf (<[index_of Capacity h := h + 1]> seqs))
    (l ++ [x]).
Proof.
  intros [Hb Hs Ht Hh Hroom Hitems Hfree] Hl Hx. cbn in *.
  pose proof (capacity_pos e Capacity He Hpow) as Hc.
  constructor; cbn.
  - exact Hb.
  - rewrite length_insert. exact Hs.
  - exact Ht.
  - rewrite length_app. cbn. lia.
  - rewrite length_app. cbn. lia.
  - intros k y Hk. rewrite Hh.
    destruct (Nat.eq_dec k (length l)) as [->|Hne].
    + rewrite lookup_app_r, Nat.sub_diag in Hk by lia. cbn in Hk.
      injection Hk as <-.
      rewrite list_lookup_insert_eq.
      * split; [f_equal; lia|]. rewrite <- Hh. exact Hx.
      * pose proof (index_of_lt e Capacity He Hpow Hfit
                      (t + Z.of_nat (length l))). lia.
    + assert (Hlt : (k < length l)%nat).
      { apply lookup_lt_Some in Hk. rewrite length_app in Hk. cbn in Hk. lia. }
      rewrite lookup_app_l in Hk by exact Hlt.
      rewrite list_lookup_insert_ne
        by (apply (index_of_ne e Capacity He Hpow Hfit); lia).
      apply Hitems. exact Hk.
  - intros k Hk Hkc. rewrite length_app in Hk. cbn in Hk. rewrite Hh.
    rewrite list_lookup_insert_ne
      by (apply (index_of_ne e Capacity He Hpow Hfit); lia).
    apply Hfree; lia.
Qed.

(** Storing the sequence number of the next lap releases the slot read. *)
Lemma Represents_release (h t : Z) (buf : list T) (seqs : list Z)
    (x : T) (l : list T) :
  Represents Capacity (MPMCQueue.mk h t buf seqs) (x :: l) ->
  Represents Capacity
    (MPMCQueue.mk h (t + 1) buf (<[index_of Capacity t := t + Capacity]> seqs)) l.
Proof.
  intros [Hb Hs Ht Hh Hroom Hitems Hfree]. cbn in *.
  pose proof (capacity_pos e Capacity He Hpow) as Hc.
  constructor; cbn.
  - exact Hb.
  - rewrite length_insert. exact Hs.
  - lia.
  - lia.
  - lia.
  - intros k y Hk.
    assert (Hlt : (k < length l)%nat) by (apply lookup_lt_Some in Hk; exact Hk).
    destruct (Hitems (S k) y Hk) as [Hq1 Hq2].
    replace (t + 1 + Z.of_nat k) with (t + Z.of_nat (S k)) by lia.
    rewrite list_lookup_insert_ne.
    + split; [rewrite Hq1; f_equal; lia | exact Hq2].
    + rewrite <- (Z.add_0_r t) at 1.
      apply (index_of_ne e Capacity He Hpow Hfit); lia.
  - intros k Hk Hkc.
    replace (t + 1 + Z.of_nat k) with (t + Z.of_nat (S k)) by lia.
    destruct (Z.eq_dec (Z.of_nat (S k)) Capacity) as [E|Hne].
    + rewrite E, (index_of_wrap e Capacity He Hpow Hfit).
      rewrite list_lookup_insert_eq; [reflexivity|].
      pose proof (index_of_lt e Capacity He Hpow Hfit t). lia.
    + rewrite list_lookup_insert_ne.
      * apply Hfree; cbn; lia.
      * rewrite <- (Z.add_0_r t) at 1.
        apply (index_of_ne e Capacity He Hpow Hfit); lia.
Qed.

(** What a load of the sequence number at the head position can give. *)
Lemma Represents_load_head (h t : Z) (buf : list T) (seqs : list Z) (l : list T) :
  Represents Capacity (MPMCQueue.mk h t buf seqs) l ->
  default 0 (seqs !! index_of Capacity h) = h /\ Z.of_nat (length l) < Capacity
  \/ default 0 (seqs !! index_of Capacity h) = h - Capacity + 1
     /\ Z.of_nat (length l) = Capacity.
Proof.
  intros [Hb Hs Ht Hh Hroom Hitems Hfree]. cbn in *.
  pose proof (capacity_pos e Capacity He Hpow) as Hc.
  destruct (Z.ltb_spec (Z.of_nat (length l)) Capacity) as [Hlt|Hge].
  - left. split; [|exact Hlt].
    rewrite Hh, (Hfree (length l)) by lia. reflexivity.
  - right. split; [|lia].
    destruct l as [|x l]; [cbn in *; lia|].
    destruct (Hitems 0%nat x eq_refl) as [E _].
    replace h with (t + Z.of_nat 0 + Capacity) by lia.
    rewrite (index_of_wrap e Capacity He Hpow Hfit), E. cbn. lia.
Qed.

(** What a load of the sequence number at the tail position can give. *)
Lemma Represents_load_tail (h t : Z) (buf : list T) (seqs : list Z) (l : list T) :
  Represents Capacity (MPMCQueue.mk h t buf seqs) l ->
  default 0 (seqs !! index_of Capacity t) = t + 1 /\ t < h
  \/ default 0 (seqs !! index_of Capacity t) = t /\ t = h.
Proof.
  intros [Hb Hs Ht Hh Hroom Hitems Hfree]. cbn in *.
  pose proof (capacity_pos e Capacity He Hpow) as Hc.
  destruct l as [|x l].
  - right. pose proof (Hfree 0%nat (le_n _) Hc) as E.
    replace (t + Z.of_nat 0) with t in E by lia.
    rewrite E. cbn in *. lia.
  - left. destruct (Hitems 0%nat x eq_refl) as [E _].
    replace (t + Z.of_nat 0) with t in E by lia.
    rewrite E. cbn in *. lia.
Qed.

(** The slot at the tail position holds the oldest item. *)
Lemma Represents_read (h t : Z) (buf : list T) (seqs : list Z) (x : T) (l : list T) :
  Represents Capacity (MPMCQueue.mk h t buf seqs) (x :: l) ->
  buf !! index_of Capacity t = Some x.
Proof using Type.
  clear He Hpow Hfit.
  intros [Hb Hs Ht Hh Hroom Hitems Hfree]. cbn in *.
  destruct (Hitems 0%nat x eq_refl) as [_ E].
  replace (t + Z.of_nat 0) with t in E by lia. exact E.
Qed.

End TwoThreads.

Lemma accepted_nil {T} (ins : list T) : accepted ins [] = [].
Proof. destruct ins; reflexivity. Qed.

Lemma cpc_ok_publish {T} (pc : consumer_pc) (t hp tr : Z) (l : list T) (cv x : T) :
  cpc_ok pc t hp tr l cv -> cpc_ok pc t (hp + 1) tr (l ++ [x]) cv.
Proof.
  destruct pc; cbn; intros H; try exact H.
  - destruct H as [H1 [[H2 H3]|H2]]; (split; [exact H1|]); [left|right]; lia.
  - lia.
  - destruct H as (H1 & H2 & H3). repeat split; [exact H1|lia|].
    destruct l; [discriminate|exact H3].
Qed.

Lemma ppc_ok_release {T} (Capacity : Z) (pc : producer_pc T) (h hp tr : Z)
    (buf : list T) :
  ppc_ok Capacity pc h hp tr buf -> ppc_ok Capacity pc h hp (tr + 1) buf.
Proof.
  destruct pc; cbn; intros H; try exact H.
  - destruct H as [H1 [[H2 H3]|H2]]; (split; [exact H1|]); [left|right]; lia.
  - lia.
  - destruct H as (H1 & H2 & H3). repeat split; [exact H1|lia|exact H3].
Qed.

Ltac sys_simpl :=
  unfold published, released in *;
  cbn [sq ppc todo presults cpc cvar cresults spins
       head_ tail_ buffer_ sequences_ claimed_p claimed_c ppc_ok cpc_ok] in *.

Section Interleaving.
Context {T : Type}.
Variables (e Capacity : Z) (ins : list T).
Hypothesis He : 1 <= e.
Hypothesis Hpow : Capacity = 2 ^ e.
Hypothesis Hbound : Z.of_nat (length ins) + 2 * Capacity < 2 ^ 63.

Lemma two_le_capacity : 2 <= Capacity.
Proof using He Hpow.
  clear Hbound. rewrite Hpow. change 2 with (2 ^ 1) at 1.
  apply Z.pow_le_mono_r; lia.
Qed.

Lemma capacity_fits : Capacity < 2 ^ 62.
Proof using Hbound. clear He Hpow. lia. Qed.

Lemma producer_step_SInv (st : sys T) :
  SInv Capacity ins st -> SInv Capacity ins (producer_step Capacity st).
Proof using He Hpow Hbound.
  pose proof two_le_capacity as H2. pose proof capacity_fits as Hfit.
  assert (He0 : 0 <= e) by lia.
  destruct st as [[h t buf seqs] pp td pres cp cv cres sp].
  intros [Hrep Hhd Htl Houts Hbd Htodo Hppc Hcpc Hsp]. sys_simpl.
  pose proof Hrep as [Hb Hs Ht Hh Hroom _ _]. sys_simpl.
  pose proof (accepted_length ins pres) as Hacc.
  unfold producer_step. sys_simpl.
  destruct pp as [|item pos|item pos seq|item pos|item pos]; sys_simpl.
  - destruct td as [|item td']; constructor; sys_simpl; try assumption.
    reflexivity.
  - constructor; sys_simpl; try assumption.
    subst pos. split; [reflexivity|].
    unfold load_seq. sys_simpl. rewrite Z.sub_0_r in *.
    destruct (Represents_load_head e Capacity He0 Hpow Hfit _ _ _ _ _ Hrep)
      as [[E1 E2]|[E1 E2]]; rewrite E1; [left|right]; lia.
  - destruct Hppc as [-> Hseq]. rewrite Z.sub_0_r in *.
    destruct (drop_cons_lookup _ _ _ _ (eq_sym Htodo)) as [Hitem Hdrop].
    pose proof (lookup_lt_Some _ _ _ Hitem) as Hlt.
    destruct Hseq as [[-> Hroom']|[-> Hone]].
    + rewrite Z.sub_diag, !Z.eqb_refl. cbv beta iota.
      rewrite wrap64_small by lia.
      constructor; sys_simpl; try assumption.
      * replace (h + 1 - 1) with h by lia. exact Hrep.
      * lia.
      * lia.
      * replace (h + 1 - 1) with h by lia. exact Hcpc.
    + rewrite !(to_intptr_small 0) by lia.
      destruct (Z.eqb_spec (h - Capacity + 1 - h) 0) as [E|_]; [lia|].
      destruct (Z.ltb_spec (h - Capacity + 1 - h) 0) as [_|E]; [|lia].
      constructor; sys_simpl; rewrite ?accepted_snoc_false, ?Z.sub_0_r;
        try assumption.
      * rewrite length_app. cbn. lia.
      * rewrite length_app. cbn [length]. rewrite Nat.add_1_r. symmetry.
        exact Hdrop.
      * exact I.
  - destruct Hppc as [-> Hroom'].
    constructor; sys_simpl; try assumption.
    + apply (Represents_write_free e Capacity He0 Hpow Hfit); [exact Hrep|lia].
    + repeat split; try lia.
      apply list_lookup_insert_eq.
      pose proof (index_of_lt e Capacity He0 Hpow Hfit (h - 1)). lia.
  - destruct Hppc as (-> & Hroom' & Hbuf).
    destruct (drop_cons_lookup _ _ _ _ (eq_sym Htodo)) as [Hitem Hdrop].
    pose proof (lookup_lt_Some _ _ _ Hitem) as Hlt.
    rewrite wrap64_small by lia.
    assert (Hnd : (length (dequeued cres) <= length (accepted ins pres))%nat)
      by lia.
    constructor; sys_simpl;
      rewrite ?(accepted_snoc_true _ _ _ Hitem), ?Z.sub_0_r; try assumption.
    + rewrite drop_app_le by exact Hnd.
      replace h with (h - 1 + 1) at 1 by lia.
      apply (Represents_publish e Capacity He0 Hpow Hfit);
        [exact Hrep|lia|exact Hbuf].
    + rewrite length_app. cbn. lia.
    + rewrite take_app_le by exact Hnd. exact Houts.
    + rewrite length_app. cbn. lia.
    + rewrite length_app. cbn [length]. rewrite Nat.add_1_r. symmetry.
      exact Hdrop.
    + exact I.
    + rewrite drop_app_le by exact Hnd.
      replace h with (h - 1 + 1) at 1 by lia.
      apply cpc_ok_publish. exact Hcpc.
Qed.

Lemma consumer_step_SInv (st : sys T) :
  SInv Capacity ins st -> SInv Capacity ins (consumer_step Capacity st).
Proof using He Hpow Hbound.
  pose proof two_le_capacity as H2. pose proof capacity_fits as Hfit.
  assert (He0 : 0 <= e) by lia.
  destruct st as [[h t buf seqs] pp td pres cp cv cres sp].
  intros [Hrep Hhd Htl Houts Hbd Htodo Hppc Hcpc Hsp]. sys_simpl.
  pose proof Hrep as [Hb Hs Ht Hh Hroom _ _]. sys_simpl.
  pose proof (accepted_length ins pres) as Hacc.
  unfold consumer_step. sys_simpl.
  destruct cp as [|pos|pos seq|pos|pos]; sys_simpl.
  - constructor; sys_simpl; try assumption. reflexivity.
  - constructor; sys_simpl; try assumption.
    subst pos. split; [reflexivity|].
    unfold load_seq. sys_simpl. rewrite Z.sub_0_r in *.
    destruct (Represents_load_tail e Capacity He0 Hpow _ _ _ _ _ Hrep)
      as [[E1 E2]|[E1 E2]]; rewrite E1; [left|right]; lia.
  - destruct Hcpc as [-> Hseq]. rewrite Z.sub_0_r in *.
    rewrite (wrap64_small (t + 1)) by lia.
    destruct Hseq as [[-> Hsome] | ->].
    + rewrite Z.sub_diag, !Z.eqb_refl. cbv beta iota.
      constructor; sys_simpl; try assumption;
        replace (t + 1 - 1) with t by lia; try assumption.
      lia.
    + rewrite !(to_intptr_small 0) by lia.
      destruct (Z.eqb_spec (t - (t + 1)) 0) as [E|_]; [lia|].
      destruct (Z.ltb_spec (t - (t + 1)) 0) as [_|E]; [|lia].
      constructor; sys_simpl; rewrite ?dequeued_snoc_None, ?Z.sub_0_r;
        try assumption.
      exact I.
  - destruct Hcpc as [-> Hsome].
    constructor; sys_simpl; try assumption.
    repeat split; try lia.
    destruct (drop (length (dequeued cres)) (accepted ins pres))
      as [|x l] eqn:El; [cbn in Hh; lia|].
    rewrite (Represents_read Capacity _ _ _ _ _ _ Hrep). reflexivity.
  - destruct Hcpc as (-> & Hsome & Hcv).
    rewrite wrap64_small by lia.
    destruct (drop (length (dequeued cres)) (accepted ins pres))
      as [|x l] eqn:El; [discriminate|].
    cbn in Hcv. injection Hcv as ->.
    destruct (drop_cons_lookup _ _ _ _ El) as [Hnth Hdrop].
    constructor; sys_simpl;
      rewrite ?dequeued_snoc_Some, ?Z.sub_0_r, ?length_app; cbn [length];
      rewrite ?Nat.add_1_r; try assumption.
    + rewrite Hdrop.
      replace t with (t - 1 + 1) at 1 by lia.
      apply (Represents_release e Capacity He0 Hpow Hfit _ _ _ _ cv).
      exact Hrep.
    + lia.
    + rewrite (take_S_r _ _ _ Hnth), <- Houts. reflexivity.
    + replace t with (t - 1 + 1) at 1 by lia.
      apply ppc_ok_release. exact Hppc.
    + exact I.
Qed.

Lemma sys_init_SInv (mem : nat -> T) (item0 : T) :
  SInv Capacity ins (sys_init Capacity mem ins item0).
Proof using He Hpow Hbound.
  pose proof capacity_fits as Hfit.
  assert (He0 : 0 <= e) by lia.
  unfold sys_init.
  constructor; sys_simpl; rewrite ?accepted_nil; cbn;
    try reflexivity; try exact I; try lia.
  exact (new_Represents e Capacity He0 Hpow Hfit mem).
Qed.

Lemma run_sched_SInv (sched : list bool) (st : sys T) :
  SInv Capacity ins st -> SInv Capacity ins (run_sched Capacity sched st).
Proof using He Hpow Hbound.
  revert st. induction sched as [|[] sched IH]; intros st Hst; cbn.
  - exact Hst.
  - apply IH, producer_step_SInv, Hst.
  - apply IH, consumer_step_SInv, Hst.
Qed.

End Interleaving.

(** X23. A producer thread offers the items of [ins] by calls of
    [try_enqueue] and a consumer thread calls [try_dequeue] again and again,
    on a queue whose capacity is a power of two from 2 on; the atomic
    operations of the two calls interleave in any order, each taking effect
    at once. Then at every moment the values dequeued are, in order, the
    first of the items whose call returned true; at most [Capacity] items
    are accepted and not yet dequeued; no compare-and-exchange has failed
    and no loop has gone back for another thread being ahead; and when both
    threads are between two calls, the queue holds exactly the accepted
    items not yet dequeued. *)
Theorem spsc_interleaved {T} (e Capacity : Z) (mem : nat -> T) (ins : list T)
    (item0 : T) (sched : list bool) :
  1 <= e -> Capacity = 2 ^ e ->
  Z.of_nat (length ins) + 2 * Capacity < 2 ^ 63 ->
  let st := run_sched Capacity sched (sys_init Capacity mem ins item0) in
  let acc := accepted ins (presults st) in
  let deq := dequeued (cresults st) in
  deq = take (length deq) acc
  /\ Z.of_nat (length acc) <= Z.of_nat (length deq) + Capacity
  /\ spins st = 0%nat
  /\ (ppc st = PIdle -> cpc st = CIdle ->
      Represents Capacity (sq st) (drop (length deq) acc)).
Proof.
  intros He Hpow Hbound st acc deq.
  destruct (run_sched_SInv e Capacity ins He Hpow Hbound sched _
              (sys_init_SInv e Capacity ins He Hpow Hbound mem item0))
    as [Hrep Hhd Htl Houts Hbd Htodo Hppc Hcpc Hsp].
  fold st in Hrep, Hhd, Htl, Houts, Hsp. fold acc deq in Hrep, Hhd, Htl, Houts.
  pose proof Hrep as [_ _ _ Hh Hroom _ _]. cbn [head_ tail_] in Hh.
  split; [|split; [|split]].
  - exact Houts.
  - rewrite length_drop in Hroom. lia.
  - exact Hsp.
  - intros Hp Hc. unfold published, released in Hrep.
    rewrite Hp, Hc in Hrep. cbn [claimed_p claimed_c] in Hrep.
    rewrite !Z.sub_0_r in Hrep. destruct (sq st). exact Hrep.
Qed.

Lemma spsc_interleaved_witness :
  let sched := replicate 11 true
               ++ concat (replicate 8 [false; false; false; true]) in
  let st := run_sched 2 sched
              (sys_init 2 (fun _ => 0%nat) [7; 8; 9; 10]%nat 0%nat) in
  presults st = [true; true; false; true]
  /\ dequeued (cresults st) = [7; 8]%nat
  /\ dequeued (cresults st)
     = take (length (dequeued (cresults st)))
            (accepted [7; 8; 9; 10]%nat (presults st))
  /\ spins st = 0%nat.
Proof.
  intros sched st.
  split; [reflexivity|]. split; [reflexivity|].
  pose proof (spsc_interleaved 1 2 (fun _ => 0%nat) [7; 8; 9; 10]%nat 0%nat
                sched ltac:(lia) eq_refl ltac:(vm_compute; reflexivity)) as H.
  split; [exact (proj1 H)|exact (proj1 (proj2 (proj2 H)))].
Defined.
